(** * gnss-intrinsics: the AVX2 kernels and the tracking loop

    A shallow embedding of [src/avx2_intrinsics.h] and of the profiling
    driver [prof/trackC_standalone_avx512_16i_add_16i_mul_single_mulacc.c].

    - C integers are [Z] with the wrap-around of their width written out.
    - [float] and [double] are [spec_float] of the Standard Library at the
      binary32 and binary64 formats, so that [+], [-], [*], [/] and [sqrt]
      round the way the hardware does.
    - A 256-bit register is the list of its lanes, lane 0 first.
    - A pointer that walks through a buffer is the list of the elements
      still in front of it; an output buffer is the list written so far.

    The first half of the file holds the model, the second half the
    properties proved of it. *)

From Stdlib Require Import ZArith List Bool Lia QArith Qround.
From Stdlib Require Import Floats.SpecFloat.
Import ListNotations.
Local Open Scope Z_scope.

(* ================================================================== *)
(** ** Fixed-width integers *)

Module Int.

(** Conversion to [unsigned int]. *)
Definition to_uint32 (x : Z) : Z := x mod 2 ^ 32.

(** Conversion to [int], two's complement. *)
Definition to_int32 (x : Z) : Z := (x + 2 ^ 31) mod 2 ^ 32 - 2 ^ 31.

(** Conversion to [short], two's complement. *)
Definition to_int16 (x : Z) : Z := (x + 2 ^ 15) mod 2 ^ 16 - 2 ^ 15.

(** Signed saturation to 16 bits. *)
Definition sat_int16 (x : Z) : Z :=
  if x <? -32768 then -32768 else if 32767 <? x then 32767 else x.

(** Arithmetic on [int]. *)
Definition add (x y : Z) : Z := to_int32 (x + y).
Definition mul (x y : Z) : Z := to_int32 (x * y).

Definition is_int16 (x : Z) : Prop := -32768 <= x <= 32767.
Definition is_int32 (x : Z) : Prop := - 2 ^ 31 <= x < 2 ^ 31.

End Int.

(* ================================================================== *)
(** ** The integer intrinsics the kernels use *)

Module Avx.

(** Two registers combined lane by lane. *)
Definition lanewise {A B C} (f : A -> B -> C) (a : list A) (b : list B) : list C :=
  map (fun p => f (fst p) (snd p)) (combine a b).

(** [lanes] consecutive elements read at a pointer. *)
Definition loadu {A} (d : A) (lanes : nat) (p : list A) : list A :=
  map (fun k => nth k p d) (seq 0 lanes).

Definition _mm256_setzero_si256 (lanes : nat) : list Z := repeat 0 lanes.
Definition _mm256_loadu_si256 (lanes : nat) (p : list Z) : list Z := loadu 0 lanes p.

(** Sixteen lanes of 16 bits. *)
Definition _mm256_adds_epi16 : list Z -> list Z -> list Z :=
  lanewise (fun x y => Int.sat_int16 (x + y)).
Definition _mm256_add_epi16 : list Z -> list Z -> list Z :=
  lanewise (fun x y => Int.to_int16 (x + y)).
Definition _mm256_mullo_epi16 : list Z -> list Z -> list Z :=
  lanewise (fun x y => Int.to_int16 (x * y)).

(** Eight lanes of 32 bits, each kept as its unsigned value. *)
Definition _mm256_set1_epi32 (x : Z) : list Z := repeat (Int.to_uint32 x) 8.
Definition _mm256_set_epi32 (e7 e6 e5 e4 e3 e2 e1 e0 : Z) : list Z :=
  map Int.to_uint32 [e0; e1; e2; e3; e4; e5; e6; e7].
Definition _mm256_add_epi32 : list Z -> list Z -> list Z :=
  lanewise (fun x y => Int.to_uint32 (x + y)).
Definition _mm256_srli_epi32 (a : list Z) (imm8 : Z) : list Z :=
  map (fun x => Z.shiftr x imm8) a.
(** The gather reads [base] at the lanes of [vindex] taken as signed. *)
Definition _mm256_i32gather_epi32 (base : list Z) (vindex : list Z) : list Z :=
  map (fun i => nth (Z.to_nat (Int.to_int32 i)) base 0) vindex.
Definition _mm256_extract_epi32 (a : list Z) (index : nat) : Z :=
  Int.to_int32 (nth index a 0).

End Avx.

Import Avx.

(* ================================================================== *)
(** ** Accumulation of 16-bit vectors *)

(** The sixteen stored lanes added into an [int], in lane order. *)
Definition hsum16 (tempBuffer : list Z) : Z :=
  let returnValue := nth 0 tempBuffer 0 in
  let returnValue := Int.add returnValue (nth 1 tempBuffer 0) in
  let returnValue := Int.add returnValue (nth 2 tempBuffer 0) in
  let returnValue := Int.add returnValue (nth 3 tempBuffer 0) in
  let returnValue := Int.add returnValue (nth 4 tempBuffer 0) in
  let returnValue := Int.add returnValue (nth 5 tempBuffer 0) in
  let returnValue := Int.add returnValue (nth 6 tempBuffer 0) in
  let returnValue := Int.add returnValue (nth 7 tempBuffer 0) in
  let returnValue := Int.add returnValue (nth 8 tempBuffer 0) in
  let returnValue := Int.add returnValue (nth 9 tempBuffer 0) in
  let returnValue := Int.add returnValue (nth 10 tempBuffer 0) in
  let returnValue := Int.add returnValue (nth 11 tempBuffer 0) in
  let returnValue := Int.add returnValue (nth 12 tempBuffer 0) in
  let returnValue := Int.add returnValue (nth 13 tempBuffer 0) in
  let returnValue := Int.add returnValue (nth 14 tempBuffer 0) in
  Int.add returnValue (nth 15 tempBuffer 0).

(** [avx_accumulate_short], the loop over whole registers. *)
Fixpoint accumulate_short_batches (n : nat) (aPtr accumulator : list Z)
  : list Z * list Z :=
  match n with
  | O => (aPtr, accumulator)
  | S n' =>
      let aVal := _mm256_loadu_si256 16 aPtr in
      let accumulator := _mm256_adds_epi16 accumulator aVal in
      accumulate_short_batches n' (skipn 16 aPtr) accumulator
  end.

(** [avx_accumulate_short], the loop over the leftover elements. *)
Fixpoint accumulate_short_rest (n : nat) (aPtr : list Z) (returnValue : Z) : Z :=
  match n with
  | O => returnValue
  | S n' => accumulate_short_rest n' (tl aPtr) (Int.add returnValue (hd 0 aPtr))
  end.

(** The C function returns its [int] converted to [double]; the conversion
    is exact and the model keeps the integer. *)
Definition avx_accumulate_short (inputBuffer : list Z) (num_points : Z) : Z :=
  let sixteenthPoints := num_points / 16 in
  let '(aPtr, accumulator) :=
    accumulate_short_batches (Z.to_nat sixteenthPoints) inputBuffer
      (_mm256_setzero_si256 16) in
  let returnValue := hsum16 accumulator in
  accumulate_short_rest (Z.to_nat (num_points - sixteenthPoints * 16)) aPtr returnValue.

(** [avx_accumulate_short_unsat], the loop over whole registers. *)
Fixpoint accumulate_short_unsat_batches (n : nat) (aPtr accumulator : list Z)
  : list Z * list Z :=
  match n with
  | O => (aPtr, accumulator)
  | S n' =>
      let aVal := _mm256_loadu_si256 16 aPtr in
      let accumulator := _mm256_adds_epi16 accumulator aVal in
      accumulate_short_unsat_batches n' (skipn 16 aPtr) accumulator
  end.

(** [avx_accumulate_short_unsat], the loop over the leftover elements. *)
Fixpoint accumulate_short_unsat_rest (n : nat) (aPtr : list Z) (returnValue : Z) : Z :=
  match n with
  | O => returnValue
  | S n' => accumulate_short_unsat_rest n' (tl aPtr) (Int.add returnValue (hd 0 aPtr))
  end.

Definition avx_accumulate_short_unsat (inputBuffer : list Z) (num_points : Z) : Z :=
  let sixteenthPoints := num_points / 16 in
  let '(aPtr, accumulator) :=
    accumulate_short_unsat_batches (Z.to_nat sixteenthPoints) inputBuffer
      (_mm256_setzero_si256 16) in
  let returnValue := hsum16 accumulator in
  accumulate_short_unsat_rest (Z.to_nat (num_points - sixteenthPoints * 16)) aPtr returnValue.

(** The accumulation that the comment above [avx_accumulate_short_unsat]
    describes: lane additions that roll over instead of clamping. *)
Fixpoint accumulate_short_rollover_batches (n : nat) (aPtr accumulator : list Z)
  : list Z * list Z :=
  match n with
  | O => (aPtr, accumulator)
  | S n' =>
      let aVal := _mm256_loadu_si256 16 aPtr in
      let accumulator := _mm256_add_epi16 accumulator aVal in
      accumulate_short_rollover_batches n' (skipn 16 aPtr) accumulator
  end.

Definition accumulate_short_rollover (inputBuffer : list Z) (num_points : Z) : Z :=
  let sixteenthPoints := num_points / 16 in
  let '(aPtr, accumulator) :=
    accumulate_short_rollover_batches (Z.to_nat sixteenthPoints) inputBuffer
      (_mm256_setzero_si256 16) in
  let returnValue := hsum16 accumulator in
  accumulate_short_unsat_rest (Z.to_nat (num_points - sixteenthPoints * 16)) aPtr returnValue.

(** A running sum held in one [short] that rolls over. *)
Definition running_sum_rollover (inputBuffer : list Z) : Z :=
  fold_left (fun s x => Int.to_int16 (s + x)) inputBuffer 0.

(** Thirty-two samples of which lane 0 receives 32767 and then 1. *)
Definition rollover_input : list Z :=
  32767 :: repeat 0 15 ++ 1 :: repeat 0 15.

(* ================================================================== *)
(** ** Multiply and accumulate, 16-bit *)

(** [avx2_mul_and_acc_short], the loop over whole registers. *)
Fixpoint mul_and_acc_short_batches (n : nat) (aPtr bPtr accumulator : list Z)
  : list Z * list Z * list Z :=
  match n with
  | O => (aPtr, bPtr, accumulator)
  | S n' =>
      let aVal := _mm256_loadu_si256 16 aPtr in
      let bVal := _mm256_loadu_si256 16 bPtr in
      let cVal := _mm256_mullo_epi16 aVal bVal in
      let accumulator := _mm256_adds_epi16 accumulator cVal in
      mul_and_acc_short_batches n' (skipn 16 aPtr) (skipn 16 bPtr) accumulator
  end.

(** [avx2_mul_and_acc_short], the leftover loop: the two [short]s are
    promoted to [int] before they are multiplied. *)
Fixpoint mul_and_acc_short_rest (n : nat) (aPtr bPtr : list Z) (returnValue : Z) : Z :=
  match n with
  | O => returnValue
  | S n' =>
      mul_and_acc_short_rest n' (tl aPtr) (tl bPtr)
        (Int.add returnValue (Int.mul (hd 0 aPtr) (hd 0 bPtr)))
  end.

Definition avx2_mul_and_acc_short (aVector bVector : list Z) (num_points : Z) : Z :=
  let sixteenthPoints := num_points / 16 in
  let '(aPtr, bPtr, accumulator) :=
    mul_and_acc_short_batches (Z.to_nat sixteenthPoints) aVector bVector
      (_mm256_setzero_si256 16) in
  let returnValue := hsum16 accumulator in
  mul_and_acc_short_rest (Z.to_nat (num_points - sixteenthPoints * 16))
    aPtr bPtr returnValue.

(** The scalar references the kernel is measured against. *)

(** The sum of the products, in the integers. *)
Fixpoint dot (a b : list Z) : Z :=
  match a, b with
  | x :: a', y :: b' => x * y + dot a' b'
  | _, _ => 0
  end.

(** One 16-bit running sum that saturates, fed the products in order. *)
Definition dot_sat16 (a b : list Z) : Z :=
  fold_left (fun s p => Int.sat_int16 (s + fst p * snd p)) (combine a b) 0.

(** The sum of a register's lanes. *)
Definition sum_list (l : list Z) : Z := fold_right Z.add 0 l.

(** Every product of two elements that meet is at most [M] in size. *)
Definition products_within (M : Z) (a b : list Z) : Prop :=
  Forall (fun p => Z.abs (fst p * snd p) <= M) (combine a b).

(* ================================================================== *)
(** ** The carrier oscillator on integer tables *)

(** The phase accumulator and its step reach the two generators through
    the same two conversions from [double]; both functions below take the
    converted values. *)

(** [avx2_nco_si32], the loop over whole registers. *)
Fixpoint nco_si32_batches (n : nat) (lut : list Z)
  (carr_phase_base carr_step_offset : list Z) (sig_nco : list Z)
  : list Z * list Z :=
  match n with
  | O => (carr_phase_base, sig_nco)
  | S n' =>
      let carr_idx := _mm256_srli_epi32 carr_phase_base 24 in
      let nco := _mm256_i32gather_epi32 lut carr_idx in
      let carr_phase_base := _mm256_add_epi32 carr_phase_base carr_step_offset in
      nco_si32_batches n' lut carr_phase_base carr_step_offset (sig_nco ++ nco)
  end.

(** The per-sample loop, shared in shape by both generators. *)
Fixpoint nco_si32_rest (n : nat) (lut : list Z)
  (nom_carr_phase_base nom_carr_step : Z) (sig_nco : list Z) : list Z :=
  match n with
  | O => sig_nco
  | S n' =>
      let nom_carr_idx := Z.land (Z.shiftr nom_carr_phase_base 24) 255 in
      let sample := nth (Z.to_nat nom_carr_idx) lut 0 in
      let nom_carr_phase_base := Int.to_uint32 (nom_carr_phase_base + nom_carr_step) in
      nco_si32_rest n' lut nom_carr_phase_base nom_carr_step (sig_nco ++ [sample])
  end.

Definition avx2_nco_si32_fixed (lut : list Z) (blk_size : Z)
  (nom_carr_phase_base nom_carr_step : Z) : list Z :=
  let eight_points := Int.to_uint32 (Z.quot blk_size 8) in
  let carr_phase_base := _mm256_set1_epi32 nom_carr_phase_base in
  let carr_step_base :=
    _mm256_set_epi32 (7 * nom_carr_step) (6 * nom_carr_step) (5 * nom_carr_step)
                     (4 * nom_carr_step) (3 * nom_carr_step) (2 * nom_carr_step)
                     (1 * nom_carr_step) (0 * nom_carr_step) in
  let carr_step_offset := _mm256_set1_epi32 (8 * nom_carr_step) in
  let carr_phase_base := _mm256_add_epi32 carr_phase_base carr_step_base in
  let '(carr_phase_base, sig_nco) :=
    nco_si32_batches (Z.to_nat eight_points) lut carr_phase_base carr_step_offset [] in
  let inda := Int.to_int32 (eight_points * 8) in
  let nom_carr_phase_base := Int.to_uint32 (_mm256_extract_epi32 carr_phase_base 7) in
  nco_si32_rest (Z.to_nat (blk_size - inda)) lut nom_carr_phase_base nom_carr_step sig_nco.

(** [avx2_nom_nco_si32], one sample a turn. *)
Fixpoint nom_nco_si32_loop (n : nat) (lut : list Z)
  (carrPhaseBase carrStep : Z) (sig_nco : list Z) : list Z :=
  match n with
  | O => sig_nco
  | S n' =>
      let carrIndex := Z.land (Z.shiftr carrPhaseBase 24) 255 in
      let sample := nth (Z.to_nat carrIndex) lut 0 in
      let carrPhaseBase := Int.to_uint32 (carrPhaseBase + carrStep) in
      nom_nco_si32_loop n' lut carrPhaseBase carrStep (sig_nco ++ [sample])
  end.

Definition avx2_nom_nco_si32_fixed (lut : list Z) (blk_size : Z)
  (carrPhaseBase carrStep : Z) : list Z :=
  nom_nco_si32_loop (Z.to_nat blk_size) lut carrPhaseBase carrStep [].

(* ================================================================== *)
(** ** Binary floating point *)

(** What does not depend on the format. *)
Module IEEE.


(** Zero or finite: neither NaN nor an infinity. *)
Definition is_finite (x : spec_float) : bool :=
  match x with S754_zero _ | S754_finite _ _ _ => true | _ => false end.

Definition is_zero (x : spec_float) : bool :=
  match x with S754_zero _ => true | _ => false end.

(** The signed mantissa of a finite number. *)
Definition signed_mantissa (s : bool) (m : positive) : Z := cond_Zopp s (Zpos m).

(** The number a float stands for, as the fraction [num / den]; zero for
    NaN and the infinities. *)
Definition num (x : spec_float) : Z :=
  match x with
  | S754_finite s m e => signed_mantissa s m * 2 ^ Z.max e 0
  | _ => 0
  end.

Definition den (x : spec_float) : positive :=
  match x with
  | S754_finite s m e => Z.to_pos (2 ^ Z.max (- e) 0)
  | _ => 1%positive
  end.

Definition SF2Q (x : spec_float) : Q := Qmake (num x) (den x).

(** Rounding toward zero to an integer, the first step of every C
    conversion from a floating type to an integer type. *)
Definition trunc (x : spec_float) : Z :=
  match x with
  | S754_finite s m e => cond_Zopp s (Z.shiftl (Zpos m) e)
  | _ => 0
  end.

(** Conversions to C integer types.  C defines them only when the
    truncated value fits the type; outside, the model does what the
    x86-64 conversion instructions do: the 32-bit one yields [INT_MIN],
    the 64-bit one [LONG_MIN].  The conversion to [unsigned int] goes
    through the 64-bit instruction and keeps the low 32 bits of its
    result, which are zero where the value does not fit 64 bits. *)
Definition to_int32 (x : spec_float) : Z :=
  if is_finite x && (- 2 ^ 31 <=? trunc x) && (trunc x <? 2 ^ 31)
  then trunc x else - 2 ^ 31.

Definition to_int64 (x : spec_float) : Z :=
  if is_finite x && (- 2 ^ 63 <=? trunc x) && (trunc x <? 2 ^ 63)
  then trunc x else - 2 ^ 63.

Definition to_int16 (x : spec_float) : Z := Int.to_int16 (to_int32 x).

Definition to_uint32 (x : spec_float) : Z := Int.to_uint32 (to_int64 x).

(** The least integer not below a finite number. *)
Definition Zceil (x : spec_float) : Z :=
  match x with
  | S754_finite s m e => - Z.shiftl (- signed_mantissa s m) e
  | _ => 0
  end.

(** A finite number whose exponent is not below the least one of the
    format; every result of an operation is so. *)
Definition exponent_ok (prec emax : Z) (x : spec_float) : Prop :=
  match x with S754_finite _ _ e => emin prec emax <= e | _ => True end.

End IEEE.

(** [double]. *)
Module Double.

Definition prec : Z := 53.
Definition emax : Z := 1024.

Definition add := SFadd prec emax.
Definition sub := SFsub prec emax.
Definition mul := SFmul prec emax.
Definition div := SFdiv prec emax.
Definition sqrt := SFsqrt prec emax.
Definition opp := SFopp.
Definition ltb := SFltb.
Definition eqb := SFeqb.

(** The number in canonical form: what a [double] in memory always is. *)
Definition valid (x : spec_float) : bool := valid_binary prec emax x.

(** Conversion from a C integer; exact below [2^53]. *)
Definition of_Z (z : Z) : spec_float := binary_normalize prec emax z 0 false.

(** The decimal constant [n / d] for integers both below [2^53]: the
    correctly rounded quotient is the correctly rounded constant. *)
Definition decimal (n d : Z) : spec_float := div (of_Z n) (of_Z d).

Definition zero : spec_float := S754_zero false.
Definition one : spec_float := of_Z 1.
Definition half : spec_float := decimal 1 2.

(** [M_PI] of [math.h], 0x1.921fb54442d18p+1. *)
Definition M_PI : spec_float := S754_finite false 7074237752028440 (-51).

(** [ceil] of [math.h]. *)
Definition ceil (x : spec_float) : spec_float :=
  match x with
  | S754_finite s _ _ =>
      if IEEE.Zceil x =? 0 then S754_zero s else of_Z (IEEE.Zceil x)
  | _ => x
  end.

End Double.

Declare Scope double_scope.
Delimit Scope double_scope with D.
Infix "+" := Double.add : double_scope.
Infix "-" := Double.sub : double_scope.
Infix "*" := Double.mul : double_scope.
Infix "/" := Double.div : double_scope.
Infix "<?" := Double.ltb : double_scope.
Notation "- x" := (Double.opp x) : double_scope.

(** [float]. *)
Module Single.

Definition prec : Z := 24.
Definition emax : Z := 128.

Definition add := SFadd prec emax.
Definition mul := SFmul prec emax.
Definition of_Z (z : Z) : spec_float := binary_normalize prec emax z 0 false.
Definition zero : spec_float := S754_zero false.

End Single.

Declare Scope single_scope.
Delimit Scope single_scope with F.
Infix "+" := Single.add : single_scope.
Infix "*" := Single.mul : single_scope.

(* ================================================================== *)
(** ** The carrier oscillator, from its [double] arguments *)

Definition nco_step (carr_freq samp_freq : spec_float) : Z :=
  IEEE.to_uint32
    (carr_freq * (Double.of_Z 4294967296 / samp_freq) + Double.half)%D.

Definition nco_phase_base (rem_carr_phase : spec_float) : Z :=
  IEEE.to_uint32
    (rem_carr_phase * (Double.of_Z 4294967296 / (Double.of_Z 2 * Double.M_PI))
     + Double.half)%D.

Definition avx2_nco_si32 (lut : list Z) (blk_size : Z)
  (rem_carr_phase carr_freq samp_freq : spec_float) : list Z :=
  let nom_carr_step := nco_step carr_freq samp_freq in
  let nom_carr_phase_base := nco_phase_base rem_carr_phase in
  avx2_nco_si32_fixed lut blk_size nom_carr_phase_base nom_carr_step.

Definition avx2_nom_nco_si32 (lut : list Z) (blk_size : Z)
  (rem_carr_phase carr_freq samp_freq : spec_float) : list Z :=
  let carrPhaseBase := nco_phase_base rem_carr_phase in
  let carrStep := nco_step carr_freq samp_freq in
  avx2_nom_nco_si32_fixed lut blk_size carrPhaseBase carrStep.

(** A table of 256 entries that holds its own indices. *)
Definition ramp_lut : list Z := map Z.of_nat (seq 0 256).

(* ================================================================== *)
(** ** Multiply and accumulate, 32-bit floating point *)

Definition _mm256_setzero_ps : list spec_float := repeat Single.zero 8.
Definition _mm256_loadu_ps (p : list spec_float) : list spec_float :=
  loadu Single.zero 8 p.
Definition _mm256_mul_ps : list spec_float -> list spec_float -> list spec_float :=
  lanewise Single.mul.
Definition _mm256_add_ps : list spec_float -> list spec_float -> list spec_float :=
  lanewise Single.add.

(** The eight stored lanes added into a [float], in lane order. *)
Definition hsum8_ps (tempBuffer : list spec_float) : spec_float :=
  let t k := nth k tempBuffer Single.zero in
  let returnValue := t 0%nat in
  let returnValue := (returnValue + t 1%nat)%F in
  let returnValue := (returnValue + t 2%nat)%F in
  let returnValue := (returnValue + t 3%nat)%F in
  let returnValue := (returnValue + t 4%nat)%F in
  let returnValue := (returnValue + t 5%nat)%F in
  let returnValue := (returnValue + t 6%nat)%F in
  (returnValue + t 7%nat)%F.

Fixpoint mul_and_acc_fl32_batches (n : nat) (aPtr bPtr accumulator : list spec_float)
  : list spec_float * list spec_float * list spec_float :=
  match n with
  | O => (aPtr, bPtr, accumulator)
  | S n' =>
      let aVal := _mm256_loadu_ps aPtr in
      let bVal := _mm256_loadu_ps bPtr in
      let cVal := _mm256_mul_ps aVal bVal in
      let accumulator := _mm256_add_ps accumulator cVal in
      mul_and_acc_fl32_batches n' (skipn 8 aPtr) (skipn 8 bPtr) accumulator
  end.

Fixpoint mul_and_acc_fl32_rest (n : nat) (aPtr bPtr : list spec_float)
  (returnValue : spec_float) : spec_float :=
  match n with
  | O => returnValue
  | S n' =>
      mul_and_acc_fl32_rest n' (tl aPtr) (tl bPtr)
        (returnValue + hd Single.zero aPtr * hd Single.zero bPtr)%F
  end.

Definition avx2_mul_and_acc_fl32 (aVector bVector : list spec_float)
  (num_points : Z) : spec_float :=
  let eigthPoints := num_points / 8 in
  let '(aPtr, bPtr, accumulator) :=
    mul_and_acc_fl32_batches (Z.to_nat eigthPoints) aVector bVector
      _mm256_setzero_ps in
  let returnValue := hsum8_ps accumulator in
  mul_and_acc_fl32_rest (Z.to_nat (num_points - eigthPoints * 8))
    aPtr bPtr returnValue.

(** The scalar reference: one [float] running sum, fed the products in
    order. *)
Definition dot_fl32 (a b : list spec_float) : spec_float :=
  fold_left (fun s p => (s + fst p * snd p)%F) (combine a b) Single.zero.

(* ================================================================== *)
(** ** The code replica generator *)

(** A table read [*(table + idx)].  C leaves a read outside the table
    undefined; the model reads the default there. *)
Definition peek {A} (d : A) (table : list A) (idx : Z) : A :=
  if idx <? 0 then d else nth (Z.to_nat idx) table d.

(** The sample indices [0 .. n-1] of a [for] loop. *)
Definition indices (n : Z) : list Z := map Z.of_nat (seq 0 (Z.to_nat n)).

(** [avx2_nom_code_si32]: the three table indices of sample [inda]. *)
Definition nom_code_indices (inda : Z) (codePhaseStep rem_code_phase : spec_float)
  : Z * Z * Z :=
  let earlyLateSpc := Double.half in
  let baseCode := (Double.of_Z inda * codePhaseStep + rem_code_phase)%D in
  let pCodeIdx :=
    if (Double.of_Z (IEEE.to_int32 baseCode) <? baseCode)%D
    then IEEE.to_int32 (baseCode + Double.one)%D
    else IEEE.to_int32 baseCode in
  let eCodeIdx :=
    if (Double.of_Z (IEEE.to_int32 (baseCode - earlyLateSpc)%D)
        <? baseCode - earlyLateSpc)%D
    then IEEE.to_int32 (baseCode - earlyLateSpc + Double.one)%D
    else IEEE.to_int32 (baseCode - earlyLateSpc)%D in
  let lCodeIdx :=
    if (Double.of_Z (IEEE.to_int32 (baseCode + earlyLateSpc)%D)
        <? baseCode + earlyLateSpc)%D
    then IEEE.to_int32 (baseCode + earlyLateSpc + Double.one)%D
    else IEEE.to_int32 (baseCode + earlyLateSpc)%D in
  (eCodeIdx, pCodeIdx, lCodeIdx).

(** [avx2_nom_code_si32]: the early, prompt and late replicas. *)
Definition avx2_nom_code_si32 (cacode : list Z) (blk_size : Z)
  (rem_code_phase code_freq samp_freq : spec_float)
  : list Z * list Z * list Z :=
  let codePhaseStep := (code_freq / samp_freq)%D in
  let idx inda := nom_code_indices inda codePhaseStep rem_code_phase in
  (map (fun inda => peek 0 cacode (fst (fst (idx inda)))) (indices blk_size),
   map (fun inda => peek 0 cacode (snd (fst (idx inda)))) (indices blk_size),
   map (fun inda => peek 0 cacode (snd (idx inda))) (indices blk_size)).

(** The rounding that both generators spell out three times, for a cast
    [cast] to the integer type the source names: [(T)x < x ? x + 1 : x],
    stored into an [int]. *)
Definition round_up (cast : spec_float -> Z) (x : spec_float) : Z :=
  if (Double.of_Z (cast x) <? x)%D
  then IEEE.to_int32 (x + Double.one)%D
  else IEEE.to_int32 x.

(** The largest [double] below 1. *)
Definition below_one : spec_float := S754_finite false 9007199254740991 (-53).

(* ================================================================== *)
(** ** The tracking loop *)

(** The macros [gps_sin] and [gps_cos].  The driver applies them to a
    [double] that holds an [int]; the comparisons are exact and the model
    takes the integer. *)
Definition gps_sin (x : Z) : Z :=
  if (x >? 31416) || ((x <? 0) && (x >? -31416)) then -1 else 1.

Definition gps_cos (x : Z) : Z :=
  if ((x >? 15708) && (x <? 47124)) || ((x <? -15708) && (x >? -47124))
  then -1 else 1.

(** [const double pi = 3.1415926535]. *)
Definition pi : spec_float := Double.decimal 31415926535 10000000000.

(** [codeFreq] and [codeFreqBasis] are both set to the literal
    1023002.79220779 and only the first is assigned again. *)
Definition init_codeFreq : spec_float := Double.decimal 102300279220779 100000000.
Definition codeFreqBasis : spec_float := Double.decimal 102300279220779 100000000.

(** An array store [a[i] = v]; outside the array C leaves it undefined
    and the model leaves the array as it is. *)
Fixpoint store_nat {A} (a : list A) (i : nat) (v : A) : list A :=
  match a, i with
  | [], _ => []
  | _ :: a', O => v :: a'
  | x :: a', S i' => x :: store_nat a' i' v
  end.

Definition store {A} (a : list A) (i : Z) (v : A) : list A :=
  if i <? 0 then a else store_nat a (Z.to_nat i) v.

(** The raw sample file: its bytes (as [char]) and the read position. *)
Record File := { content : list Z; pos : Z }.

(** [fread(buf, 1, count, f)]: as many bytes as there are, at most
    [count], land at the front of the buffer; the number read is
    returned. *)
Definition fread (buf : list Z) (count : Z) (f : File) : Z * list Z * File :=
  let got := firstn (Z.to_nat count) (skipn (Z.to_nat (pos f)) (content f)) in
  let n := Z.of_nat (length got) in
  (n, got ++ skipn (length got) buf, {| content := content f; pos := pos f + n |}).

Definition ftell (f : File) : Z := pos f.

(** [fseek(f, offset, SEEK_SET)] on the file just opened: a negative
    offset is refused and the position stays at the start. *)
Definition fseek_set (offset : Z) : Z := if offset <? 0 then 0 else offset.

(** The scalars and the table read from the [data/] files. *)
Record Config := {
  caCode : list spec_float;
  init_blksize : Z;
  init_remCodePhase : spec_float;
  earlyLateSpc : spec_float;
  samplingFreq : spec_float;
  init_remCarrPhase : spec_float;
  init_carrFreq : spec_float;
  seekvalue : spec_float;
  tau1carr : spec_float;
  tau2carr : spec_float;
  PDIcarr : spec_float;
  carrFreqBasis : spec_float;
  tau1code : spec_float;
  tau2code : spec_float;
  PDIcode : spec_float;
  codeLength : spec_float;
  codePeriods : Z;
  dataAdaptCoeff : Z;
  vsmInterval : Z;
  accInt : spec_float
}.

(** What one epoch stores at index [loopcount] of the thirteen output
    arrays. *)
Record ResultRecord := {
  carrFreq_output : spec_float;
  codeFreq_output : spec_float;
  absoluteSample_output : spec_float;
  codeError_output : spec_float;
  codeNco_output : spec_float;
  carrError_output : spec_float;
  carrNco_output : spec_float;
  I_E_output : spec_float;
  I_P_output : spec_float;
  I_L_output : spec_float;
  Q_E_output : spec_float;
  Q_P_output : spec_float;
  Q_L_output : spec_float
}.

(** An entry of the output arrays as [calloc] leaves it. *)
Definition blank_record : ResultRecord :=
  {| carrFreq_output := S754_zero false;
     codeFreq_output := S754_zero false;
     absoluteSample_output := S754_zero false;
     codeError_output := S754_zero false;
     codeNco_output := S754_zero false;
     carrError_output := S754_zero false;
     carrNco_output := S754_zero false;
     I_E_output := S754_zero false;
     I_P_output := S754_zero false;
     I_L_output := S754_zero false;
     Q_E_output := S754_zero false;
     Q_P_output := S754_zero false;
     Q_L_output := S754_zero false |}.

(** The variables of the carrier-to-noise estimator. *)
Record Vsm := {
  vsmCount : Z;
  pwrSum : spec_float;
  pwrSqrSum : spec_float;
  CNo : spec_float;
  VSMIndex : list spec_float;
  VSMValue : list spec_float
}.

(** The variables of [main] that live from one epoch to the next.  The
    output arrays are written at index [loopcount], which counts up from
    zero: [outputs] is the list of the records stored so far. *)
Record State := {
  remCodePhase : spec_float;
  remCarrPhase : spec_float;
  carrFreq : spec_float;
  codeFreq : spec_float;
  oldCarrNco : spec_float;
  oldCarrError : spec_float;
  oldCodeNco : spec_float;
  oldCodeError : spec_float;
  vsm : Vsm;
  rawSignal : list Z;
  fpdata : File;
  outputs : list ResultRecord
}.

(** The six vectors the per-sample loop fills. *)
Record Replicas := {
  mixedcarrSin_vec : list Z;
  mixedcarrCos_vec : list Z;
  eCode_vec : list Z;
  lCode_vec : list Z;
  pCode_vec : list Z
}.


(** The advance of the code phase at the end of an epoch. *)
Definition advance_remCodePhase (remCodePhase codePhaseStep : spec_float)
  (blksize : Z) : spec_float :=
  (remCodePhase + Double.of_Z blksize * codePhaseStep - Double.of_Z 1023)%D.

(** The advance the specification describes, with the configured length. *)
Definition advance_remCodePhase_spec (codeLength remCodePhase codePhaseStep : spec_float)
  (blksize : Z) : spec_float :=
  (remCodePhase + Double.of_Z blksize * codePhaseStep - codeLength)%D.

(** The block length of an epoch. *)
Definition block_size (codeLength remCodePhase codePhaseStep : spec_float) : Z :=
  IEEE.to_int32 (Double.ceil ((codeLength - remCodePhase) / codePhaseStep)%D).

Section TrackingLoop.

(** [atan] and [log10] of the C library, and the correlation kernel of
    [avx512_intrinsics.h], which is not part of the sources at hand. *)
Variable atan : spec_float -> spec_float.
Variable log10 : spec_float -> spec_float.
Variable avx512_mul_and_acc_16i : list Z -> list Z -> Z -> spec_float.

Variable cfg : Config.

(** The body of the loop over the samples of a block, for sample [i]. *)
Definition carrier_sample (carrFreq remCarrPhase : spec_float) (rawSignal : list Z)
  (i : Z) : Z * Z :=
  let trigarg :=
    (Double.of_Z 2 * pi * carrFreq * (Double.of_Z i / samplingFreq cfg)
     + remCarrPhase)%D in
  let angle := Z.rem (IEEE.to_int32 (trigarg * Double.of_Z 10000)%D) 62832 in
  let carrCos := Int.to_int16 (8 * gps_cos angle) in
  let carrSin := Int.to_int16 (8 * gps_sin angle) in
  let mixedcarrSin := Int.to_int16 (carrSin * nth (Z.to_nat i) rawSignal 0) in
  let mixedcarrCos := Int.to_int16 (carrCos * nth (Z.to_nat i) rawSignal 0) in
  (mixedcarrSin, mixedcarrCos).

Definition code_sample (codePhaseStep remCodePhase : spec_float) (i : Z)
  : Z * Z * Z :=
  let baseCode := (Double.of_Z i * codePhaseStep + remCodePhase)%D in
  let pCode :=
    if (Double.of_Z (IEEE.to_int16 baseCode) <? baseCode)%D
    then IEEE.to_int32 (baseCode + Double.one)%D
    else IEEE.to_int32 baseCode in
  let eCode :=
    if (Double.of_Z (IEEE.to_int16 (baseCode - earlyLateSpc cfg)%D)
        <? baseCode - earlyLateSpc cfg)%D
    then IEEE.to_int32 (baseCode - earlyLateSpc cfg + Double.one)%D
    else IEEE.to_int32 (baseCode - earlyLateSpc cfg)%D in
  let lCode :=
    if (Double.of_Z (IEEE.to_int16 (baseCode + earlyLateSpc cfg)%D)
        <? baseCode + earlyLateSpc cfg)%D
    then IEEE.to_int32 (baseCode + earlyLateSpc cfg + Double.one)%D
    else IEEE.to_int32 (baseCode + earlyLateSpc cfg)%D in
  (pCode, eCode, lCode).

Definition sample_loop (blksize : Z) (codePhaseStep : spec_float)
  (carrFreq remCarrPhase remCodePhase : spec_float) (rawSignal : list Z)
  : Replicas :=
  let carr i := carrier_sample carrFreq remCarrPhase rawSignal i in
  let code i := code_sample codePhaseStep remCodePhase i in
  let table idx := IEEE.to_int16 (peek Double.zero (caCode cfg) idx) in
  {| mixedcarrSin_vec := map (fun i => fst (carr i)) (indices blksize);
     mixedcarrCos_vec := map (fun i => snd (carr i)) (indices blksize);
     pCode_vec := map (fun i => table (fst (fst (code i)))) (indices blksize);
     eCode_vec := map (fun i => table (snd (fst (code i)))) (indices blksize);
     lCode_vec := map (fun i => table (snd (code i))) (indices blksize) |}.

(** "Compute the VSM C/No". *)
Definition vsm_step (loopcount : Z) (I_P Q_P : spec_float) (v : Vsm) : Vsm :=
  let pwr := (I_P * I_P + Q_P * Q_P)%D in
  let pwrSum := (pwrSum v + pwr)%D in
  let pwrSqrSum := (pwrSqrSum v + pwr * pwr)%D in
  let vsmCount := Int.add (vsmCount v) 1 in
  if vsmCount =? vsmInterval cfg then
    let pwrMean := (pwrSum / Double.of_Z (vsmInterval cfg))%D in
    let pwrVar := (pwrSqrSum / Double.of_Z (vsmInterval cfg) - pwrMean * pwrMean)%D in
    let pwrAvgSqr := (pwrMean * pwrMean - pwrVar)%D in
    let pwrAvgSqr := if (Double.zero <? pwrAvgSqr)%D then pwrAvgSqr else (- pwrAvgSqr)%D in
    let pwrAvg := Double.sqrt pwrAvgSqr in
    let noiseVar := (Double.half * (pwrMean - pwrAvg))%D in
    let CNo := ((pwrAvg / accInt cfg) / (Double.of_Z 2 * noiseVar))%D in
    let CNo := if (Double.zero <? CNo)%D then CNo else (- CNo)%D in
    let CNo := (Double.of_Z 10 * log10 CNo)%D in
    {| vsmCount := 0;
       pwrSum := Double.zero;
       pwrSqrSum := Double.zero;
       CNo := CNo;
       VSMIndex := store (VSMIndex v) (Z.quot loopcount (vsmInterval cfg))
                     (Double.of_Z (Int.add loopcount 1));
       VSMValue := store (VSMValue v) (Z.quot loopcount (vsmInterval cfg)) CNo |}
  else
    {| vsmCount := vsmCount;
       pwrSum := pwrSum;
       pwrSqrSum := pwrSqrSum;
       CNo := CNo v;
       VSMIndex := VSMIndex v;
       VSMValue := VSMValue v |}.

(** "Implement carrier loop discriminator (phase detector)". *)
Definition carrier_discriminator (Q_P I_P : spec_float) : spec_float :=
  (atan (Q_P / I_P) / (Double.of_Z 2 * pi))%D.

(** "Implement carrier loop filter and generate NCO command". *)
Definition carrier_filter (oldCarrNco carrError oldCarrError : spec_float) : spec_float :=
  (oldCarrNco + (tau2carr cfg / tau1carr cfg) * (carrError - oldCarrError)
   + carrError * (PDIcarr cfg / tau1carr cfg))%D.

(** "Find DLL error and update code NCO". *)
Definition code_discriminator (I_E Q_E I_L Q_L : spec_float) : spec_float :=
  ((Double.sqrt (I_E * I_E + Q_E * Q_E) - Double.sqrt (I_L * I_L + Q_L * Q_L))
   / (Double.sqrt (I_E * I_E + Q_E * Q_E) + Double.sqrt (I_L * I_L + Q_L * Q_L)))%D.

(** "Implement code loop filter and generate NCO command". *)
Definition code_filter (oldCodeNco codeError oldCodeError : spec_float) : spec_float :=
  (oldCodeNco + (tau2code cfg / tau1code cfg) * (codeError - oldCodeError)
   + codeError * (PDIcode cfg / tau1code cfg))%D.

(** One turn of the loop over the code periods, as it runs on a block of
    positive size.  Where the block size is not positive the C program
    has no such turn; [epoch_defined] and [epoch_checked] below say
    when it has. *)
Definition epoch (loopcount : Z) (st : State) : State :=
  let codePhaseStep := (codeFreq st / samplingFreq cfg)%D in
  let blksize := block_size (codeLength cfg) (remCodePhase st) codePhaseStep in
  (* the count returned by [fread] is assigned to [i] and never looked at *)
  let '(i, rawSignal, fpdata) :=
    fread (rawSignal st) (Int.mul (dataAdaptCoeff cfg) blksize) (fpdata st) in
  let r := sample_loop blksize codePhaseStep (carrFreq st) (remCarrPhase st)
             (remCodePhase st) rawSignal in
  let I_E := avx512_mul_and_acc_16i (eCode_vec r) (mixedcarrSin_vec r) blksize in
  let I_L := avx512_mul_and_acc_16i (lCode_vec r) (mixedcarrSin_vec r) blksize in
  let I_P := avx512_mul_and_acc_16i (pCode_vec r) (mixedcarrSin_vec r) blksize in
  let Q_E := avx512_mul_and_acc_16i (eCode_vec r) (mixedcarrCos_vec r) blksize in
  let Q_L := avx512_mul_and_acc_16i (lCode_vec r) (mixedcarrCos_vec r) blksize in
  let Q_P := avx512_mul_and_acc_16i (pCode_vec r) (mixedcarrCos_vec r) blksize in
  let vsm := vsm_step loopcount I_P Q_P (vsm st) in
  let remCodePhase := advance_remCodePhase (remCodePhase st) codePhaseStep blksize in
  let trigarg :=
    (Double.of_Z 2 * pi * carrFreq st * (Double.of_Z blksize / samplingFreq cfg)
     + remCarrPhase st)%D in
  let remCarrPhase :=
    (trigarg - Double.of_Z 2 * pi
               * Double.of_Z (IEEE.to_int32 (trigarg / (Double.of_Z 2 * pi))))%D in
  let carrError := carrier_discriminator Q_P I_P in
  let carrNco := carrier_filter (oldCarrNco st) carrError (oldCarrError st) in
  let carrFreq := (carrFreqBasis cfg + carrNco)%D in
  let codeError := code_discriminator I_E Q_E I_L Q_L in
  let codeNco := code_filter (oldCodeNco st) codeError (oldCodeError st) in
  let codeFreq := (codeFreqBasis - codeNco)%D in
  let absoluteSample :=
    (Double.of_Z (Z.quot (ftell fpdata) (dataAdaptCoeff cfg)) - remCodePhase)%D in
  {| remCodePhase := remCodePhase;
     remCarrPhase := remCarrPhase;
     carrFreq := carrFreq;
     codeFreq := codeFreq;
     oldCarrNco := carrNco;
     oldCarrError := carrError;
     oldCodeNco := codeNco;
     oldCodeError := codeError;
     vsm := vsm;
     rawSignal := rawSignal;
     fpdata := fpdata;
     outputs := outputs st ++
       [ {| carrFreq_output := carrFreq;
            codeFreq_output := codeFreq;
            absoluteSample_output := absoluteSample;
            codeError_output := codeError;
            codeNco_output := codeNco;
            carrError_output := carrError;
            carrNco_output := carrNco;
            I_E_output := I_E;
            I_P_output := I_P;
            I_L_output := I_L;
            Q_E_output := Q_E;
            Q_P_output := Q_P;
            Q_L_output := Q_L |} ] |}.

(** The record an epoch stores: the entry of [outputs] that it adds. *)
Definition stored (st : State) (loopcount : Z) : ResultRecord :=
  nth (length (outputs st)) (outputs (epoch loopcount st)) blank_record.

(** The state before the first epoch. *)
Definition initial_state (file : list Z) : State :=
  {| remCodePhase := init_remCodePhase cfg;
     remCarrPhase := init_remCarrPhase cfg;
     carrFreq := init_carrFreq cfg;
     codeFreq := init_codeFreq;
     oldCarrNco := Double.zero;
     oldCarrError := Double.zero;
     oldCodeNco := Double.zero;
     oldCodeError := Double.zero;
     vsm := {| vsmCount := 0;
               pwrSum := Double.zero;
               pwrSqrSum := Double.zero;
               CNo := Double.zero;
               VSMIndex := repeat Double.zero
                             (Z.to_nat (Z.quot (codePeriods cfg) (vsmInterval cfg)));
               VSMValue := repeat Double.zero
                             (Z.to_nat (Z.quot (codePeriods cfg) (vsmInterval cfg))) |};
     rawSignal := repeat 0 (Z.to_nat (Int.mul (dataAdaptCoeff cfg) (init_blksize cfg)));
     fpdata := {| content := file;
                  pos := fseek_set
                           (IEEE.to_int64
                              (Double.of_Z (dataAdaptCoeff cfg) * seekvalue cfg)%D) |};
     outputs := [] |}.

(** [for (loopcount = first; loopcount < first + n; loopcount++)]. *)
Fixpoint epochs (n : nat) (loopcount : Z) (st : State) : State :=
  match n with
  | O => st
  | S n' => epochs n' (loopcount + 1) (epoch loopcount st)
  end.

Definition run (file : list Z) : State :=
  epochs (Z.to_nat (codePeriods cfg)) 0 (initial_state file).


End TrackingLoop.

(** What Annex F of the C standard fixes of [atan]: [atan(NaN)] is a NaN
    and [atan(±∞)] is [±π/2]. *)
Definition half_pi : spec_float := S754_finite false 7074237752028440 (-52).



(** What Annex F fixes of [log10] at the zeros: [log10(±0)] is [-∞]. *)
Definition log10_annex_F (log10 : spec_float -> spec_float) : Prop :=
  log10 (S754_zero false) = S754_infinity true /\
  log10 (S754_zero true) = S754_infinity true.

(** Instances of the two library functions that take the values Annex F
    fixes and are the identity elsewhere; with them the loop runs on
    concrete inputs. *)
Definition atan_F (x : spec_float) : spec_float :=
  match x with
  | S754_infinity s => if s then SFopp half_pi else half_pi
  | _ => x
  end.

Definition log10_F (x : spec_float) : spec_float :=
  match x with
  | S754_zero _ => S754_infinity true
  | S754_finite true _ _ | S754_infinity true => S754_nan
  | _ => x
  end.

(** The kernel of [avx2_intrinsics.h] in the place of the missing one. *)
Definition mul_and_acc_avx2 (a b : list Z) (n : Z) : spec_float :=
  Double.of_Z (avx2_mul_and_acc_short a b n).

(* ================================================================== *)
(** ** Concrete settings *)

(** A code period of 2046 chips at the nominal code rate, sampled at
    16.3676 MHz. *)
Definition long_codeLength : spec_float := Double.of_Z 2046.
Definition nominal_codePhaseStep : spec_float :=
  (init_codeFreq / Double.of_Z 16367600)%D.

(** A small run: a code of 1023 chips sampled 64 chips apart, so that a
    block has sixteen samples; three epochs, a window of two. *)
Definition small_cfg : Config :=
  {| caCode := map Double.of_Z (repeat 1 1100);
     init_blksize := 16;
     init_remCodePhase := Double.zero;
     earlyLateSpc := Double.half;
     samplingFreq := (init_codeFreq / Double.of_Z 64)%D;
     init_remCarrPhase := Double.zero;
     init_carrFreq := Double.of_Z 100;
     seekvalue := Double.zero;
     tau1carr := Double.of_Z 3;
     tau2carr := Double.of_Z 2;
     PDIcarr := Double.decimal 1 1000;
     carrFreqBasis := Double.of_Z 100;
     tau1code := Double.of_Z 3;
     tau2code := Double.of_Z 2;
     PDIcode := Double.decimal 1 1000;
     codeLength := Double.of_Z 1023;
     codePeriods := 3;
     dataAdaptCoeff := 1;
     vsmInterval := 2;
     accInt := Double.decimal 1 1000 |}.

(** A sample file five bytes long: shorter than the first block. *)
Definition short_file : list Z := [1; 1; 1; 1; 1].


(** Sixteen products of which the first two cancel and the ninth is 1:
    [2^24, -2^24, 0, ... ; 1, 0, ...], each multiplied by 1. *)
Definition cancel_a : list spec_float :=
  map Single.of_Z [16777216; -16777216; 0; 0; 0; 0; 0; 0; 1; 0; 0; 0; 0; 0; 0; 0].
Definition cancel_b : list spec_float := repeat (Single.of_Z 1) 16.

(* ================================================================== *)
(** ** The remaining integer kernels of [avx2_intrinsics.h] *)

(** Values written through an output pointer land at the front of the
    buffer it started at; what lies behind them is left as it was. *)
Definition write_front {A} (written buffer : list A) : list A :=
  written ++ skipn (length written) buffer.

(** Eight lanes of 32 bits: the low halves of the products, kept as
    unsigned values like the other 32-bit lanes, and the store into an
    [int] array. *)
Definition _mm256_mullo_epi32 : list Z -> list Z -> list Z :=
  lanewise (fun x y => Int.to_uint32 (x * y)).
Definition storeu_int (v : list Z) : list Z := map Int.to_int32 v.

(** [avx2_mul_short]. *)
Fixpoint mul_short_batches (n : nat) (aPtr bPtr cOut : list Z)
  : list Z * list Z * list Z :=
  match n with
  | O => (aPtr, bPtr, cOut)
  | S n' =>
      let aVal := _mm256_loadu_si256 16 aPtr in
      let bVal := _mm256_loadu_si256 16 bPtr in
      let cVal := _mm256_mullo_epi16 aVal bVal in
      mul_short_batches n' (skipn 16 aPtr) (skipn 16 bPtr) (cOut ++ cVal)
  end.

(** The leftover loop: the product of the two promoted [short]s is
    converted back to [short]. *)
Fixpoint mul_short_rest (n : nat) (aPtr bPtr cOut : list Z) : list Z :=
  match n with
  | O => cOut
  | S n' =>
      mul_short_rest n' (tl aPtr) (tl bPtr)
        (cOut ++ [Int.to_int16 (Int.mul (hd 0 aPtr) (hd 0 bPtr))])
  end.

Definition avx2_mul_short (cVector aVector bVector : list Z) (num_points : Z)
  : list Z :=
  let sixteenthPoints := num_points / 16 in
  let '(aPtr, bPtr, cOut) :=
    mul_short_batches (Z.to_nat sixteenthPoints) aVector bVector [] in
  let cOut :=
    mul_short_rest (Z.to_nat (num_points - sixteenthPoints * 16)) aPtr bPtr cOut in
  write_front cOut cVector.

(** [avx2_mul_short_store_int], which also takes and fills arrays of
    [short]. *)
Fixpoint mul_short_store_int_batches (n : nat) (aPtr bPtr cOut : list Z)
  : list Z * list Z * list Z :=
  match n with
  | O => (aPtr, bPtr, cOut)
  | S n' =>
      let aVal := _mm256_loadu_si256 16 aPtr in
      let bVal := _mm256_loadu_si256 16 bPtr in
      let cVal := _mm256_mullo_epi16 aVal bVal in
      mul_short_store_int_batches n' (skipn 16 aPtr) (skipn 16 bPtr) (cOut ++ cVal)
  end.

Fixpoint mul_short_store_int_rest (n : nat) (aPtr bPtr cOut : list Z) : list Z :=
  match n with
  | O => cOut
  | S n' =>
      mul_short_store_int_rest n' (tl aPtr) (tl bPtr)
        (cOut ++ [Int.to_int16 (Int.mul (hd 0 aPtr) (hd 0 bPtr))])
  end.

Definition avx2_mul_short_store_int (cVector aVector bVector : list Z)
  (num_points : Z) : list Z :=
  let sixteenthPoints := num_points / 16 in
  let '(aPtr, bPtr, cOut) :=
    mul_short_store_int_batches (Z.to_nat sixteenthPoints) aVector bVector [] in
  let cOut :=
    mul_short_store_int_rest (Z.to_nat (num_points - sixteenthPoints * 16))
      aPtr bPtr cOut in
  write_front cOut cVector.

(** [avx2_si32_x2_mul_si32]. *)
Fixpoint si32_x2_mul_batches (n : nat) (aPtr bPtr cOut : list Z)
  : list Z * list Z * list Z :=
  match n with
  | O => (aPtr, bPtr, cOut)
  | S n' =>
      let aVal := _mm256_loadu_si256 8 aPtr in
      let bVal := _mm256_loadu_si256 8 bPtr in
      let cVal := _mm256_mullo_epi32 aVal bVal in
      si32_x2_mul_batches n' (skipn 8 aPtr) (skipn 8 bPtr)
        (cOut ++ storeu_int cVal)
  end.

Fixpoint si32_x2_mul_rest (n : nat) (aPtr bPtr cOut : list Z) : list Z :=
  match n with
  | O => cOut
  | S n' =>
      si32_x2_mul_rest n' (tl aPtr) (tl bPtr)
        (cOut ++ [Int.mul (hd 0 aPtr) (hd 0 bPtr)])
  end.

Definition avx2_si32_x2_mul_si32 (cVector aVector bVector : list Z)
  (num_points : Z) : list Z :=
  let eigthPoints := num_points / 8 in
  let '(aPtr, bPtr, cOut) :=
    si32_x2_mul_batches (Z.to_nat eigthPoints) aVector bVector [] in
  let cOut :=
    si32_x2_mul_rest (Z.to_nat (num_points - eigthPoints * 8)) aPtr bPtr cOut in
  write_front cOut cVector.

(** [avx2_fl32_x2_mul_fl32]: the loop over whole registers is all there
    is. *)
Fixpoint fl32_x2_mul_batches (n : nat) (aPtr bPtr cOut : list spec_float)
  : list spec_float :=
  match n with
  | O => cOut
  | S n' =>
      let aVal := _mm256_loadu_ps aPtr in
      let bVal := _mm256_loadu_ps bPtr in
      let cVal := _mm256_mul_ps aVal bVal in
      fl32_x2_mul_batches n' (skipn 8 aPtr) (skipn 8 bPtr) (cOut ++ cVal)
  end.

Definition avx2_fl32_x2_mul_fl32 (cVector aVector bVector : list spec_float)
  (num_points : Z) : list spec_float :=
  let eigthPoints := num_points / 8 in
  write_front (fl32_x2_mul_batches (Z.to_nat eigthPoints) aVector bVector [])
    cVector.

(** The eight lanes stored into an [int] array and added, in lane order. *)
Definition hsum8 (tempBuffer : list Z) : Z :=
  let returnValue := nth 0 tempBuffer 0 in
  let returnValue := Int.add returnValue (nth 1 tempBuffer 0) in
  let returnValue := Int.add returnValue (nth 2 tempBuffer 0) in
  let returnValue := Int.add returnValue (nth 3 tempBuffer 0) in
  let returnValue := Int.add returnValue (nth 4 tempBuffer 0) in
  let returnValue := Int.add returnValue (nth 5 tempBuffer 0) in
  let returnValue := Int.add returnValue (nth 6 tempBuffer 0) in
  Int.add returnValue (nth 7 tempBuffer 0).

(** [avx2_mul_and_acc_si32].  Like the accumulations of 16-bit vectors,
    it and [avx_accumulate_int] return their [int] converted to [double];
    the models keep the integer. *)
Fixpoint mul_and_acc_si32_batches (n : nat) (aPtr bPtr accumulator : list Z)
  : list Z * list Z * list Z :=
  match n with
  | O => (aPtr, bPtr, accumulator)
  | S n' =>
      let aVal := _mm256_loadu_si256 8 aPtr in
      let bVal := _mm256_loadu_si256 8 bPtr in
      let cVal := _mm256_mullo_epi32 aVal bVal in
      let accumulator := _mm256_add_epi32 accumulator cVal in
      mul_and_acc_si32_batches n' (skipn 8 aPtr) (skipn 8 bPtr) accumulator
  end.

Fixpoint mul_and_acc_si32_rest (n : nat) (aPtr bPtr : list Z) (returnValue : Z) : Z :=
  match n with
  | O => returnValue
  | S n' =>
      mul_and_acc_si32_rest n' (tl aPtr) (tl bPtr)
        (Int.add returnValue (Int.mul (hd 0 aPtr) (hd 0 bPtr)))
  end.

Definition avx2_mul_and_acc_si32 (aVector bVector : list Z) (num_points : Z) : Z :=
  let eigthPoints := num_points / 8 in
  let '(aPtr, bPtr, accumulator) :=
    mul_and_acc_si32_batches (Z.to_nat eigthPoints) aVector bVector
      (_mm256_setzero_si256 8) in
  let returnValue := hsum8 (storeu_int accumulator) in
  mul_and_acc_si32_rest (Z.to_nat (num_points - eigthPoints * 8))
    aPtr bPtr returnValue.

(** [avx_accumulate_int]. *)
Fixpoint accumulate_int_batches (n : nat) (aPtr accumulator : list Z)
  : list Z * list Z :=
  match n with
  | O => (aPtr, accumulator)
  | S n' =>
      let aVal := _mm256_loadu_si256 8 aPtr in
      let accumulator := _mm256_add_epi32 accumulator aVal in
      accumulate_int_batches n' (skipn 8 aPtr) accumulator
  end.

Fixpoint accumulate_int_rest (n : nat) (aPtr : list Z) (returnValue : Z) : Z :=
  match n with
  | O => returnValue
  | S n' => accumulate_int_rest n' (tl aPtr) (Int.add returnValue (hd 0 aPtr))
  end.

Definition avx_accumulate_int (inputBuffer : list Z) (num_points : Z) : Z :=
  let eighthPoints := num_points / 8 in
  let '(aPtr, accumulator) :=
    accumulate_int_batches (Z.to_nat eighthPoints) inputBuffer
      (_mm256_setzero_si256 8) in
  let returnValue := hsum8 (storeu_int accumulator) in
  accumulate_int_rest (Z.to_nat (num_points - eighthPoints * 8)) aPtr returnValue.

(* ================================================================== *)
(** ** Closed forms for the carrier oscillator *)

(** The table entry a phase accumulator selects after [i] steps: the top
    eight bits of [base + i * step] taken modulo [2^32]. *)
Definition nco_sample (lut : list Z) (base step : Z) (i : Z) : Z :=
  nth (Z.to_nat (((base + i * step) mod 2 ^ 32) / 2 ^ 24)) lut 0.

(** Every element is at most [M] in size. *)
Definition elements_within (M : Z) (a : list Z) : Prop :=
  Forall (fun z => Z.abs z <= M) a.

(** The products of the elements that meet, wrapped by [wrap]. *)
Definition products (wrap : Z -> Z) (a b : list Z) : list Z :=
  lanewise (fun x y => wrap (x * y)) a b.

(** The eight phases a register holds: [b + k * step] for lane [k]. *)
Definition lane_phases (b step : Z) : list Z :=
  map (fun k => Int.to_uint32 (b + k * step)) [0; 1; 2; 3; 4; 5; 6; 7].

(** The index into the table after [i] steps. *)
Definition nco_index (base step : Z) (i : Z) : Z :=
  ((base + i * step) mod 2 ^ 32) / 2 ^ 24.

(* ================================================================== *)
(** ** The carrier oscillator on tables of [float] *)

Definition _mm256_and_si256 : list Z -> list Z -> list Z := lanewise Z.land.
Definition _mm256_i32gather_ps (base : list spec_float) (vindex : list Z)
  : list spec_float :=
  map (fun i => nth (Z.to_nat (Int.to_int32 i)) base Single.zero) vindex.

(** [avx2_nco_fl32], the loop over whole registers. *)
Fixpoint nco_fl32_batches (n : nat) (lut : list spec_float)
  (carr_phase_base carr_step_offset hex_ff : list Z) (sig_nco : list spec_float)
  : list Z * list spec_float :=
  match n with
  | O => (carr_phase_base, sig_nco)
  | S n' =>
      let carr_idx := _mm256_srli_epi32 carr_phase_base 24 in
      let carr_idx := _mm256_and_si256 carr_idx hex_ff in
      let nco := _mm256_i32gather_ps lut carr_idx in
      let carr_phase_base := _mm256_add_epi32 carr_phase_base carr_step_offset in
      nco_fl32_batches n' lut carr_phase_base carr_step_offset hex_ff (sig_nco ++ nco)
  end.

(** The per-sample loop, which [avx2_nco_fl32] runs over the leftover
    samples and [avx2_nom_nco_fl32] over all of them. *)
Fixpoint nco_fl32_loop (n : nat) (lut : list spec_float)
  (carrPhaseBase carrStep : Z) (sig_nco : list spec_float) : list spec_float :=
  match n with
  | O => sig_nco
  | S n' =>
      let carrIndex := Z.land (Z.shiftr carrPhaseBase 24) 255 in
      let sample := nth (Z.to_nat carrIndex) lut Single.zero in
      let carrPhaseBase := Int.to_uint32 (carrPhaseBase + carrStep) in
      nco_fl32_loop n' lut carrPhaseBase carrStep (sig_nco ++ [sample])
  end.

Definition avx2_nco_fl32 (lut : list spec_float) (blk_size : Z)
  (rem_carr_phase carr_freq samp_freq : spec_float) : list spec_float :=
  let eight_points := Int.to_uint32 (Z.quot blk_size 8) in
  let nom_carr_step := nco_step carr_freq samp_freq in
  let nom_carr_phase_base := nco_phase_base rem_carr_phase in
  let carr_phase_base := _mm256_set1_epi32 nom_carr_phase_base in
  let carr_step_base :=
    _mm256_set_epi32 (7 * nom_carr_step) (6 * nom_carr_step) (5 * nom_carr_step)
                     (4 * nom_carr_step) (3 * nom_carr_step) (2 * nom_carr_step)
                     (1 * nom_carr_step) (0 * nom_carr_step) in
  let hex_ff := _mm256_set_epi32 255 255 255 255 255 255 255 255 in
  let carr_step_offset := _mm256_set1_epi32 (8 * nom_carr_step) in
  let carr_phase_base := _mm256_add_epi32 carr_phase_base carr_step_base in
  let '(carr_phase_base, sig_nco) :=
    nco_fl32_batches (Z.to_nat eight_points) lut carr_phase_base carr_step_offset
      hex_ff [] in
  let inda := Int.to_int32 (eight_points * 8) in
  let nom_carr_phase_base := Int.to_uint32 (_mm256_extract_epi32 carr_phase_base 7) in
  nco_fl32_loop (Z.to_nat (blk_size - inda)) lut nom_carr_phase_base nom_carr_step
    sig_nco.

Definition avx2_nom_nco_fl32 (lut : list spec_float) (blk_size : Z)
  (rem_carr_phase carr_freq samp_freq : spec_float) : list spec_float :=
  let carrPhaseBase := nco_phase_base rem_carr_phase in
  let carrStep := nco_step carr_freq samp_freq in
  nco_fl32_loop (Z.to_nat blk_size) lut carrPhaseBase carrStep [].

(* ================================================================== *)
(** ** The tracking loop: the carrier replica and the settings *)

(** The angle the driver hands to [gps_sin] and [gps_cos] for sample
    [i], in units of 1/10000 radian. *)
Definition carrier_angle (cfg : Config) (carrFreq remCarrPhase : spec_float)
  (i : Z) : Z :=
  let trigarg :=
    (Double.of_Z 2 * pi * carrFreq * (Double.of_Z i / samplingFreq cfg)
     + remCarrPhase)%D in
  Z.rem (IEEE.to_int32 (trigarg * Double.of_Z 10000)%D) 62832.

(** The small run with both filter time constants [tau1] at zero. *)
Definition zero_tau_cfg : Config :=
  {| caCode := caCode small_cfg;
     init_blksize := init_blksize small_cfg;
     init_remCodePhase := init_remCodePhase small_cfg;
     earlyLateSpc := earlyLateSpc small_cfg;
     samplingFreq := samplingFreq small_cfg;
     init_remCarrPhase := init_remCarrPhase small_cfg;
     init_carrFreq := init_carrFreq small_cfg;
     seekvalue := seekvalue small_cfg;
     tau1carr := Double.zero;
     tau2carr := tau2carr small_cfg;
     PDIcarr := PDIcarr small_cfg;
     carrFreqBasis := carrFreqBasis small_cfg;
     tau1code := Double.zero;
     tau2code := tau2code small_cfg;
     PDIcode := PDIcode small_cfg;
     codeLength := codeLength small_cfg;
     codePeriods := codePeriods small_cfg;
     dataAdaptCoeff := dataAdaptCoeff small_cfg;
     vsmInterval := vsmInterval small_cfg;
     accInt := accInt small_cfg |}.

(* ================================================================== *)
(** ** Where an epoch has no defined behaviour *)

(** The conditions under which a turn of the loop stays within what C
    defines.  The block size, which dimensions the variable-length
    arrays of the loop body, is positive; the read fits the buffer
    allocated for the samples, and the samples of the block are in it;
    the three code indices of every sample lie inside the code table;
    [dataAdaptCoeff], the divisor that gives [absoluteSample], is not
    zero.  Outside them the program has no defined behaviour: with a
    block size that is not positive or a zero divisor it is killed. *)
Definition epoch_defined (cfg : Config) (st : State) : bool :=
  let codePhaseStep := (codeFreq st / samplingFreq cfg)%D in
  let blksize := block_size (codeLength cfg) (remCodePhase st) codePhaseStep in
  let size := Z.of_nat (length (rawSignal st)) in
  let in_table idx := (0 <=? idx) && (idx <? Z.of_nat (length (caCode cfg))) in
  (0 <? blksize)
  && negb (dataAdaptCoeff cfg =? 0)
  && (0 <=? dataAdaptCoeff cfg * blksize)
  && (dataAdaptCoeff cfg * blksize <=? size)
  && (blksize <=? size)
  && forallb (fun i =>
                let '(pCode, eCode, lCode) :=
                  code_sample cfg codePhaseStep (remCodePhase st) i in
                in_table pCode && in_table eCode && in_table lCode)
       (indices blksize).

(** The epoch, the loop and the run with the conditions checked. *)
Definition epoch_checked (atan log10 : spec_float -> spec_float)
  (avx512_mul_and_acc_16i : list Z -> list Z -> Z -> spec_float) (cfg : Config)
  (loopcount : Z) (st : State) : option State :=
  if epoch_defined cfg st
  then Some (epoch atan log10 avx512_mul_and_acc_16i cfg loopcount st)
  else None.

Fixpoint epochs_checked (atan log10 : spec_float -> spec_float)
  (avx512_mul_and_acc_16i : list Z -> list Z -> Z -> spec_float) (cfg : Config)
  (n : nat) (loopcount : Z) (st : State) : option State :=
  match n with
  | O => Some st
  | S n' =>
      match epoch_checked atan log10 avx512_mul_and_acc_16i cfg loopcount st with
      | Some st' =>
          epochs_checked atan log10 avx512_mul_and_acc_16i cfg n' (loopcount + 1) st'
      | None => None
      end
  end.

Definition run_checked (atan log10 : spec_float -> spec_float)
  (avx512_mul_and_acc_16i : list Z -> list Z -> Z -> spec_float) (cfg : Config)
  (file : list Z) : option State :=
  epochs_checked atan log10 avx512_mul_and_acc_16i cfg
    (Z.to_nat (codePeriods cfg)) 0 (initial_state cfg file).





(* ================================================================== *)
(** ** The multiply-and-accumulate kernels, lane by lane *)

(** What lane [k] of the 16-bit accumulator receives over [q] whole
    registers: the low halves of the products of the elements [k],
    [16 + k], [32 + k], ... *)
Definition lane_products (a b : list Z) (q k : nat) : list Z :=
  map (fun j => Int.to_int16 (nth (16 * j + k) a 0 * nth (16 * j + k) b 0))
    (seq 0 q).

(** A 16-bit sum that is clamped after every addition. *)
Definition sat_sum (l : list Z) : Z :=
  fold_left (fun s p => Int.sat_int16 (s + p)) l 0.

Definition lane_sums (a b : list Z) (q : nat) : list Z :=
  map (fun k => sat_sum (lane_products a b q k)) (seq 0 16).

(** The same for the eight lanes of the floating-point kernel: each lane
    is a [float] running sum of its own products. *)
Definition lane_products_fl32 (a b : list spec_float) (q k : nat) : list spec_float :=
  map (fun j => (nth (8 * j + k) a Single.zero * nth (8 * j + k) b Single.zero)%F)
    (seq 0 q).

Definition lane_sums_fl32 (a b : list spec_float) (q : nat) : list spec_float :=
  map (fun k => fold_left Single.add (lane_products_fl32 a b q k) Single.zero)
    (seq 0 8).

(** Thirty-two products of 20000: every lane receives two of them. *)
Definition loud_a : list Z := repeat 200 32.
Definition loud_b : list Z := repeat 100 32.

(* ================================================================== *)
(** * Properties *)

(** ** Rounding to a binary format *)

Section Rounding.

Variables prec emax : Z.
Hypothesis prec_pos : 0 < prec.

Local Abbreviation emin := (emin prec emax).
Local Abbreviation fexp := (fexp prec emax).

Lemma fexp_emin k : emin <= fexp k.
Proof. unfold SpecFloat.fexp. lia. Qed.

Lemma digits2_pos_size m : digits2_pos m = Pos.size m.
Proof. induction m; simpl; congruence. Qed.

(** A positive number of [d] binary digits lies in [[2^(d-1), 2^d)]. *)
Lemma digits2_bounds m :
  2 ^ (Zpos (digits2_pos m) - 1) <= Zpos m < 2 ^ Zpos (digits2_pos m).
Proof.
  rewrite digits2_pos_size.
  pose proof (Pos.size_gt m) as Hgt. pose proof (Pos.size_le m) as Hle.
  apply Pos2Z.pos_lt_pos in Hgt. apply Pos2Z.pos_le_pos in Hle.
  rewrite Pos2Z.inj_pow in Hgt, Hle.
  replace (Zpos (Pos.size m)) with (Zpos (Pos.size m) - 1 + 1) in Hle at 1 by lia.
  rewrite Z.pow_add_r in Hle by lia.
  change (2 ^ 1) with 2 in Hle. lia.
Qed.

Lemma shr_1_m mrs : 0 <= shr_m mrs -> shr_m (shr_1 mrs) = shr_m mrs / 2.
Proof.
  destruct mrs as [m r s]; cbn [shr_m]. intros Hm.
  destruct m as [|[p|p|]|p]; cbn [shr_1 shr_m]; try reflexivity; try lia.
  - apply Z.div_unique with (r := 1); lia.
  - apply Z.div_unique with (r := 0); lia.
Qed.

Lemma iter_shr_1_m p : forall mrs,
  0 <= shr_m mrs ->
  shr_m (iter_pos shr_1 p mrs) = shr_m mrs / 2 ^ Zpos p.
Proof.
  induction p as [p IH|p IH|]; intros mrs Hm; cbn [iter_pos].
  - assert (Hp : 0 < 2 ^ Zpos p) by (apply Z.pow_pos_nonneg; lia).
    assert (E : 2 ^ Zpos p~1 = 2 * 2 ^ Zpos p * 2 ^ Zpos p).
    { replace (Zpos p~1) with (1 + Zpos p + Zpos p) by lia.
      rewrite !Z.pow_add_r by lia. reflexivity. }
    assert (H1 : 0 <= shr_m (shr_1 mrs))
      by (rewrite shr_1_m by assumption; apply Z.div_pos; lia).
    assert (H2 : 0 <= shr_m (iter_pos shr_1 p (shr_1 mrs)))
      by (rewrite IH by assumption; apply Z.div_pos; lia).
    rewrite IH, IH, shr_1_m by assumption.
    rewrite !Z.div_div by lia.
    rewrite E. f_equal; ring.
  - assert (Hp : 0 < 2 ^ Zpos p) by (apply Z.pow_pos_nonneg; lia).
    assert (E : 2 ^ Zpos p~0 = 2 ^ Zpos p * 2 ^ Zpos p).
    { replace (Zpos p~0) with (Zpos p + Zpos p) by lia.
      rewrite !Z.pow_add_r by lia. reflexivity. }
    assert (H2 : 0 <= shr_m (iter_pos shr_1 p mrs))
      by (rewrite IH by assumption; apply Z.div_pos; lia).
    rewrite IH, IH by assumption.
    rewrite !Z.div_div by lia.
    rewrite E. f_equal; ring.
  - rewrite shr_1_m by assumption. reflexivity.
Qed.

(** A shift to the right divides the mantissa and raises the exponent. *)
Lemma shr_spec mrs e n :
  0 <= shr_m mrs ->
  shr_m (fst (shr mrs e n)) = shr_m mrs / 2 ^ Z.max n 0 /\
  snd (shr mrs e n) = e + Z.max n 0.
Proof.
  intros Hm. destruct n as [|p|p]; cbn [shr fst snd].
  - rewrite Z.div_1_r. lia.
  - rewrite iter_shr_1_m by assumption. split; [reflexivity|lia].
  - change (Z.max (Zneg p) 0) with 0. rewrite Z.div_1_r. lia.
Qed.

Lemma shr_record_of_loc_m m l : shr_m (shr_record_of_loc m l) = m.
Proof. destruct l as [|[| |]]; reflexivity. Qed.

(** The shift that brings a positive mantissa to the format leaves it
    positive, as long as the exponent is not below the least one. *)
Lemma shr_fexp_pos m e l :
  0 < m -> emin <= e ->
  0 < shr_m (fst (shr_fexp prec emax m e l)) /\
  emin <= snd (shr_fexp prec emax m e l).
Proof.
  intros Hm He. unfold shr_fexp.
  destruct (shr_spec (shr_record_of_loc m l) e
              (fexp (Zdigits2 m + e) - e)) as [E1 E2].
  { rewrite shr_record_of_loc_m. lia. }
  rewrite E1, E2, shr_record_of_loc_m. clear E1 E2.
  destruct m as [|p|p]; try lia. cbn [Zdigits2].
  pose proof (digits2_bounds p) as [Hlo _].
  set (d := Zpos (digits2_pos p)) in *.
  assert (Hd : 1 <= d) by (unfold d; lia).
  assert (Hn : Z.max (fexp (d + e) - e) 0 <= d - 1)
    by (unfold SpecFloat.fexp; lia).
  split; [|lia].
  apply Z.div_str_pos. split; [apply Z.pow_pos_nonneg; lia|].
  apply Z.le_trans with (2 ^ (d - 1)); [|exact Hlo].
  apply Z.pow_le_mono_r; lia.
Qed.

Lemma round_nearest_even_pos m l : 0 < m -> 0 < round_nearest_even m l.
Proof.
  intros Hm. destruct l as [|[| |]]; cbn [round_nearest_even]; try lia.
  destruct (Z.even m); lia.
Qed.

Local Abbreviation exponent_ok := (IEEE.exponent_ok prec emax).

Lemma shr_fexp_exponent m e l : emin <= snd (shr_fexp prec emax m e l).
Proof.
  unfold shr_fexp, shr.
  pose proof (fexp_emin (Zdigits2 m + e)).
  destruct (fexp (Zdigits2 m + e) - e) eqn:E; cbn [snd]; lia.
Qed.

Lemma binary_round_aux_exponent s m e l :
  exponent_ok (binary_round_aux prec emax s m e l).
Proof.
  unfold binary_round_aux.
  destruct (shr_fexp prec emax m e l) as [mrs' e'].
  pose proof (shr_fexp_exponent
                (round_nearest_even (shr_m mrs') (loc_of_shr_record mrs')) e'
                loc_Exact) as H.
  destruct (shr_fexp prec emax _ e' loc_Exact) as [mrs'' e''].
  cbn [snd] in H.
  destruct (shr_m mrs''); cbn; trivial.
  destruct (e'' <=? emax - prec); cbn; trivial.
Qed.

(** Rounding a positive mantissa whose exponent is not below the least
    one gives an infinity or a finite number, never a zero. *)
Lemma binary_round_aux_nonzero s m e l :
  0 < m -> emin <= e ->
  IEEE.is_zero (binary_round_aux prec emax s m e l) = false.
Proof.
  intros Hm He. unfold binary_round_aux.
  pose proof (shr_fexp_pos m e l Hm He) as [H1 H1'].
  destruct (shr_fexp prec emax m e l) as [mrs' e']. cbn [fst snd] in H1, H1'.
  pose proof (shr_fexp_pos _ e' loc_Exact
                (round_nearest_even_pos _ (loc_of_shr_record mrs') H1) H1')
    as [H2 _].
  destruct (shr_fexp prec emax _ e' loc_Exact) as [mrs'' e'']. cbn [fst] in H2.
  destruct (shr_m mrs''); try lia.
  destruct (e'' <=? emax - prec); reflexivity.
Qed.

Lemma shl_align_exponent m e e' :
  emin <= e -> emin <= e' -> emin <= snd (shl_align m e e').
Proof.
  intros. unfold shl_align. destruct (e' - e); cbn [snd]; lia.
Qed.

Lemma binary_round_nonzero s m e :
  emin <= e -> IEEE.is_zero (binary_round prec emax s m e) = false.
Proof.
  intros He. unfold binary_round.
  pose proof (shl_align_exponent m e (fexp (Zpos (digits2_pos m) + e)) He
                (fexp_emin _)) as H.
  destruct (shl_align m e _) as [mz ez]. cbn [snd] in H.
  apply binary_round_aux_nonzero; [lia|exact H].
Qed.

Lemma binary_round_exponent s m e : exponent_ok (binary_round prec emax s m e).
Proof.
  unfold binary_round. destruct (shl_align m e _) as [mz ez].
  apply binary_round_aux_exponent.
Qed.

Lemma binary_normalize_exponent m e sz :
  exponent_ok (binary_normalize prec emax m e sz).
Proof.
  destruct m; cbn [binary_normalize]; [exact I| |]; apply binary_round_exponent.
Qed.

(** No sum is the negative zero but that of two negative zeros. *)
Lemma binary_normalize_not_neg_zero m e :
  emin <= e -> binary_normalize prec emax m e false <> S754_zero true.
Proof.
  intros He. destruct m as [|p|p]; cbn [binary_normalize].
  - discriminate.
  - intros E. pose proof (binary_round_nonzero false p e He) as H.
    rewrite E in H. discriminate.
  - intros E. pose proof (binary_round_nonzero true p e He) as H.
    rewrite E in H. discriminate.
Qed.

Lemma SFmul_exponent x y : exponent_ok (SFmul prec emax x y).
Proof.
  destruct x as [sx|sx| |sx mx ex], y as [sy|sy| |sy my ey]; cbn [SFmul];
    try exact I.
  apply binary_round_aux_exponent.
Qed.

Lemma SFadd_exponent x y :
  exponent_ok x -> exponent_ok y -> exponent_ok (SFadd prec emax x y).
Proof.
  destruct x as [sx|sx| |sx mx ex], y as [sy|sy| |sy my ey]; cbn [SFadd];
    intros Hx Hy; try exact I; try assumption.
  - destruct sx, sy; exact I.
  - destruct sx, sy; exact I.
  - apply binary_normalize_exponent.
Qed.

Lemma SFadd_not_neg_zero x y :
  exponent_ok x -> exponent_ok y ->
  x <> S754_zero true -> SFadd prec emax x y <> S754_zero true.
Proof.
  destruct x as [sx|sx| |sx mx ex], y as [sy|sy| |sy my ey]; cbn [SFadd];
    intros Hx Hy Hnz; try discriminate; try assumption.
  - destruct sx, sy; try discriminate. contradiction.
  - destruct sx, sy; discriminate.
  - apply binary_normalize_not_neg_zero. cbn [IEEE.exponent_ok] in Hx, Hy. lia.
Qed.

(** Adding [+0 + p] or [p] to a sum that is not the negative zero comes
    to the same. *)
Lemma SFadd_zero_absorb x p :
  x <> S754_zero true ->
  SFadd prec emax x (SFadd prec emax (S754_zero false) p) = SFadd prec emax x p.
Proof.
  intros Hx.
  destruct p as [sp|sp| |sp mp ep]; cbn [SFadd]; try reflexivity.
  destruct sp; [|reflexivity].
  destruct x as [sx|sx| |sx mx ex]; cbn [SFadd]; try reflexivity.
  destruct sx; [contradiction|reflexivity].
Qed.

Lemma SFadd_zero_l_not_neg_zero p :
  SFadd prec emax (S754_zero false) p <> S754_zero true.
Proof.
  destruct p as [sp|sp| |sp mp ep]; cbn [SFadd]; try discriminate.
  destruct sp; discriminate.
Qed.

Lemma SFadd_zero_l_exponent p :
  exponent_ok p -> exponent_ok (SFadd prec emax (S754_zero false) p).
Proof. intros H. apply SFadd_exponent; [exact I|exact H]. Qed.

End Rounding.

(* ================================================================== *)
(** ** Fixed-width integers *)

Lemma to_int16_id x : Int.is_int16 x -> Int.to_int16 x = x.
Proof.
  unfold Int.is_int16, Int.to_int16; intros H.
  rewrite Z.mod_small; lia.
Qed.

Lemma to_int32_id x : Int.is_int32 x -> Int.to_int32 x = x.
Proof.
  unfold Int.is_int32, Int.to_int32; intros H.
  rewrite Z.mod_small; lia.
Qed.

Lemma sat_int16_id x : Int.is_int16 x -> Int.sat_int16 x = x.
Proof.
  unfold Int.is_int16, Int.sat_int16; intros H.
  destruct (Z.ltb_spec x (-32768)); [lia|].
  destruct (Z.ltb_spec 32767 x); [lia|reflexivity].
Qed.

Lemma to_uint32_range x : 0 <= Int.to_uint32 x < 2 ^ 32.
Proof. unfold Int.to_uint32; apply Z.mod_pos_bound; lia. Qed.

Lemma int_add_exact x y : Int.is_int32 (x + y) -> Int.add x y = x + y.
Proof. apply to_int32_id. Qed.

Lemma int_mul_exact x y : Int.is_int32 (x * y) -> Int.mul x y = x * y.
Proof. apply to_int32_id. Qed.

(* ================================================================== *)
(** ** The two accumulations of 16-bit vectors *)

Lemma accumulate_batches_same n : forall aPtr accumulator,
  accumulate_short_batches n aPtr accumulator
  = accumulate_short_unsat_batches n aPtr accumulator.
Proof.
  induction n as [|n IH]; intros aPtr accumulator; simpl.
  - reflexivity.
  - apply IH.
Qed.

Lemma accumulate_rest_same n : forall aPtr returnValue,
  accumulate_short_rest n aPtr returnValue
  = accumulate_short_unsat_rest n aPtr returnValue.
Proof.
  induction n as [|n IH]; intros aPtr returnValue; simpl.
  - reflexivity.
  - apply IH.
Qed.

(** C10.  For every input vector and every [num_points], the saturating
    accumulation [avx_accumulate_short] and the accumulation named
    non-saturating, [avx_accumulate_short_unsat], return the same value:
    both add lanes with the saturating [_mm256_adds_epi16] and add the
    stored lanes and the leftover elements in [int]. *)
Theorem accumulate_short_unsat_is_accumulate_short :
  forall (inputBuffer : list Z) (num_points : Z),
    avx_accumulate_short inputBuffer num_points
    = avx_accumulate_short_unsat inputBuffer num_points.
Proof.
  intros inputBuffer num_points.
  unfold avx_accumulate_short, avx_accumulate_short_unsat.
  rewrite accumulate_batches_same.
  destruct (accumulate_short_unsat_batches _ _ _) as [aPtr accumulator].
  apply accumulate_rest_same.
Qed.

(** C7.  On thirty-two samples whose lane 0 receives 32767 and then 1,
    [avx_accumulate_short_unsat] returns the clamped 32767, where an
    accumulation that rolls over (lane by lane, or as one 16-bit running
    sum) returns -32768. *)
Theorem accumulate_short_unsat_clamps :
  avx_accumulate_short_unsat rollover_input 32 = 32767 /\
  accumulate_short_rollover rollover_input 32 = -32768 /\
  running_sum_rollover rollover_input = -32768.
Proof. vm_compute. repeat split; reflexivity. Qed.

(* ================================================================== *)
(** ** The carrier oscillator *)

(** C1.  With a table that holds its own indices, a carrier at 1/256 of
    the sampling frequency and a block of one sample, the batched
    generator reads entry 7 where the per-sample generator reads entry 0;
    on a block of nineteen samples the first sixteen agree and the last
    three are seven entries ahead. *)
Theorem nco_si32_leftover_differs :
  avx2_nco_si32 ramp_lut 1 Double.zero Double.one (Double.of_Z 256) = [7] /\
  avx2_nom_nco_si32 ramp_lut 1 Double.zero Double.one (Double.of_Z 256) = [0] /\
  avx2_nco_si32 ramp_lut 19 Double.zero Double.one (Double.of_Z 256)
  = [0; 1; 2; 3; 4; 5; 6; 7; 8; 9; 10; 11; 12; 13; 14; 15; 23; 24; 25] /\
  avx2_nom_nco_si32 ramp_lut 19 Double.zero Double.one (Double.of_Z 256)
  = [0; 1; 2; 3; 4; 5; 6; 7; 8; 9; 10; 11; 12; 13; 14; 15; 16; 17; 18].
Proof. vm_compute. repeat split; reflexivity. Qed.

(* ================================================================== *)
(** ** The sine and cosine approximations *)

Lemma mod_cycle_neg x : -62832 < x < 0 -> x mod 62832 = x + 62832.
Proof.
  intros H. symmetry. apply Z.mod_unique with (q := -1); lia.
Qed.

Lemma gps_sin_cos_one_cycle x :
  -62832 < x < 62832 ->
  gps_sin x = (if 31416 <? x mod 62832 then -1 else 1) /\
  gps_cos x = (if (15708 <? x mod 62832) && (x mod 62832 <? 47124)
               then -1 else 1).
Proof.
  intros Hx.
  assert (Hm : x mod 62832 = if x <? 0 then x + 62832 else x).
  { destruct (Z.ltb_spec x 0).
    - apply mod_cycle_neg; lia.
    - apply Z.mod_small; lia. }
  rewrite Hm. unfold gps_sin, gps_cos.
  rewrite !Z.gtb_ltb.
  destruct (Z.ltb_spec x 0);
    repeat match goal with
           | |- context [?a <? ?b] => destruct (Z.ltb_spec a b)
           end; simpl; repeat split; intros; try lia.
Qed.

Lemma gps_sin_cos_above x : 62832 <= x -> gps_sin x = -1 /\ gps_cos x = 1.
Proof.
  intros Hx. unfold gps_sin, gps_cos. rewrite !Z.gtb_ltb.
  repeat match goal with
         | |- context [?a <? ?b] => destruct (Z.ltb_spec a b)
         end; simpl; split; try reflexivity; lia.
Qed.

Lemma gps_sin_cos_below x : x <= -62832 -> gps_sin x = 1 /\ gps_cos x = 1.
Proof.
  intros Hx. unfold gps_sin, gps_cos. rewrite !Z.gtb_ltb.
  repeat match goal with
         | |- context [?a <? ?b] => destruct (Z.ltb_spec a b)
         end; simpl; split; try reflexivity; lia.
Qed.

Lemma carrier_angle_range cfg carrFreq remCarrPhase i :
  -62832 < carrier_angle cfg carrFreq remCarrPhase i < 62832.
Proof.
  unfold carrier_angle. cbv zeta.
  set (n := IEEE.to_int32 _).
  pose proof (Z.rem_bound_abs n 62832 ltac:(lia)). lia.
Qed.

(** C9, the claim one cycle and a half beyond zero.  The angles 62932
    and -62932 wrap to 100 and 62732, in the upper and in the lower half
    of the cycle, yet the sine is -1 at the first and +1 at the second;
    94248 wraps to the half cycle 31416, inside the band of the cosine,
    yet the cosine is +1.  The macros compare the angle as it is. *)
Lemma gps_sin_cos_beyond_one_cycle :
  62932 mod 62832 = 100 /\ gps_sin 100 = 1 /\ gps_sin 62932 = -1 /\
  (-62932) mod 62832 = 62732 /\ gps_sin 62732 = -1 /\ gps_sin (-62932) = 1 /\
  94248 mod 62832 = 31416 /\ gps_cos 31416 = -1 /\ gps_cos 94248 = 1.
Proof. vm_compute. repeat split; reflexivity. Qed.

(** C9, as the code has it.  The angle is in units of 1/10000 radian and
    a cycle is 62832 units.  The loop hands the macros the remainder of a
    division by 62832, an angle within one cycle either way.  For such
    an angle [gps_sin] is -1 exactly when the angle, wrapped into
    [0, 62832), lies beyond the half cycle 31416 (the lower half of the
    circle) and +1 otherwise; [gps_cos] is -1 exactly when the wrapped
    angle lies strictly between the quarter cycle 15708 and the
    three-quarter cycle 47124, and +1 otherwise.  The macros themselves
    do not wrap: from one cycle upwards the sine is -1 and the cosine +1,
    from minus one cycle downwards both are +1. *)
Theorem gps_sin_cos_spec :
  (forall x : Z, -62832 < x < 62832 ->
     gps_sin x = (if 31416 <? x mod 62832 then -1 else 1) /\
     gps_cos x = (if (15708 <? x mod 62832) && (x mod 62832 <? 47124)
                  then -1 else 1)) /\
  (forall cfg carrFreq remCarrPhase i,
     -62832 < carrier_angle cfg carrFreq remCarrPhase i < 62832) /\
  (forall x : Z, 62832 <= x -> gps_sin x = -1 /\ gps_cos x = 1) /\
  (forall x : Z, x <= -62832 -> gps_sin x = 1 /\ gps_cos x = 1).
Proof.
  split; [exact gps_sin_cos_one_cycle|].
  split; [exact carrier_angle_range|].
  split; [exact gps_sin_cos_above|exact gps_sin_cos_below].
Qed.

Lemma gps_sin_cos_spec_witness :
  -62832 < -100 < 62832 /\ gps_sin (-100) = -1 /\ gps_cos (-100) = 1 /\
  62832 <= 70000 /\ gps_sin 70000 = -1.
Proof.
  destruct gps_sin_cos_spec as (Hin & _ & Hup & _).
  split; [lia|].
  destruct (Hin (-100) ltac:(lia)) as (Hs & Hc).
  rewrite Hs, Hc. split; [reflexivity|]. split; [reflexivity|].
  split; [lia|]. apply (Hup 70000). lia.
Defined.

(* ================================================================== *)
(** ** The tracking loop: what every epoch does *)

Section EpochFacts.

Variable atan : spec_float -> spec_float.
Variable log10 : spec_float -> spec_float.
Variable avx512_mul_and_acc_16i : list Z -> list Z -> Z -> spec_float.
Variable cfg : Config.

Local Abbreviation epoch' := (epoch atan log10 avx512_mul_and_acc_16i cfg).
Local Abbreviation stored' := (stored atan log10 avx512_mul_and_acc_16i cfg).

Lemma epoch_outputs loopcount st :
  outputs (epoch' loopcount st) = outputs st ++ [stored' st loopcount].
Proof.
  unfold stored, epoch.
  destruct (fread _ _ _) as [[i raw] fp]; cbn [outputs].
  rewrite nth_middle. reflexivity.
Qed.

Lemma epoch_stores_one loopcount st :
  length (outputs (epoch' loopcount st)) = S (length (outputs st)).
Proof.
  rewrite epoch_outputs, length_app; simpl; lia.
Qed.

Lemma epoch_remCodePhase loopcount st :
  remCodePhase (epoch' loopcount st)
  = advance_remCodePhase (remCodePhase st) (codeFreq st / samplingFreq cfg)%D
      (block_size (codeLength cfg) (remCodePhase st)
         (codeFreq st / samplingFreq cfg)%D).
Proof.
  unfold epoch', epoch.
  destruct (fread _ _ _) as [[i raw] fp]; reflexivity.
Qed.

Lemma epoch_vsm loopcount st :
  vsm (epoch' loopcount st)
  = vsm_step log10 cfg loopcount (I_P_output (stored' st loopcount))
      (Q_P_output (stored' st loopcount)) (vsm st).
Proof.
  unfold stored, epoch.
  destruct (fread _ _ _) as [[i raw] fp]; cbn [outputs vsm].
  rewrite nth_middle. reflexivity.
Qed.

Lemma epoch_loop_state loopcount st :
  let r := stored' st loopcount in
  carrError_output r = carrier_discriminator atan (Q_P_output r) (I_P_output r) /\
  codeError_output r
  = code_discriminator (I_E_output r) (Q_E_output r) (I_L_output r) (Q_L_output r) /\
  carrNco_output r
  = carrier_filter cfg (oldCarrNco st) (carrError_output r) (oldCarrError st) /\
  codeNco_output r
  = code_filter cfg (oldCodeNco st) (codeError_output r) (oldCodeError st) /\
  oldCarrError (epoch' loopcount st) = carrError_output r /\
  oldCarrNco (epoch' loopcount st) = carrNco_output r /\
  oldCodeError (epoch' loopcount st) = codeError_output r /\
  oldCodeNco (epoch' loopcount st) = codeNco_output r.
Proof.
  unfold stored, epoch.
  destruct (fread _ _ _) as [[i raw] fp]; cbn [outputs].
  rewrite nth_middle.
  cbn [carrError_output codeError_output carrNco_output codeNco_output
       oldCarrError oldCarrNco oldCodeError oldCodeNco
       I_E_output I_P_output I_L_output Q_E_output Q_P_output Q_L_output].
  repeat split; reflexivity.
Qed.

Lemma epochs_outputs_length n : forall loopcount st,
  length (outputs (epochs atan log10 avx512_mul_and_acc_16i cfg n loopcount st))
  = (length (outputs st) + n)%nat.
Proof.
  induction n as [|n IH]; intros loopcount st; simpl.
  - lia.
  - rewrite IH, epoch_stores_one. lia.
Qed.

Lemma run_outputs_length file :
  length (outputs (run atan log10 avx512_mul_and_acc_16i cfg file))
  = Z.to_nat (codePeriods cfg).
Proof.
  unfold run. rewrite epochs_outputs_length. reflexivity.
Qed.

End EpochFacts.

(* ================================================================== *)
(** ** The advance of the code phase *)

(** C3.  Every epoch advances the code phase by
    [blksize * codePhaseStep - 1023], whatever code length is configured.
    With a code of 2046 chips at the nominal rates the block has 32736
    samples and the phase that remains is above 1023 chips, where the
    advance by the configured length leaves less than one chip. *)
Theorem remCodePhase_advance_uses_1023 :
  (forall atan log10 kernel cfg loopcount st,
     remCodePhase (epoch atan log10 kernel cfg loopcount st)
     = advance_remCodePhase (remCodePhase st) (codeFreq st / samplingFreq cfg)%D
         (block_size (codeLength cfg) (remCodePhase st)
            (codeFreq st / samplingFreq cfg)%D)) /\
  block_size long_codeLength Double.zero nominal_codePhaseStep = 32736 /\
  (Double.of_Z 1023
   <? advance_remCodePhase Double.zero nominal_codePhaseStep 32736)%D = true /\
  (advance_remCodePhase_spec long_codeLength Double.zero nominal_codePhaseStep 32736
   <? Double.one)%D = true.
Proof.
  split; [intros; apply epoch_remCodePhase|].
  vm_compute. repeat split; reflexivity.
Qed.

(* ================================================================== *)
(** ** Short reads *)

(** C6.  The count that [fread] returns plays no part: every epoch stores
    its record, and a run stores [codePeriods] records whatever the file
    holds.  On a file of five bytes the first block asks for sixteen,
    gets five, and the run still stores its three records, each computed
    from the five bytes and the zeros behind them. *)
Theorem short_read_goes_unnoticed :
  (forall atan log10 kernel cfg loopcount st,
     length (outputs (epoch atan log10 kernel cfg loopcount st))
     = S (length (outputs st))) /\
  (forall atan log10 kernel cfg file,
     length (outputs (run atan log10 kernel cfg file))
     = Z.to_nat (codePeriods cfg)) /\
  (let st := initial_state small_cfg short_file in
   let blksize := block_size (codeLength small_cfg) (remCodePhase st)
                    (codeFreq st / samplingFreq small_cfg)%D in
   blksize = 16 /\
   fst (fst (fread (rawSignal st) (Int.mul (dataAdaptCoeff small_cfg) blksize)
               (fpdata st))) = 5) /\
  map I_P_output (outputs (run atan_F log10_F mul_and_acc_avx2 small_cfg short_file))
  = [Double.of_Z 40; Double.of_Z 40; Double.of_Z 40].
Proof.
  split; [intros; apply epoch_stores_one|].
  split; [intros; apply run_outputs_length|].
  vm_compute. repeat split; reflexivity.
Qed.

(* ================================================================== *)
(** ** The carrier-to-noise estimate *)











Lemma log10_F_annex_F : log10_annex_F log10_F.
Proof. split; reflexivity. Qed.


(* ================================================================== *)
(** ** Degenerate discriminators *)

Lemma add_nonfinite_r x y :
  IEEE.is_finite y = false -> IEEE.is_finite (x + y)%D = false.
Proof.
  destruct y as [sy|sy| |sy my ey]; try discriminate; intros _;
    destruct x as [sx|sx| |sx mx ex]; try destruct sx; try destruct sy; reflexivity.
Qed.

Lemma mul_nonfinite_l x y :
  IEEE.is_finite x = false -> IEEE.is_finite (x * y)%D = false.
Proof.
  destruct x as [sx|sx| |sx mx ex]; try discriminate; intros _;
    destruct y as [sy|sy| |sy my ey]; reflexivity.
Qed.

Lemma div_by_zero x y :
  IEEE.is_zero y = true -> IEEE.is_finite (x / y)%D = false.
Proof.
  destruct y as [sy|sy| |sy my ey]; try discriminate; intros _;
    destruct x as [sx|sx| |sx mx ex]; reflexivity.
Qed.









(* ================================================================== *)
(** ** Multiply and accumulate, 16-bit *)

Lemma loadu_cons {A} (d : A) n x p :
  loadu d (S n) (x :: p) = x :: loadu d n p.
Proof.
  unfold loadu. cbn [seq map nth]. f_equal.
  rewrite <- seq_shift, map_map. reflexivity.
Qed.

Lemma loadu_firstn {A} (d : A) n : forall p,
  (n <= length p)%nat -> loadu d n p = firstn n p.
Proof.
  induction n as [|n IH]; intros p H.
  - reflexivity.
  - destruct p as [|x p]; [simpl in H; lia|].
    rewrite loadu_cons, IH by (simpl in H; lia). reflexivity.
Qed.

Lemma Forall_firstn {A} (P : A -> Prop) n l : Forall P l -> Forall P (firstn n l).
Proof.
  intros H. rewrite <- (firstn_skipn n l) in H.
  now apply Forall_app in H.
Qed.

Lemma Forall_skipn {A} (P : A -> Prop) n l : Forall P l -> Forall P (skipn n l).
Proof.
  intros H. rewrite <- (firstn_skipn n l) in H.
  now apply Forall_app in H.
Qed.

Lemma combine_skipn {A B} n : forall (a : list A) (b : list B),
  combine (skipn n a) (skipn n b) = skipn n (combine a b).
Proof.
  induction n as [|n IH]; intros a b.
  - reflexivity.
  - destruct a as [|x a]; [reflexivity|].
    destruct b as [|y b]; [simpl; now destruct (skipn n a)|].
    simpl. apply IH.
Qed.

Lemma products_within_firstn M n a b :
  products_within M a b -> products_within M (firstn n a) (firstn n b).
Proof.
  unfold products_within. rewrite <- combine_firstn. apply Forall_firstn.
Qed.

Lemma products_within_skipn M n a b :
  products_within M a b -> products_within M (skipn n a) (skipn n b).
Proof.
  unfold products_within. rewrite combine_skipn. apply Forall_skipn.
Qed.

Lemma dot_combine : forall a b,
  dot a b = sum_list (map (fun p => fst p * snd p) (combine a b)).
Proof.
  induction a as [|x a IH]; intros [|y b]; simpl; try reflexivity.
  now rewrite IH.
Qed.

Lemma dot_app : forall a1 b1 a2 b2,
  length a1 = length b1 ->
  dot (a1 ++ a2) (b1 ++ b2) = dot a1 b1 + dot a2 b2.
Proof.
  induction a1 as [|x a1 IH]; intros [|y b1] a2 b2 H; simpl in *; try lia.
  rewrite IH by lia. lia.
Qed.

Lemma dot_split n a b :
  dot a b = dot (firstn n a) (firstn n b) + dot (skipn n a) (skipn n b).
Proof.
  rewrite !dot_combine, <- combine_firstn, combine_skipn.
  rewrite <- (firstn_skipn n (combine a b)) at 1.
  rewrite map_app. unfold sum_list. rewrite fold_right_app.
  generalize (map (fun p => fst p * snd p) (firstn n (combine a b))) as l.
  generalize (fold_right Z.add 0
                (map (fun p => fst p * snd p) (skipn n (combine a b)))) as z.
  induction l as [|x l IH]; simpl; lia.
Qed.

(** Where the products fit a [short], the low halves are the products. *)
Lemma mullo_exact M : forall x y,
  M <= 32767 -> products_within M x y ->
  _mm256_mullo_epi16 x y = lanewise Z.mul x y.
Proof.
  unfold _mm256_mullo_epi16, lanewise, products_within.
  intros x y HM H. apply map_ext_in. intros p Hp.
  rewrite Forall_forall in H. specialize (H p Hp).
  apply to_int16_id. unfold Int.is_int16. lia.
Qed.

(** Where the lane sums fit a [short], the saturating addition adds. *)
Lemma adds_exact B M : forall acc c,
  Forall (fun z => Z.abs z <= B) acc -> Forall (fun z => Z.abs z <= M) c ->
  B + M <= 32767 ->
  _mm256_adds_epi16 acc c = lanewise Z.add acc c /\
  Forall (fun z => Z.abs z <= B + M) (lanewise Z.add acc c).
Proof.
  unfold _mm256_adds_epi16, lanewise.
  induction acc as [|z acc IH]; intros c Hacc Hc HB.
  - simpl. split; [reflexivity|constructor].
  - destruct c as [|w c]; [simpl; split; [reflexivity|constructor]|].
    inversion Hacc as [|? ? Hz Hacc']; inversion Hc as [|? ? Hw Hc']; subst.
    destruct (IH c Hacc' Hc' HB) as [E F].
    simpl. rewrite E. split.
    + f_equal. apply sat_int16_id. unfold Int.is_int16. lia.
    + constructor; [lia|exact F].
Qed.

Lemma lanewise_mul_within M x y :
  products_within M x y -> Forall (fun z => Z.abs z <= M) (lanewise Z.mul x y).
Proof.
  unfold products_within, lanewise. intros H.
  apply Forall_map. exact H.
Qed.

Lemma lanewise_length {A B C} (f : A -> B -> C) a b :
  length (lanewise f a b) = Nat.min (length a) (length b).
Proof. unfold lanewise; now rewrite length_map, length_combine. Qed.

Lemma sum_lanewise_add : forall acc c,
  length acc = length c ->
  sum_list (lanewise Z.add acc c) = sum_list acc + sum_list c.
Proof.
  unfold lanewise.
  induction acc as [|z acc IH]; intros [|w c] H; simpl in *; try lia.
  rewrite IH by lia. lia.
Qed.

Lemma sum_lanewise_mul x y : sum_list (lanewise Z.mul x y) = dot x y.
Proof. now rewrite dot_combine. Qed.

(** The batched loop while nothing overflows: the lanes hold the sums of
    the products that went into them. *)
Lemma mul_and_acc_short_batches_exact M : forall n aPtr bPtr accumulator B,
  0 <= M -> 0 <= B -> B + Z.of_nat n * M <= 32767 ->
  length accumulator = 16%nat ->
  (16 * n <= length aPtr)%nat -> (16 * n <= length bPtr)%nat ->
  products_within M aPtr bPtr ->
  Forall (fun z => Z.abs z <= B) accumulator ->
  exists accumulator',
    mul_and_acc_short_batches n aPtr bPtr accumulator
    = (skipn (16 * n) aPtr, skipn (16 * n) bPtr, accumulator') /\
    length accumulator' = 16%nat /\
    Forall (fun z => Z.abs z <= B + Z.of_nat n * M) accumulator' /\
    sum_list accumulator'
    = sum_list accumulator + dot (firstn (16 * n) aPtr) (firstn (16 * n) bPtr).
Proof.
  induction n as [|n IH]; intros aPtr bPtr accumulator B HM HB Hfit Hlen Ha Hb Hprod Hacc.
  - exists accumulator. simpl. repeat split; try assumption.
    + eapply Forall_impl; [|exact Hacc]. simpl. intros; lia.
    + lia.
  - rewrite Nat2Z.inj_succ in Hfit.
    assert (Hn : 0 <= Z.of_nat n) by lia.
    assert (HM' : M <= 32767) by nia.
    cbn [mul_and_acc_short_batches]. unfold _mm256_loadu_si256.
    rewrite !loadu_firstn by lia.
    pose proof (products_within_firstn M 16 _ _ Hprod) as Hp16.
    rewrite (mullo_exact M) by assumption.
    destruct (adds_exact B M accumulator
                (lanewise Z.mul (firstn 16 aPtr) (firstn 16 bPtr)) Hacc
                (lanewise_mul_within _ _ _ Hp16) ltac:(nia)) as [E F].
    rewrite E.
    assert (L16 : length (lanewise Z.mul (firstn 16 aPtr) (firstn 16 bPtr)) = 16%nat).
    { rewrite lanewise_length, !length_firstn. lia. }
    destruct (IH (skipn 16 aPtr) (skipn 16 bPtr)
                (lanewise Z.add accumulator
                   (lanewise Z.mul (firstn 16 aPtr) (firstn 16 bPtr)))
                (B + M)) as (acc' & Eq & Hl & Hf & Hs).
    + lia.
    + lia.
    + lia.
    + rewrite lanewise_length, L16, Hlen. reflexivity.
    + rewrite length_skipn. lia.
    + rewrite length_skipn. lia.
    + now apply products_within_skipn.
    + exact F.
    + exists acc'. rewrite Eq, !skipn_skipn.
      replace (16 * n + 16)%nat with (16 * S n)%nat by lia.
      repeat split.
      * exact Hl.
      * rewrite Nat2Z.inj_succ.
        eapply Forall_impl; [|exact Hf]. simpl. intros; lia.
      * rewrite Hs, sum_lanewise_add by (rewrite L16, Hlen; reflexivity).
        rewrite sum_lanewise_mul.
        rewrite (dot_split 16 (firstn (16 * S n) aPtr) (firstn (16 * S n) bPtr)).
        rewrite !firstn_firstn, !firstn_skipn_comm.
        replace (Nat.min 16 (16 * S n)) with 16%nat by lia.
        replace (16 + 16 * n)%nat with (16 * S n)%nat by lia.
        replace (16 * S n - 16)%nat with (16 * n)%nat by lia.
        lia.
Qed.

Lemma fold_int_add_exact : forall l r,
  Forall (fun z => Z.abs z <= 32767) l ->
  Z.abs r + 32767 * Z.of_nat (length l) < 2 ^ 31 ->
  fold_left Int.add l r = r + sum_list l.
Proof.
  induction l as [|z l IH]; intros r Hf Hr.
  - simpl. lia.
  - inversion Hf as [|? ? Hz Hf']; subst.
    cbn [fold_left sum_list fold_right length] in *.
    rewrite Nat2Z.inj_succ in Hr.
    rewrite int_add_exact by (unfold Int.is_int32; lia).
    rewrite IH by (assumption || lia).
    unfold sum_list. lia.
Qed.

Lemma sum_list_within B : forall l,
  Forall (fun z => Z.abs z <= B) l -> Z.abs (sum_list l) <= B * Z.of_nat (length l).
Proof.
  induction l as [|z l IH]; intros Hf.
  - simpl. lia.
  - inversion Hf as [|? ? Hz Hf']; subst. specialize (IH Hf').
    cbn [sum_list fold_right length] in *. fold (sum_list l).
    rewrite Nat2Z.inj_succ. lia.
Qed.

Lemma hsum16_exact acc :
  length acc = 16%nat -> Forall (fun z => Z.abs z <= 32767) acc ->
  hsum16 acc = sum_list acc /\ Z.abs (sum_list acc) <= 16 * 32767.
Proof.
  intros Hl Hf. split.
  - destruct acc as [|z0 acc]; [discriminate Hl|].
    inversion Hf as [|? ? Hz Hf']; subst.
    transitivity (fold_left Int.add acc z0).
    + do 15 (destruct acc as [|? acc]; [discriminate Hl|]).
      destruct acc; [|discriminate Hl].
      unfold hsum16. cbn [nth fold_left]. reflexivity.
    + rewrite fold_int_add_exact; [reflexivity|assumption|].
      simpl in Hl. lia.
  - pose proof (sum_list_within 32767 acc Hf) as H. rewrite Hl in H. lia.
Qed.

(** The leftover loop while the [int] does not overflow. *)
Lemma mul_and_acc_short_rest_exact M : forall n aPtr bPtr r,
  0 <= M -> products_within M aPtr bPtr ->
  length aPtr = n -> length bPtr = n ->
  Z.abs r + Z.of_nat n * M < 2 ^ 31 ->
  mul_and_acc_short_rest n aPtr bPtr r = r + dot aPtr bPtr.
Proof.
  induction n as [|n IH]; intros aPtr bPtr r HM Hprod Ha Hb Hr.
  - destruct aPtr; [|discriminate]. simpl. lia.
  - destruct aPtr as [|x aPtr]; [discriminate|].
    destruct bPtr as [|y bPtr]; [discriminate|].
    unfold products_within in Hprod. simpl in Hprod.
    inversion Hprod as [|? ? Hxy Hprod']; subst. simpl in Hxy.
    rewrite Nat2Z.inj_succ in Hr.
    assert (Hn : 0 <= Z.of_nat n) by lia.
    cbn [mul_and_acc_short_rest hd tl dot].
    rewrite int_mul_exact by (unfold Int.is_int32; nia).
    rewrite int_add_exact by (unfold Int.is_int32; nia).
    rewrite IH; try assumption.
    + lia.
    + simpl in Ha; lia.
    + simpl in Hb; lia.
    + nia.
Qed.

Lemma repeat_zero_within n : Forall (fun z => Z.abs z <= 0) (repeat 0 n).
Proof. apply Forall_forall. intros z Hz. apply repeat_spec in Hz. subst. simpl. lia. Qed.

(** The 16-bit kernel on vectors whose products and lane sums fit. *)
Lemma mul_and_acc_short_exact (a b : list Z) (N M : Z) :
  Z.of_nat (length a) = N -> Z.of_nat (length b) = N ->
  0 <= M <= 32767 -> M * (N / 16) <= 32767 ->
  products_within M a b ->
  avx2_mul_and_acc_short a b N = dot a b.
Proof.
  intros Ha Hb HM Hfit Hprod.
  assert (HN : 0 <= N) by lia.
  pose proof (Z.div_pos N 16 HN ltac:(lia)) as Hq.
  pose proof (Z.mul_div_le N 16 ltac:(lia)) as Hq16.
  pose proof (Z.mod_pos_bound N 16 ltac:(lia)) as Hmod.
  pose proof (Z.div_mod N 16 ltac:(lia)) as Hdm.
  unfold avx2_mul_and_acc_short.
  destruct (mul_and_acc_short_batches_exact M (Z.to_nat (N / 16)) a b
              (_mm256_setzero_si256 16) 0) as (acc & E & Hl & Hf & Hs).
  - lia.
  - lia.
  - rewrite Z2Nat.id by lia. lia.
  - reflexivity.
  - lia.
  - lia.
  - exact Hprod.
  - apply repeat_zero_within.
  - rewrite E.
    rewrite Z2Nat.id in Hf by lia.
    destruct (hsum16_exact acc Hl) as [Hh Hbound].
    { eapply Forall_impl; [|exact Hf]. simpl. intros; lia. }
    rewrite Hh, Hs.
    rewrite (mul_and_acc_short_rest_exact M).
    + change (sum_list (_mm256_setzero_si256 16)) with 0.
      rewrite (dot_split (16 * Z.to_nat (N / 16)) a b). lia.
    + lia.
    + now apply products_within_skipn.
    + rewrite length_skipn. lia.
    + rewrite length_skipn. lia.
    + rewrite <- Hs. nia.
Qed.

(* ================================================================== *)
(** ** Multiply and accumulate, 32-bit floating point *)

Lemma mul_and_acc_fl32_rest_fold : forall n aPtr bPtr r,
  length aPtr = n -> length bPtr = n ->
  mul_and_acc_fl32_rest n aPtr bPtr r
  = fold_left (fun s p => (s + fst p * snd p)%F) (combine aPtr bPtr) r.
Proof.
  induction n as [|n IH]; intros aPtr bPtr r Ha Hb.
  - destruct aPtr; [reflexivity|discriminate].
  - destruct aPtr as [|x aPtr]; [discriminate|].
    destruct bPtr as [|y bPtr]; [discriminate|].
    cbn [mul_and_acc_fl32_rest hd tl combine fold_left fst snd].
    apply IH; simpl in *; lia.
Qed.

Lemma single_prec_pos : 0 < Single.prec.
Proof. reflexivity. Qed.

Lemma fold_left_cons8 {A B} (f : A -> B -> A) x0 x1 x2 x3 x4 x5 x6 x7 l r :
  fold_left f (x0 :: x1 :: x2 :: x3 :: x4 :: x5 :: x6 :: x7 :: l) r
  = fold_left f l (f (f (f (f (f (f (f (f r x0) x1) x2) x3) x4) x5) x6) x7).
Proof. reflexivity. Qed.

Lemma lanewise_from_repeat8 {A B C} (f : C -> B -> B) (g : A -> A -> B) (z : C)
  a0 a1 a2 a3 a4 a5 a6 a7 b0 b1 b2 b3 b4 b5 b6 b7 :
  lanewise f (repeat z 8)
    (lanewise g [a0; a1; a2; a3; a4; a5; a6; a7] [b0; b1; b2; b3; b4; b5; b6; b7])
  = [f z (g a0 b0); f z (g a1 b1); f z (g a2 b2); f z (g a3 b3);
     f z (g a4 b4); f z (g a5 b5); f z (g a6 b6); f z (g a7 b7)].
Proof. reflexivity. Qed.

Lemma loadu8 {A} (d : A) x0 x1 x2 x3 x4 x5 x6 x7 l :
  loadu d 8 (x0 :: x1 :: x2 :: x3 :: x4 :: x5 :: x6 :: x7 :: l)
  = [x0; x1; x2; x3; x4; x5; x6; x7].
Proof. rewrite !loadu_cons. reflexivity. Qed.

Local Abbreviation ok32 := (IEEE.exponent_ok Single.prec Single.emax).

Ltac not_neg_zero :=
  repeat first
    [ apply SFadd_zero_l_not_neg_zero
    | apply SFadd_zero_l_exponent
    | apply SFadd_not_neg_zero; [exact single_prec_pos | | | ]
    | apply SFadd_exponent
    | assumption ].

(** Lanes filled once from zero add up to the running sum of what went
    into them. *)
Lemma hsum8_from_zero p0 p1 p2 p3 p4 p5 p6 p7 :
  ok32 p0 -> ok32 p1 -> ok32 p2 -> ok32 p3 ->
  ok32 p4 -> ok32 p5 -> ok32 p6 -> ok32 p7 ->
  hsum8_ps [(Single.zero + p0)%F; (Single.zero + p1)%F; (Single.zero + p2)%F;
            (Single.zero + p3)%F; (Single.zero + p4)%F; (Single.zero + p5)%F;
            (Single.zero + p6)%F; (Single.zero + p7)%F]
  = (Single.zero + p0 + p1 + p2 + p3 + p4 + p5 + p6 + p7)%F.
Proof.
  intros H0 H1 H2 H3 H4 H5 H6 H7.
  unfold hsum8_ps. cbn [nth].
  unfold Single.add, Single.zero.
  rewrite (SFadd_zero_absorb Single.prec Single.emax _ p1) by not_neg_zero.
  rewrite (SFadd_zero_absorb Single.prec Single.emax _ p2) by not_neg_zero.
  rewrite (SFadd_zero_absorb Single.prec Single.emax _ p3) by not_neg_zero.
  rewrite (SFadd_zero_absorb Single.prec Single.emax _ p4) by not_neg_zero.
  rewrite (SFadd_zero_absorb Single.prec Single.emax _ p5) by not_neg_zero.
  rewrite (SFadd_zero_absorb Single.prec Single.emax _ p6) by not_neg_zero.
  rewrite (SFadd_zero_absorb Single.prec Single.emax _ p7) by not_neg_zero.
  reflexivity.
Qed.

(** Below sixteen elements the kernel adds in the order of the scalar
    loop. *)
Lemma mul_and_acc_fl32_short_vectors (a b : list spec_float) (N : Z) :
  Z.of_nat (length a) = N -> Z.of_nat (length b) = N -> N < 16 ->
  avx2_mul_and_acc_fl32 a b N = dot_fl32 a b.
Proof.
  intros Ha Hb HN.
  unfold avx2_mul_and_acc_fl32, dot_fl32.
  destruct (Z.lt_ge_cases N 8) as [H8|H8].
  - replace (N / 8) with 0 by (symmetry; apply Z.div_small; lia).
    cbn [Z.to_nat mul_and_acc_fl32_batches].
    rewrite mul_and_acc_fl32_rest_fold by lia.
    reflexivity.
  - replace (N / 8) with 1 by (apply Z.div_unique with (r := N - 8); lia).
    do 8 (destruct a as [|? a]; [simpl in Ha; lia|]).
    do 8 (destruct b as [|? b]; [simpl in Hb; lia|]).
    change (Z.to_nat 1) with 1%nat.
    cbn [mul_and_acc_fl32_batches skipn].
    unfold _mm256_loadu_ps. rewrite !loadu8.
    unfold _mm256_add_ps, _mm256_mul_ps, _mm256_setzero_ps.
    rewrite lanewise_from_repeat8.
    rewrite hsum8_from_zero by apply SFmul_exponent.
    rewrite mul_and_acc_fl32_rest_fold by (simpl in Ha, Hb; lia).
    cbn [combine]. rewrite fold_left_cons8.
    reflexivity.
Qed.

(* ================================================================== *)
(** ** The two kernels against their scalar references *)

(** C2, the claim on vectors of sixteen elements.  Sixteen products
    [256 * 256] leave the 16-bit kernel at 0, because each low half is 0,
    where the sum is 1048576 and a saturating 16-bit running sum is
    32767.  The floating-point kernel adds [2^24 + 1] in lane 0 before it
    meets [-2^24] in lane 1 and returns 0, where the scalar loop returns
    1, which is also the exact sum. *)
Lemma mul_and_acc_differs_at_sixteen :
  avx2_mul_and_acc_short (repeat 256 16) (repeat 256 16) 16 = 0 /\
  dot (repeat 256 16) (repeat 256 16) = 1048576 /\
  dot_sat16 (repeat 256 16) (repeat 256 16) = 32767 /\
  avx2_mul_and_acc_fl32 cancel_a cancel_b 16 = S754_zero false /\
  dot_fl32 cancel_a cancel_b = Single.of_Z 1.
Proof. vm_compute. repeat split; reflexivity. Qed.

(* ================================================================== *)
(** ** The rounding of the code replica generator *)

(** *** Doubles in canonical form *)

Lemma canonical_facts m e :
  canonical_mantissa Double.prec Double.emax m e = true ->
  Zpos (digits2_pos m) <= 53 /\ -1074 <= e /\
  (-1074 < e -> Zpos (digits2_pos m) = 53).
Proof.
  unfold canonical_mantissa, fexp, emin, Double.prec, Double.emax.
  intros H. apply Z.eqb_eq in H. lia.
Qed.

Lemma mantissa_bounds m e :
  canonical_mantissa Double.prec Double.emax m e = true ->
  Zpos m < 2 ^ 53 /\ (-1074 < e -> 2 ^ 52 <= Zpos m).
Proof.
  intros H. destruct (canonical_facts m e H) as (Hd & He & Hfull).
  pose proof (digits2_bounds m) as [Hlo Hhi].
  split.
  - eapply Z.lt_le_trans; [exact Hhi|]. apply Z.pow_le_mono_r; lia.
  - intros Hgt. rewrite (Hfull Hgt) in Hlo. exact Hlo.
Qed.

Lemma iter_xO_digits p k :
  Zpos (digits2_pos (Pos.iter xO p k)) = Zpos (digits2_pos p) + Zpos k.
Proof.
  induction k as [|k IH] using Pos.peano_ind.
  - cbn [Pos.iter digits2_pos]. lia.
  - rewrite Pos.iter_succ. cbn [digits2_pos]. lia.
Qed.

Lemma iter_xO_value p k : Zpos (Pos.iter xO p k) = Zpos p * 2 ^ Zpos k.
Proof.
  induction k as [|k IH] using Pos.peano_ind.
  - cbn [Pos.iter]. lia.
  - rewrite Pos.iter_succ, Pos2Z.inj_xO, IH, Pos2Z.inj_succ, Z.pow_succ_r by lia.
    ring.
Qed.

(** A mantissa of 53 digits in the exponent range is left as it is. *)
Lemma binary_round_aux_exact s m e :
  Zpos (digits2_pos m) = 53 -> -1074 <= e <= 971 ->
  binary_round_aux Double.prec Double.emax s (Zpos m) e loc_Exact
  = S754_finite s m e.
Proof.
  intros Hd He.
  assert (Hshift : forall l,
    shr_fexp Double.prec Double.emax (Zpos m) e l
    = (shr_record_of_loc (Zpos m) l, e)).
  { intros l. unfold shr_fexp. cbn [Zdigits2]. rewrite Hd.
    replace (fexp Double.prec Double.emax (53 + e) - e) with 0
      by (unfold fexp, emin, Double.prec, Double.emax; lia).
    reflexivity. }
  unfold binary_round_aux. rewrite Hshift.
  cbn [shr_record_of_loc shr_m loc_of_shr_record round_nearest_even].
  rewrite Hshift. cbn [shr_record_of_loc shr_m].
  replace (e <=? Double.emax - Double.prec) with true
    by (symmetry; apply Z.leb_le; unfold Double.prec, Double.emax; lia).
  reflexivity.
Qed.

(** A positive number below [2^53] converts exactly. *)
Lemma binary_round_int s p :
  Zpos p < 2 ^ 53 ->
  exists m e,
    binary_round Double.prec Double.emax s p 0 = S754_finite s m e /\
    e <= 0 /\ Zpos m = Zpos p * 2 ^ (- e) /\
    canonical_mantissa Double.prec Double.emax m e = true.
Proof.
  intros Hp.
  pose proof (digits2_bounds p) as [Hlo Hhi].
  assert (Hd : Zpos (digits2_pos p) <= 53).
  { destruct (Z.le_gt_cases (Zpos (digits2_pos p)) 53) as [H|H]; [exact H|].
    exfalso. assert (2 ^ 53 <= 2 ^ (Zpos (digits2_pos p) - 1))
      by (apply Z.pow_le_mono_r; lia). lia. }
  unfold binary_round.
  replace (fexp Double.prec Double.emax (Zpos (digits2_pos p) + 0))
    with (Zpos (digits2_pos p) - 53)
    by (unfold fexp, emin, Double.prec, Double.emax; lia).
  unfold shl_align.
  destruct (Zpos (digits2_pos p) - 53 - 0) as [|k|k] eqn:Ek; try lia.
  - exists p, 0. rewrite binary_round_aux_exact by lia.
    repeat split; try lia.
    unfold canonical_mantissa, fexp, emin, Double.prec, Double.emax.
    apply Z.eqb_eq. lia.
  - exists (Pos.iter xO p k), (Zpos (digits2_pos p) - 53).
    pose proof (iter_xO_digits p k) as Hdk.
    rewrite binary_round_aux_exact by lia.
    repeat split; try lia.
    + rewrite iter_xO_value. f_equal. f_equal. lia.
    + unfold canonical_mantissa, fexp, emin, Double.prec, Double.emax.
      apply Z.eqb_eq. lia.
Qed.

(** The conversion of an [int] to [double]. *)
Lemma of_Z_spec t :
  Z.abs t < 2 ^ 53 -> t <> 0 ->
  exists m e,
    Double.of_Z t = S754_finite (t <? 0) m e /\
    e <= 0 /\ IEEE.signed_mantissa (t <? 0) m = t * 2 ^ (- e) /\
    canonical_mantissa Double.prec Double.emax m e = true.
Proof.
  intros Ht Hnz. unfold Double.of_Z, binary_normalize.
  destruct t as [|p|p]; [contradiction| |].
  - destruct (binary_round_int false p Ht) as (m & e & E & He & Hm & Hc).
    exists m, e. rewrite E. repeat split; try assumption.
  - destruct (binary_round_int true p Ht) as (m & e & E & He & Hm & Hc).
    exists m, e. rewrite E. repeat split; try assumption.
    change (Zneg p <? 0) with true. cbn [IEEE.signed_mantissa cond_Zopp].
    rewrite Hm. lia.
Qed.

(** [<] on two canonical doubles below [2^53] in size orders them as the
    numbers they stand for. *)
Lemma ltb_correct s1 m1 e1 s2 m2 e2 :
  canonical_mantissa Double.prec Double.emax m1 e1 = true ->
  canonical_mantissa Double.prec Double.emax m2 e2 = true ->
  e1 <= 0 -> e2 <= 0 ->
  (S754_finite s1 m1 e1 <? S754_finite s2 m2 e2)%D = true <->
  IEEE.signed_mantissa s1 m1 * 2 ^ (- e2) < IEEE.signed_mantissa s2 m2 * 2 ^ (- e1).
Proof.
  intros H1 H2 He1 He2.
  destruct (mantissa_bounds m1 e1 H1) as [Hhi1 Hlo1].
  destruct (mantissa_bounds m2 e2 H2) as [Hhi2 Hlo2].
  destruct (canonical_facts m1 e1 H1) as (_ & Hmin1 & _).
  destruct (canonical_facts m2 e2 H2) as (_ & Hmin2 & _).
  assert (K1 : 0 < 2 ^ (- e1)) by (apply Z.pow_pos_nonneg; lia).
  assert (K2 : 0 < 2 ^ (- e2)) by (apply Z.pow_pos_nonneg; lia).
  assert (Hup : e1 < e2 -> Zpos m1 * 2 ^ (- e2) < Zpos m2 * 2 ^ (- e1)).
  { intros Hlt.
    replace (- e1) with ((e2 - e1) + - e2) by lia.
    rewrite Z.pow_add_r by lia.
    assert (2 ^ 1 <= 2 ^ (e2 - e1)) by (apply Z.pow_le_mono_r; lia).
    change (2 ^ 1) with 2 in *. specialize (Hlo2 ltac:(lia)).
    assert (Hm : Zpos m1 < 2 * Zpos m2)
      by (change (2 ^ 53) with (2 * 2 ^ 52) in Hhi1; lia).
    apply Z.lt_le_trans with (2 * Zpos m2 * 2 ^ (- e2)); nia. }
  assert (Hdown : e2 < e1 -> Zpos m2 * 2 ^ (- e1) < Zpos m1 * 2 ^ (- e2)).
  { intros Hlt.
    replace (- e2) with ((e1 - e2) + - e1) by lia.
    rewrite Z.pow_add_r by lia.
    assert (2 ^ 1 <= 2 ^ (e1 - e2)) by (apply Z.pow_le_mono_r; lia).
    change (2 ^ 1) with 2 in *. specialize (Hlo1 ltac:(lia)).
    assert (Hm : Zpos m2 < 2 * Zpos m1)
      by (change (2 ^ 53) with (2 * 2 ^ 52) in Hhi2; lia).
    apply Z.lt_le_trans with (2 * Zpos m1 * 2 ^ (- e1)); nia. }
  unfold Double.ltb, SFltb, SFcompare, IEEE.signed_mantissa.
  change (Pos.compare_cont Eq m1 m2) with (Pos.compare m1 m2).
  rewrite Pos2Z.inj_compare.
  destruct s1, s2; cbn [cond_Zopp].
  - destruct (Z.compare_spec e1 e2) as [E|E|E].
    + subst e2. destruct (Z.compare_spec (Zpos m1) (Zpos m2)); cbn [CompOpp];
        split; intros; try discriminate; try reflexivity; nia.
    + specialize (Hup E). split; intros; try discriminate; nia.
    + specialize (Hdown E). split; intros; try reflexivity; nia.
  - split; intros; [nia|reflexivity].
  - split; intros; [discriminate|nia].
  - destruct (Z.compare_spec e1 e2) as [E|E|E].
    + subst e2. destruct (Z.compare_spec (Zpos m1) (Zpos m2));
        split; intros; try discriminate; try reflexivity; nia.
    + specialize (Hup E). split; intros; try reflexivity; nia.
    + specialize (Hdown E). split; intros; try discriminate; nia.
Qed.

(** *** Truncation, ceiling and the comparison with the truncation *)

Lemma pow2_pos k : 0 < 2 ^ k \/ k < 0.
Proof.
  destruct (Z.le_gt_cases 0 k); [left; apply Z.pow_pos_nonneg; lia|right; lia].
Qed.

Lemma den_value s m e :
  Zpos (IEEE.den (S754_finite s m e)) = 2 ^ Z.max (- e) 0.
Proof.
  cbn [IEEE.den]. rewrite Z2Pos.id; [reflexivity|].
  apply Z.pow_pos_nonneg; lia.
Qed.

(** The truncation of a positive number is the floor of its fraction. *)
Lemma trunc_pos m e :
  IEEE.trunc (S754_finite false m e)
  = IEEE.num (S754_finite false m e) / Zpos (IEEE.den (S754_finite false m e)).
Proof.
  rewrite den_value. cbn [IEEE.trunc IEEE.num IEEE.signed_mantissa cond_Zopp].
  destruct (Z.le_gt_cases 0 e) as [He|He].
  - rewrite Z.shiftl_mul_pow2 by lia.
    rewrite !Z.max_l, Z.max_r by lia. change (2 ^ 0) with 1.
    now rewrite Z.div_1_r.
  - rewrite Z.shiftl_div_pow2 by lia.
    rewrite Z.max_r, Z.max_l by lia. change (2 ^ 0) with 1.
    now rewrite Z.mul_1_r.
Qed.

(** A canonical double whose truncation is small has no positive
    exponent. *)
Lemma small_exponent s m e :
  canonical_mantissa Double.prec Double.emax m e = true ->
  Z.abs (IEEE.trunc (S754_finite s m e)) < 2 ^ 52 -> e <= 0.
Proof.
  intros Hc Ht.
  destruct (Z.le_gt_cases e 0) as [He|He]; [exact He|exfalso].
  destruct (mantissa_bounds m e Hc) as [_ Hlo]. specialize (Hlo ltac:(lia)).
  cbn [IEEE.trunc] in Ht. rewrite Z.shiftl_mul_pow2 in Ht by lia.
  assert (0 < 2 ^ e) by (apply Z.pow_pos_nonneg; lia).
  change (2 ^ 52) with 4503599627370496 in *.
  destruct s; cbn [cond_Zopp] in Ht; nia.
Qed.

Lemma trunc_small s m e :
  e <= 0 ->
  IEEE.trunc (S754_finite s m e) = cond_Zopp s (Zpos m / 2 ^ (- e)) /\
  IEEE.num (S754_finite s m e) = IEEE.signed_mantissa s m /\
  Zpos (IEEE.den (S754_finite s m e)) = 2 ^ (- e).
Proof.
  intros He. rewrite den_value. cbn [IEEE.trunc IEEE.num].
  rewrite Z.shiftl_div_pow2 by lia.
  rewrite Z.max_r, Z.max_l by lia. change (2 ^ 0) with 1.
  repeat split; lia.
Qed.

(** The test [(T)x < x] of the source holds exactly when the truncation
    is below the number. *)
Lemma trunc_below s m e :
  canonical_mantissa Double.prec Double.emax m e = true ->
  e <= 0 -> Z.abs (IEEE.trunc (S754_finite s m e)) < 2 ^ 52 ->
  (Double.of_Z (IEEE.trunc (S754_finite s m e)) <? S754_finite s m e)%D = true
  <-> IEEE.trunc (S754_finite s m e) * 2 ^ (- e) < IEEE.signed_mantissa s m.
Proof.
  intros Hc He Ht.
  set (t := IEEE.trunc (S754_finite s m e)) in *.
  assert (K : 0 < 2 ^ (- e)) by (apply Z.pow_pos_nonneg; lia).
  destruct (Z.eq_dec t 0) as [E|E].
  - rewrite E. change (Double.of_Z 0) with (S754_zero false).
    unfold Double.ltb, SFltb, SFcompare, IEEE.signed_mantissa.
    destruct s; cbn [cond_Zopp]; split; intros; try discriminate;
      try reflexivity; lia.
  - destruct (of_Z_spec t ltac:(change (2 ^ 53) with (2 * 2 ^ 52); lia) E)
      as (mt & et & Eq & Het & Hmt & Hct).
    rewrite Eq, (ltb_correct _ _ _ _ _ _ Hct Hc Het He), Hmt.
    assert (Kt : 0 < 2 ^ (- et)) by (apply Z.pow_pos_nonneg; lia).
    split; intros; nia.
Qed.

Lemma to_int32_in_range x :
  IEEE.is_finite x = true -> - 2 ^ 31 <= IEEE.trunc x < 2 ^ 31 ->
  IEEE.to_int32 x = IEEE.trunc x.
Proof.
  intros Hf [Hlo Hhi]. unfold IEEE.to_int32. rewrite Hf.
  apply Z.leb_le in Hlo. apply Z.ltb_lt in Hhi. now rewrite Hlo, Hhi.
Qed.

(** Equal fractions have equal floors. *)
Lemma div_cross a b c d :
  0 < b -> 0 < d -> a * d = c * b -> a / b = c / d.
Proof.
  intros Hb Hd H.
  rewrite <- (Z.div_mul_cancel_r a b d) by lia.
  rewrite <- (Z.div_mul_cancel_r c d b) by lia.
  rewrite H. f_equal. lia.
Qed.

(** *** The sum [x + 1] *)

Lemma digits_from_bounds p k :
  2 ^ (k - 1) <= Zpos p < 2 ^ k -> Zpos (digits2_pos p) = k.
Proof.
  intros [Hlo Hhi]. pose proof (digits2_bounds p) as [Dlo Dhi].
  set (d := Zpos (digits2_pos p)) in *.
  assert (Hd : 1 <= d) by (unfold d; lia).
  destruct (Z.lt_trichotomy d k) as [H|[H|H]]; [exfalso|exact H|exfalso].
  - assert (2 ^ d <= 2 ^ (k - 1)) by (apply Z.pow_le_mono_r; lia). lia.
  - destruct (Z.le_gt_cases 0 k) as [Hk|Hk].
    + assert (2 ^ k <= 2 ^ (d - 1)) by (apply Z.pow_le_mono_r; lia). lia.
    + rewrite (Z.pow_neg_r 2 k) in Hhi by lia. lia.
Qed.

Lemma round_nearest_even_bounds m l :
  m <= round_nearest_even m l <= m + 1.
Proof.
  destruct l as [|[| |]]; cbn [round_nearest_even]; try lia.
  destruct (Z.even m); lia.
Qed.

(** The shift that brings a mantissa to the format divides it by a
    power of two. *)
Lemma shr_fexp_spec m e l :
  0 <= m ->
  let n := Z.max (fexp Double.prec Double.emax (Zdigits2 m + e) - e) 0 in
  shr_m (fst (shr_fexp Double.prec Double.emax m e l)) = m / 2 ^ n /\
  snd (shr_fexp Double.prec Double.emax m e l) = e + n.
Proof.
  intros Hm n. unfold shr_fexp.
  destruct (shr_spec (shr_record_of_loc m l) e
              (fexp Double.prec Double.emax (Zdigits2 m + e) - e)) as [E1 E2].
  { rewrite shr_record_of_loc_m. exact Hm. }
  rewrite shr_record_of_loc_m in E1. split; assumption.
Qed.

(** Rounding a mantissa of at least 53 digits: it is divided down to 53
    digits, stays or goes up by one, and is halved once more if that
    made it [2^53]. *)
Lemma binary_round_aux_bounds s M ez :
  53 <= Zpos (digits2_pos M) -> -1074 <= ez ->
  ez + Zpos (digits2_pos M) - 53 < 971 ->
  exists m3 e3 m2,
    binary_round_aux Double.prec Double.emax s (Zpos M) ez loc_Exact
    = S754_finite s m3 e3 /\
    Zpos M / 2 ^ (Zpos (digits2_pos M) - 53) <= m2
    <= Zpos M / 2 ^ (Zpos (digits2_pos M) - 53) + 1 /\
    ((e3 = ez + Zpos (digits2_pos M) - 53 /\ Zpos m3 = m2) \/
     (e3 = ez + Zpos (digits2_pos M) - 53 + 1 /\ Zpos m3 = m2 / 2)).
Proof.
  intros Hd Hez Hmax.
  pose proof (digits2_bounds M) as [Dlo Dhi].
  set (d := Zpos (digits2_pos M)) in *.
  set (n := d - 53).
  assert (Hn : 0 <= n) by (unfold n; lia).
  assert (Pn : 0 < 2 ^ n) by (apply Z.pow_pos_nonneg; lia).
  assert (E52 : 2 ^ (d - 1) = 2 ^ 52 * 2 ^ n).
  { unfold n. rewrite <- Z.pow_add_r by lia. f_equal. lia. }
  assert (E53 : 2 ^ d = 2 ^ n * 2 ^ 53).
  { unfold n. rewrite <- Z.pow_add_r by lia. f_equal. lia. }
  assert (Hm1 : 2 ^ 52 <= Zpos M / 2 ^ n < 2 ^ 53).
  { split.
    - apply Z.div_le_lower_bound; [exact Pn|]. rewrite Z.mul_comm, <- E52. exact Dlo.
    - apply Z.div_lt_upper_bound; [exact Pn|]. rewrite <- E53. exact Dhi. }
  unfold binary_round_aux.
  destruct (shr_fexp_spec (Zpos M) ez loc_Exact ltac:(lia)) as [S1 S2].
  cbn [Zdigits2] in S1, S2. fold d in S1, S2.
  replace (Z.max (fexp Double.prec Double.emax (d + ez) - ez) 0) with n in S1, S2
    by (unfold fexp, emin, Double.prec, Double.emax, n; lia).
  destruct (shr_fexp Double.prec Double.emax (Zpos M) ez loc_Exact) as [mrs' e'].
  cbn [fst snd] in S1, S2. subst e'.
  pose proof (round_nearest_even_bounds (shr_m mrs') (loc_of_shr_record mrs')) as Hr.
  set (m2 := round_nearest_even (shr_m mrs') (loc_of_shr_record mrs')) in *.
  rewrite S1 in Hr.
  assert (Hm2 : 2 ^ 52 <= m2 <= 2 ^ 53) by lia.
  destruct m2 as [|p2|p2] eqn:Em2; try lia.
  destruct (shr_fexp_spec (Zpos p2) (ez + n) loc_Exact ltac:(lia)) as [T1 T2].
  cbn [Zdigits2] in T1, T2.
  destruct (Z.eq_dec (Zpos p2) (2 ^ 53)) as [Etop|Etop].
  - (* the mantissa went up to 2^53 *)
    assert (Hd2 : Zpos (digits2_pos p2) = 54)
      by (apply digits_from_bounds; rewrite Etop; split; [reflexivity|reflexivity]).
    rewrite Hd2 in T1, T2.
    replace (Z.max (fexp Double.prec Double.emax (54 + (ez + n)) - (ez + n)) 0)
      with 1 in T1, T2
      by (unfold fexp, emin, Double.prec, Double.emax; lia).
    destruct (shr_fexp Double.prec Double.emax (Zpos p2) (ez + n) loc_Exact)
      as [mrs'' e''].
    cbn [fst snd] in T1, T2. subst e''. rewrite T1.
    change (2 ^ 1) with 2.
    assert (Hhalf : Zpos p2 / 2 = 2 ^ 52) by (rewrite Etop; reflexivity).
    rewrite Hhalf. change (2 ^ 52) with (Zpos 4503599627370496).
    cbv beta iota.
    replace (ez + n + 1 <=? Double.emax - Double.prec) with true
      by (symmetry; apply Z.leb_le; unfold Double.prec, Double.emax, n; lia).
    exists 4503599627370496%positive, (ez + n + 1), (Zpos p2).
    split; [reflexivity|]. split; [exact Hr|].
    right. split; [unfold n; lia|]. rewrite Hhalf. reflexivity.
  - assert (Hd2 : Zpos (digits2_pos p2) = 53)
      by (apply digits_from_bounds; change (53 - 1) with 52; lia).
    rewrite Hd2 in T1, T2.
    replace (Z.max (fexp Double.prec Double.emax (53 + (ez + n)) - (ez + n)) 0)
      with 0 in T1, T2
      by (unfold fexp, emin, Double.prec, Double.emax; lia).
    destruct (shr_fexp Double.prec Double.emax (Zpos p2) (ez + n) loc_Exact)
      as [mrs'' e''].
    cbn [fst snd] in T1, T2. subst e''. rewrite T1.
    change (2 ^ 0) with 1. rewrite Z.div_1_r.
    cbv beta iota.
    replace (ez + n + 0 <=? Double.emax - Double.prec) with true
      by (symmetry; apply Z.leb_le; unfold Double.prec, Double.emax, n; lia).
    exists p2, (ez + n + 0), (Zpos p2).
    split; [reflexivity|]. split; [exact Hr|].
    left. split; [unfold n; lia|reflexivity].
Qed.

Lemma shl_align_value m e e' :
  e' <= e -> Zpos (fst (shl_align m e e')) = Zpos m * 2 ^ (e - e').
Proof.
  intros He. unfold shl_align.
  destruct (e' - e) as [|k|k] eqn:Ek; try lia; cbn [fst].
  - replace (e - e') with 0 by lia. lia.
  - rewrite iter_xO_value. f_equal. f_equal. lia.
Qed.

Lemma one_literal : Double.one = S754_finite false 4503599627370496 (-52).
Proof. vm_compute. reflexivity. Qed.

Lemma add_positive m1 e1 m2 e2 :
  (S754_finite false m1 e1 + S754_finite false m2 e2)%D
  = binary_round Double.prec Double.emax false
      (fst (shl_align m1 e1 (Z.min e1 e2)) + fst (shl_align m2 e2 (Z.min e1 e2)))
      (Z.min e1 e2).
Proof. reflexivity. Qed.

Lemma binary_round_long s M ez :
  53 <= Zpos (digits2_pos M) -> -1074 <= ez ->
  binary_round Double.prec Double.emax s M ez
  = binary_round_aux Double.prec Double.emax s (Zpos M) ez loc_Exact.
Proof.
  intros Hd Hez. unfold binary_round, shl_align.
  destruct (fexp Double.prec Double.emax (Zpos (digits2_pos M) + ez) - ez)
    as [|k|k] eqn:Ek; try reflexivity.
  exfalso. unfold fexp, emin, Double.prec, Double.emax in Ek. lia.
Qed.

(** For a positive canonical [x] that is no integer and whose truncation
    [t] is below [2^31 - 2], the sum [x + 1] as the machine rounds it
    lies between [t + 1] and [t + 2]: its truncation is [t + 1] unless
    the sum is the integer [t + 2], and that takes an [x] closer to
    [t + 1] than [(t + 2) / 2^52]. *)
Lemma add_one_truncation m e :
  let x := S754_finite false m e in
  canonical_mantissa Double.prec Double.emax m e = true ->
  e <= 0 -> IEEE.trunc x < 2 ^ 31 - 2 ->
  IEEE.trunc x * 2 ^ (- e) < Zpos m ->
  IEEE.is_finite (x + Double.one)%D = true /\
  ((Qeq (IEEE.SF2Q (x + Double.one)%D) (inject_Z (IEEE.trunc x + 2)) /\
    IEEE.trunc (x + Double.one)%D = IEEE.trunc x + 2 /\
    ((IEEE.trunc x + 1) * 2 ^ (- e) - Zpos m) * 2 ^ 52
    < (IEEE.trunc x + 2) * 2 ^ (- e)) \/
   (~ Qeq (IEEE.SF2Q (x + Double.one)%D) (inject_Z (IEEE.trunc x + 2)) /\
    IEEE.trunc (x + Double.one)%D = IEEE.trunc x + 1)).
Proof.
  intros x Hc He Ht Hbelow.
  destruct (trunc_small false m e He) as (Etr & _ & _). fold x in Etr.
  cbn [cond_Zopp] in Etr.
  set (t := IEEE.trunc x) in *.
  set (D := 2 ^ (- e)) in *.
  assert (PD : 0 < D) by (apply Z.pow_pos_nonneg; lia).
  pose proof (Z.div_mod (Zpos m) D ltac:(lia)) as Hdm.
  pose proof (Z.mod_pos_bound (Zpos m) D PD) as Hmod.
  assert (Ht0 : 0 <= t) by (rewrite Etr; apply Z.div_pos; lia).
  destruct (canonical_facts m e Hc) as (_ & Hemin & _).
  (* the sum, before it is rounded *)
  unfold x. rewrite one_literal, add_positive.
  set (ez := Z.min e (-52)).
  assert (Hez : -1074 <= ez <= -52) by (unfold ez; lia).
  pose proof (shl_align_value m e ez ltac:(unfold ez; lia)) as Ea.
  pose proof (shl_align_value 4503599627370496 (-52) ez ltac:(unfold ez; lia)) as Eb.
  set (Q := 2 ^ (e - ez)) in *.
  assert (PQ : 0 < Q) by (apply Z.pow_pos_nonneg; unfold ez; lia).
  set (S := 2 ^ (- ez)).
  assert (ES : S = D * Q).
  { unfold S, D, Q. rewrite <- Z.pow_add_r by (unfold ez; lia). f_equal. lia. }
  assert (Eb' : Zpos 4503599627370496 * 2 ^ (-52 - ez) = S).
  { change (Zpos 4503599627370496) with (2 ^ 52). unfold S.
    rewrite <- Z.pow_add_r by lia. f_equal. lia. }
  rewrite Eb' in Eb.
  set (M := (fst (shl_align m e ez) + fst (shl_align 4503599627370496 (-52) ez))%positive).
  assert (EM : Zpos M = Zpos m * Q + S) by (unfold M; rewrite Pos2Z.inj_add; lia).
  assert (Hm : t * D < Zpos m < (t + 1) * D) by (split; [exact Hbelow|rewrite Etr; lia]).
  assert (H1 : t * D * Q < Zpos m * Q)
    by (apply Z.mul_lt_mono_pos_r; [exact PQ|apply Hm]).
  assert (H2 : Zpos m * Q < (t + 1) * D * Q)
    by (apply Z.mul_lt_mono_pos_r; [exact PQ|apply Hm]).
  assert (Hlo : (t + 1) * S < Zpos M) by (rewrite EM, ES; lia).
  assert (Hhi : Zpos M < (t + 2) * S) by (rewrite EM, ES; lia).
  assert (PS : 0 < S) by (unfold S; apply Z.pow_pos_nonneg; lia).
  assert (S52 : 2 ^ 52 <= S) by (unfold S; apply Z.pow_le_mono_r; lia).
  (* the number of digits of the sum *)
  pose proof (digits2_bounds M) as [Dlo Dhi].
  set (d := Zpos (digits2_pos M)) in *.
  assert (Hd1 : 1 <= d) by (unfold d; lia).
  assert (Hd : 53 <= d).
  { destruct (Z.le_gt_cases 53 d) as [H|H]; [exact H|exfalso].
    assert (2 ^ d <= 2 ^ 52) by (apply Z.pow_le_mono_r; lia). lia. }
  assert (Hde : d + ez <= 31).
  { destruct (Z.le_gt_cases (d + ez) 31) as [H|H]; [exact H|exfalso].
    assert (2 ^ (31 - ez) <= 2 ^ (d - 1)) by (apply Z.pow_le_mono_r; lia).
    assert (E31 : 2 ^ (31 - ez) = 2 ^ 31 * S)
      by (unfold S; rewrite <- Z.pow_add_r by lia; f_equal; lia).
    assert ((t + 2) * S <= 2 ^ 31 * S)
      by (apply Z.mul_le_mono_nonneg_r; lia).
    lia. }
  rewrite binary_round_long by (fold d; lia).
  destruct (binary_round_aux_bounds false M ez ltac:(fold d; lia) ltac:(lia)
              ltac:(fold d; lia)) as (m3 & e3 & m2 & Ey & Hm2 & Hcase).
  fold d in Hm2, Hcase. rewrite Ey.
  set (n := d - 53) in *.
  assert (Hn : 0 <= n) by (unfold n; lia).
  assert (Pn : 0 < 2 ^ n) by (apply Z.pow_pos_nonneg; lia).
  set (K := 2 ^ (- (ez + n))).
  assert (Hne : ez + n <= -22) by (unfold n; lia).
  assert (PK : 0 < K) by (unfold K; apply Z.pow_pos_nonneg; lia).
  assert (ESK : S = K * 2 ^ n).
  { unfold S, K. rewrite <- Z.pow_add_r by (unfold n; lia). f_equal. lia. }
  assert (B1 : (t + 1) * K <= Zpos M / 2 ^ n).
  { apply Z.div_le_lower_bound; [exact Pn|]. rewrite ESK in Hlo. lia. }
  assert (B2 : Zpos M / 2 ^ n < (t + 2) * K).
  { apply Z.div_lt_upper_bound; [exact Pn|]. rewrite ESK in Hhi. lia. }
  (* the rounded sum on its own grid *)
  assert (Hgrid : e3 <= 0 /\
                  (t + 1) * 2 ^ (- e3) <= Zpos m3 <= (t + 2) * 2 ^ (- e3) /\
                  (Zpos m3 = (t + 2) * 2 ^ (- e3) -> (t + 2) * K <= m2)).
  { destruct Hcase as [[E3 Em3]|[E3 Em3]].
    - replace (ez + d - 53) with (ez + n) in E3 by (unfold n; lia).
      rewrite E3. fold K. rewrite Em3. repeat split; lia.
    - replace (ez + d - 53 + 1) with (ez + n + 1) in E3 by (unfold n; lia).
      assert (EK : K = 2 ^ (- e3) * 2 ^ 1).
      { unfold K. rewrite <- Z.pow_add_r by lia. f_equal. lia. }
      change (2 ^ 1) with 2 in EK.
      assert (P3 : 0 < 2 ^ (- e3)) by (apply Z.pow_pos_nonneg; lia).
      pose proof (Z.mul_div_le m2 2 ltac:(lia)) as Hhalf.
      rewrite EK in B1, B2.
      rewrite Em3. split; [lia|]. split; [split|].
      + apply Z.div_le_lower_bound; lia.
      + apply Z.div_le_upper_bound; lia.
      + intros Htop. rewrite EK. lia. }
  destruct Hgrid as (He3 & [G1 G2] & Gtop).
  set (K3 := 2 ^ (- e3)) in *.
  assert (PK3 : 0 < K3) by (unfold K3; apply Z.pow_pos_nonneg; lia).
  destruct (trunc_small false m3 e3 He3) as (Ty & Ny & Dy).
  cbn [cond_Zopp IEEE.signed_mantissa] in Ty, Ny. fold K3 in Ty, Dy.
  split; [reflexivity|].
  assert (Hq : Qeq (IEEE.SF2Q (S754_finite false m3 e3)) (inject_Z (t + 2))
               <-> Zpos m3 = (t + 2) * K3).
  { unfold Qeq, IEEE.SF2Q, inject_Z. cbn [Qnum Qden].
    rewrite Ny, Dy. lia. }
  destruct (Z.eq_dec (Zpos m3) ((t + 2) * K3)) as [Etop|Etop].
  - left. split; [apply Hq; exact Etop|].
    split; [rewrite Ty, Etop; apply Z.div_mul; lia|].
    (* how close to [t + 1] the number has to be *)
    specialize (Gtop Etop).
    pose proof (Z.mul_div_le (Zpos M) (2 ^ n) Pn) as Hfloor.
    assert (E52 : 2 ^ (d - 1) = 2 ^ 52 * 2 ^ n).
    { unfold n. rewrite <- Z.pow_add_r by lia. f_equal. lia. }
    set (P := 2 ^ n) in *. set (c52 := 2 ^ 52) in *.
    assert (P52 : 0 < c52) by reflexivity.
    assert (A1 : (t + 2) * K * P <= (Zpos M / P + 1) * P)
      by (apply Z.mul_le_mono_nonneg_r; lia).
    assert (A2 : (t + 2) * S - Zpos M <= P) by (rewrite ESK; lia).
    assert (A3 : ((t + 2) * S - Zpos M) * c52 <= P * c52)
      by (apply Z.mul_le_mono_nonneg_r; lia).
    assert (Hgap : ((t + 2) * S - Zpos M) * c52 < (t + 2) * S) by lia.
    rewrite EM, ES in Hgap.
    apply (Z.mul_lt_mono_pos_r Q); [exact PQ|]. clearbody c52. lia.
  - right. split; [rewrite Hq; exact Etop|].
    rewrite Ty. symmetry. apply Z.div_unique with (r := Zpos m3 - (t + 1) * K3); lia.
Qed.

(** The rounding rule on a canonical number, for a cast that gives the
    truncation: the ceiling, or one more when the sum [x + 1] of a
    positive [x] that is no integer rounds to the next integer. *)
Lemma round_up_finite (cast : spec_float -> Z) s m e :
  let x := S754_finite s m e in
  canonical_mantissa Double.prec Double.emax m e = true ->
  - 2 ^ 31 <= IEEE.trunc x < 2 ^ 31 - 2 ->
  cast x = IEEE.trunc x ->
  let c := Qceiling (IEEE.SF2Q x) in
  let up := (inject_Z (IEEE.trunc x) < IEEE.SF2Q x)%Q /\
            Qeq (IEEE.SF2Q (x + Double.one)%D) (inject_Z (c + 1)) in
  (up -> round_up cast x = c + 1) /\ (~ up -> round_up cast x = c) /\
  (up -> ((inject_Z c - IEEE.SF2Q x) * inject_Z (2 ^ 52) < inject_Z (c + 1))%Q).
Proof.
  intros x Hc Hr Hcast c up.
  assert (He : e <= 0)
    by (apply (small_exponent s m e Hc); fold x;
        change (2 ^ 52) with 4503599627370496; lia).
  destruct (trunc_small s m e He) as (Ht & Hn & Hd). fold x in Ht, Hn, Hd.
  pose proof (trunc_below s m e Hc He
                ltac:(fold x; change (2 ^ 52) with 4503599627370496; lia)) as Hcond.
  fold x in Hcond.
  set (D := 2 ^ (- e)) in *.
  assert (K : 0 < D) by (apply Z.pow_pos_nonneg; lia).
  set (N := IEEE.signed_mantissa s m) in *.
  assert (Hceil : c = - ((- N) / D)).
  { unfold c, Qceiling, Qfloor, IEEE.SF2Q. cbn [Qopp Qnum Qden].
    rewrite Hn, Hd. reflexivity. }
  assert (Hlt : (inject_Z (IEEE.trunc x) < IEEE.SF2Q x)%Q <-> IEEE.trunc x * D < N).
  { unfold Qlt, IEEE.SF2Q, inject_Z. cbn [Qnum Qden]. rewrite Hn, Hd. lia. }
  pose proof (Z.div_mod N D ltac:(lia)) as HNdm.
  pose proof (Z.mod_pos_bound N D K) as HNmod.
  pose proof (Z.div_mod (- N) D ltac:(lia)) as HMdm.
  pose proof (Z.mod_pos_bound (- N) D K) as HMmod.
  pose proof (Z.div_mod (Zpos m) D ltac:(lia)) as Hmdm.
  pose proof (Z.mod_pos_bound (Zpos m) D K) as Hmmod.
  unfold round_up. rewrite Hcast.
  destruct (Double.of_Z (IEEE.trunc x) <? x)%D eqn:Eb.
  - (* the truncation is below: x is positive and no integer *)
    clear Eb. assert (Eb : IEEE.trunc x * D < N) by (apply Hcond; reflexivity).
    assert (Hs : s = false).
    { destruct s; [|reflexivity]. exfalso.
      unfold N, IEEE.signed_mantissa in *. cbn [cond_Zopp] in *. nia. }
    subst s. unfold N, IEEE.signed_mantissa in *. cbn [cond_Zopp] in *.
    assert (Ec : c = IEEE.trunc x + 1) by (rewrite Hceil, Ht; nia).
    destruct (add_one_truncation m e Hc He ltac:(fold x; lia) Eb)
      as (Hfin & Hsum). fold x in Hfin, Hsum. fold D in Hsum.
    assert (Hrange : forall k, k = IEEE.trunc x + 1 \/ k = IEEE.trunc x + 2 ->
                               - 2 ^ 31 <= k < 2 ^ 31) by (intros k [E|E]; lia).
    assert (Hgap : ((inject_Z c - IEEE.SF2Q x) * inject_Z (2 ^ 52)
                    < inject_Z (c + 1))%Q
                   <-> ((IEEE.trunc x + 1) * D - Zpos m) * 2 ^ 52
                       < (IEEE.trunc x + 2) * D).
    { rewrite Ec. unfold Qlt, Qmult, Qminus, Qplus, Qopp, IEEE.SF2Q, inject_Z.
      cbn [Qnum Qden]. rewrite !Pos.mul_1_l, !Pos.mul_1_r, Hn, Hd. lia. }
    assert (Hnext : inject_Z (c + 1) = inject_Z (IEEE.trunc x + 2))
      by (rewrite Ec; f_equal; lia).
    assert (Hthird : up -> ((inject_Z c - IEEE.SF2Q x) * inject_Z (2 ^ 52)
                            < inject_Z (c + 1))%Q).
    { intros [_ Hq]. apply Hgap. rewrite Hnext in Hq.
      destruct Hsum as [(_ & _ & G2)|[Q1 _]]; [exact G2|contradiction]. }
    split; [|split; [|exact Hthird]]; unfold up; rewrite Hnext, Ec.
    + intros [_ Hq]. destruct Hsum as [(_ & T2 & _)|[Q1 _]]; [|contradiction].
      rewrite to_int32_in_range; [lia|exact Hfin|].
      rewrite T2. apply Hrange. now right.
    + intros Hnot. destruct Hsum as [(Q2 & _ & _)|[_ T1]].
      * exfalso. apply Hnot. split; [apply Hlt; exact Eb|exact Q2].
      * rewrite to_int32_in_range; [lia|exact Hfin|].
        rewrite T1. apply Hrange. now left.
  - (* the truncation is not below: the index is the truncation *)
    assert (Hnot : ~ IEEE.trunc x * D < N)
      by (intros H; apply Hcond in H; discriminate).
    split; [|split].
    + intros [Hup _]. exfalso. apply Hnot, Hlt, Hup.
    + intros _.
      rewrite to_int32_in_range; [|reflexivity|lia].
      rewrite Hceil. rewrite Ht in *. unfold N, IEEE.signed_mantissa in *.
      destruct s; cbn [cond_Zopp] in *.
      * replace (- Zneg m) with (Zpos m) by lia. reflexivity.
      * nia.
    + intros [Hup _]. exfalso. apply Hnot, Hlt, Hup.
Qed.

Lemma round_up_zero s :
  round_up IEEE.to_int16 (S754_zero s) = 0 /\
  round_up IEEE.to_int32 (S754_zero s) = 0 /\
  Qceiling (IEEE.SF2Q (S754_zero s)) = 0.
Proof. destruct s; vm_compute; repeat split; reflexivity. Qed.

(** The rule with the cast to [int32_t] of the kernel. *)
Lemma round_up_int32 x :
  Double.valid x = true -> IEEE.is_finite x = true ->
  - 2 ^ 31 <= IEEE.trunc x < 2 ^ 31 - 2 ->
  let c := Qceiling (IEEE.SF2Q x) in
  let up := (inject_Z (IEEE.trunc x) < IEEE.SF2Q x)%Q /\
            Qeq (IEEE.SF2Q (x + Double.one)%D) (inject_Z (c + 1)) in
  (up -> round_up IEEE.to_int32 x = c + 1) /\
  (~ up -> round_up IEEE.to_int32 x = c) /\
  (up -> ((inject_Z c - IEEE.SF2Q x) * inject_Z (2 ^ 52) < inject_Z (c + 1))%Q).
Proof.
  intros Hv Hf Hr c up.
  destruct x as [s|s| |s m e]; try discriminate Hf.
  - destruct (round_up_zero s) as (_ & H32 & Hq).
    subst up c. rewrite H32, Hq.
    assert (Hno : ~ (inject_Z (IEEE.trunc (S754_zero s)) < IEEE.SF2Q (S754_zero s))%Q)
      by (destruct s; vm_compute; discriminate).
    split; [|split]; [intros [Hlt _]; contradiction|reflexivity|
                      intros [Hlt _]; contradiction].
  - unfold Double.valid, valid_binary, bounded in Hv.
    apply andb_prop in Hv as [Hc _].
    apply round_up_finite; try assumption.
    apply to_int32_in_range; [reflexivity|lia].
Qed.

(** The cast to [short] of the driver gives the same index while the
    truncation fits a [short]. *)
Lemma round_up_int16 x :
  IEEE.is_finite x = true -> -32768 <= IEEE.trunc x <= 32767 ->
  round_up IEEE.to_int16 x = round_up IEEE.to_int32 x.
Proof.
  intros Hf Hr. unfold round_up, IEEE.to_int16.
  rewrite (to_int32_in_range x Hf) by lia.
  rewrite to_int16_id by (unfold Int.is_int16; lia).
  reflexivity.
Qed.

(** C4, the claim at the largest double below 1 as the code phase of
    sample 0: a canonical, nonnegative number that is no integer and
    whose ceiling is 1, for which [baseCode + 1] rounds to 2 and both
    generators take 2 as the prompt index. *)
Lemma prompt_index_below_one :
  Double.valid below_one = true /\
  (Double.of_Z 0 * nominal_codePhaseStep + below_one)%D = below_one /\
  Qceiling (IEEE.SF2Q below_one) = 1 /\
  (below_one + Double.one)%D = Double.of_Z 2 /\
  snd (fst (nom_code_indices 0 nominal_codePhaseStep below_one)) = 2 /\
  fst (fst (code_sample small_cfg nominal_codePhaseStep below_one 0)) = 2.
Proof. vm_compute. repeat split; reflexivity. Qed.

(** C4, as the code has it.  Both generators compute the prompt, early
    and late index of a sample by one rule, [(T)x < x ? x + 1 : x] stored
    into an [int], applied to [baseCode], [baseCode - spacing] and
    [baseCode + spacing] as computed in [double] ([T] is [short] in the
    driver and [int32_t] in [avx2_nom_code_si32], the spacing is
    configured in the driver and 0.5 in [avx2_nom_code_si32]).  For a
    canonical finite [x] whose truncation lies in [[-2^31, 2^31 - 2)] the
    rule with the cast to [int32_t] gives the ceiling of [x], hence [x]
    itself when [x] is an integer, but in one case: when [x] is positive
    and no integer and the sum [x + 1], as the machine rounds it, is the
    integer above the ceiling; there it gives the ceiling plus one.  That
    takes an [x] closer to its ceiling [c] than [(c + 1) / 2^52]; every
    other [x] gets its ceiling.  With the cast to [short] the rule gives
    the same index as long as the truncation fits a [short]. *)
Theorem code_index_is_ceiling :
  (forall cfg codePhaseStep remCodePhase i,
     let baseCode := (Double.of_Z i * codePhaseStep + remCodePhase)%D in
     code_sample cfg codePhaseStep remCodePhase i
     = (round_up IEEE.to_int16 baseCode,
        round_up IEEE.to_int16 (baseCode - earlyLateSpc cfg)%D,
        round_up IEEE.to_int16 (baseCode + earlyLateSpc cfg)%D)) /\
  (forall inda codePhaseStep rem_code_phase,
     let baseCode := (Double.of_Z inda * codePhaseStep + rem_code_phase)%D in
     nom_code_indices inda codePhaseStep rem_code_phase
     = (round_up IEEE.to_int32 (baseCode - Double.half)%D,
        round_up IEEE.to_int32 baseCode,
        round_up IEEE.to_int32 (baseCode + Double.half)%D)) /\
  (forall x,
     Double.valid x = true -> IEEE.is_finite x = true ->
     - 2 ^ 31 <= IEEE.trunc x < 2 ^ 31 - 2 ->
     let c := Qceiling (IEEE.SF2Q x) in
     let up := (inject_Z (IEEE.trunc x) < IEEE.SF2Q x)%Q /\
               Qeq (IEEE.SF2Q (x + Double.one)%D) (inject_Z (c + 1)) in
     (up -> round_up IEEE.to_int32 x = c + 1) /\
     (~ up -> round_up IEEE.to_int32 x = c) /\
     ((inject_Z (c + 1) <= (inject_Z c - IEEE.SF2Q x) * inject_Z (2 ^ 52))%Q ->
      round_up IEEE.to_int32 x = c) /\
     (forall n : Z, Qeq (IEEE.SF2Q x) (inject_Z n) -> round_up IEEE.to_int32 x = n) /\
     (-32768 <= IEEE.trunc x <= 32767 ->
      round_up IEEE.to_int16 x = round_up IEEE.to_int32 x)).
Proof.
  split; [reflexivity|]. split; [reflexivity|].
  intros x Hv Hf Hr c up.
  destruct (round_up_int32 x Hv Hf Hr) as (Hup & Hnot & Hgap).
  fold c in Hup, Hnot, Hgap.
  split; [exact Hup|]. split; [exact Hnot|]. split.
  { intros Hfar. apply Hnot. intros H. apply Hgap in H.
    apply (Qlt_not_le _ _ H). exact Hfar. }
  split.
  - intros n Hn.
    assert (Hc : c = n) by (unfold c; rewrite Hn; apply Qceiling_Z).
    rewrite <- Hc. apply Hnot. intros [Hlt _].
    assert (Ht : IEEE.trunc x = n).
    { destruct x as [s|s| |s m e]; try discriminate Hf.
      - unfold Qeq, IEEE.SF2Q, inject_Z in Hn. cbn in Hn. cbn. lia.
      - unfold Double.valid, valid_binary, bounded in Hv.
        apply andb_prop in Hv as [Hcm _].
        assert (He : e <= 0)
          by (apply (small_exponent s m e Hcm);
              change (2 ^ 52) with 4503599627370496; lia).
        destruct (trunc_small s m e He) as (Ht & Hnum & Hden).
        unfold Qeq, IEEE.SF2Q, inject_Z in Hn. cbn [Qnum Qden] in Hn.
        rewrite Hnum, Hden in Hn. rewrite Ht.
        assert (0 < 2 ^ (- e)) by (apply Z.pow_pos_nonneg; lia).
        unfold IEEE.signed_mantissa in Hn.
        destruct s; cbn [cond_Zopp] in *.
        + assert (Zpos m = (- n) * 2 ^ (- e)) by lia.
          replace (Zpos m) with ((- n) * 2 ^ (- e)).
          rewrite Z.div_mul by lia. lia.
        + replace (Zpos m) with (n * 2 ^ (- e)) by lia.
          apply Z.div_mul. lia. }
    rewrite Ht, Hn in Hlt. revert Hlt. apply Qlt_irrefl.
  - intros Hs. now apply round_up_int16.
Qed.

Lemma code_index_is_ceiling_witness :
  Double.valid (Double.decimal 1 10) = true /\
  - 2 ^ 31 <= IEEE.trunc (Double.decimal 1 10) < 2 ^ 31 - 2 /\
  Qceiling (IEEE.SF2Q (Double.decimal 1 10)) = 1 /\
  round_up IEEE.to_int32 (Double.decimal 1 10) = 1 /\
  round_up IEEE.to_int16 (Double.decimal 1 10) = 1 /\
  round_up IEEE.to_int32 below_one = 1 + 1.
Proof.
  assert (Hv : Double.valid (Double.decimal 1 10) = true) by (vm_compute; reflexivity).
  assert (Hr : - 2 ^ 31 <= IEEE.trunc (Double.decimal 1 10) < 2 ^ 31 - 2)
    by (vm_compute; split; [discriminate|reflexivity]).
  assert (Hc : Qceiling (IEEE.SF2Q (Double.decimal 1 10)) = 1)
    by (vm_compute; reflexivity).
  destruct code_index_is_ceiling as (_ & _ & H).
  destruct (H (Double.decimal 1 10) Hv ltac:(reflexivity) Hr)
    as (_ & _ & H32 & _ & H16).
  destruct (H below_one ltac:(vm_compute; reflexivity) ltac:(reflexivity)
              ltac:(vm_compute; split; [discriminate|reflexivity]))
    as (Hup & _).
  split; [exact Hv|]. split; [exact Hr|]. split; [exact Hc|].
  assert (E32 : round_up IEEE.to_int32 (Double.decimal 1 10) = 1).
  { rewrite <- Hc. apply H32. rewrite Hc. vm_compute. discriminate. }
  split; [exact E32|]. split.
  - rewrite H16; [exact E32|]. vm_compute. split; discriminate.
  - replace (1 + 1) with (Qceiling (IEEE.SF2Q below_one) + 1) by (vm_compute; reflexivity).
    apply Hup. split; vm_compute; reflexivity.
Defined.

(* ================================================================== *)
(** ** The carrier oscillator in closed form *)

Lemma phase_index p : Z.land (Z.shiftr p 24) 255 = (p mod 2 ^ 32) / 2 ^ 24.
Proof.
  change 255 with (Z.ones 8).
  rewrite Z.land_ones, Z.shiftr_div_pow2 by lia.
  change (2 ^ 32) with (2 ^ 24 * 2 ^ 8).
  rewrite Z.rem_mul_r by lia.
  pose proof (Z.mod_pos_bound p (2 ^ 24) ltac:(lia)) as H.
  apply Z.div_unique with (r := p mod 2 ^ 24); lia.
Qed.

Lemma phase_index_range p : 0 <= (p mod 2 ^ 32) / 2 ^ 24 < 256.
Proof.
  pose proof (Z.mod_pos_bound p (2 ^ 32) ltac:(lia)) as H.
  split; [apply Z.div_pos; lia|].
  apply Z.div_lt_upper_bound; [lia|]. change (2 ^ 24 * 256) with (2 ^ 32). lia.
Qed.

Lemma to_uint32_idem x : Int.to_uint32 (Int.to_uint32 x) = Int.to_uint32 x.
Proof. unfold Int.to_uint32. apply Z.mod_mod. lia. Qed.

Lemma to_uint32_add_l x y :
  Int.to_uint32 (Int.to_uint32 x + y) = Int.to_uint32 (x + y).
Proof. unfold Int.to_uint32. apply Z.add_mod_idemp_l. lia. Qed.

Lemma to_uint32_add_r x y :
  Int.to_uint32 (x + Int.to_uint32 y) = Int.to_uint32 (x + y).
Proof. unfold Int.to_uint32. apply Z.add_mod_idemp_r. lia. Qed.

Lemma to_uint32_small x : 0 <= x < 2 ^ 32 -> Int.to_uint32 x = x.
Proof. intros H. apply Z.mod_small. exact H. Qed.

(** Reading an unsigned lane as [int] and back loses nothing. *)
Lemma to_uint32_to_int32 x : Int.to_uint32 (Int.to_int32 x) = Int.to_uint32 x.
Proof.
  unfold Int.to_uint32, Int.to_int32.
  rewrite <- Zminus_mod_idemp_l, Z.mod_mod by lia.
  rewrite Zminus_mod_idemp_l. f_equal. lia.
Qed.

Lemma seq_from a : forall len k,
  seq (a + k) len = map (fun i => (a + i)%nat) (seq k len).
Proof.
  induction len as [|len IH]; intros k; [reflexivity|].
  cbn [seq map]. f_equal. rewrite <- Nat.add_succ_r. apply IH.
Qed.

Lemma nco_sample_shift lut base step d i :
  nco_sample lut (Int.to_uint32 (base + d * step)) step i
  = nco_sample lut base step (d + i).
Proof.
  unfold nco_sample, Int.to_uint32.
  rewrite Z.add_mod_idemp_l by lia.
  replace (base + d * step + i * step) with (base + (d + i) * step) by ring.
  reflexivity.
Qed.

Lemma nco_sample_first lut base step :
  nth (Z.to_nat (Z.land (Z.shiftr base 24) 255)) lut 0 = nco_sample lut base step 0.
Proof.
  rewrite phase_index. unfold nco_sample.
  replace (base + 0 * step) with base by ring. reflexivity.
Qed.

(** The per-sample loop: sample [i] comes from the phase after [i]
    steps. *)
Lemma nom_nco_si32_loop_closed n : forall lut base step sig_nco,
  nom_nco_si32_loop n lut base step sig_nco
  = sig_nco ++ map (fun i => nco_sample lut base step (Z.of_nat i)) (seq 0 n).
Proof.
  induction n as [|n IH]; intros lut base step sig_nco.
  - simpl. now rewrite app_nil_r.
  - cbn [nom_nco_si32_loop]. rewrite IH, <- app_assoc. f_equal.
    cbn [seq map app]. f_equal.
    + apply nco_sample_first.
    + rewrite <- seq_shift, map_map. apply map_ext. intros i.
      replace (base + step) with (base + 1 * step) by ring.
      rewrite nco_sample_shift. f_equal. lia.
Qed.

Lemma nco_si32_rest_is_loop n : forall lut base step sig_nco,
  nco_si32_rest n lut base step sig_nco
  = nom_nco_si32_loop n lut base step sig_nco.
Proof.
  induction n as [|n IH]; intros; cbn [nco_si32_rest nom_nco_si32_loop];
    [reflexivity|apply IH].
Qed.

Lemma lane_sample lut b step k :
  nth (Z.to_nat (Int.to_int32 (Z.shiftr (Int.to_uint32 (b + k * step)) 24))) lut 0
  = nco_sample lut b step k.
Proof.
  unfold nco_sample, Int.to_uint32.
  rewrite Z.shiftr_div_pow2 by lia.
  rewrite to_int32_id; [reflexivity|].
  pose proof (phase_index_range (b + k * step)). unfold Int.is_int32. lia.
Qed.

Lemma lane_advance b step k :
  Int.to_uint32 (Int.to_uint32 (b + k * step) + Int.to_uint32 (8 * step))
  = Int.to_uint32 (b + 8 * step + k * step).
Proof.
  rewrite to_uint32_add_l, to_uint32_add_r. f_equal. ring.
Qed.

(** The loop over whole registers: after [n] turns the register holds
    the phases of the next eight samples and [8 n] samples are out. *)
Lemma nco_si32_batches_closed n : forall lut b step sig_nco,
  nco_si32_batches n lut (lane_phases b step) (_mm256_set1_epi32 (8 * step)) sig_nco
  = (lane_phases (b + 8 * Z.of_nat n * step) step,
     sig_nco ++ map (fun i => nco_sample lut b step (Z.of_nat i)) (seq 0 (8 * n))).
Proof.
  induction n as [|n IH]; intros lut b step sig_nco.
  - cbn [nco_si32_batches Nat.mul seq map]. rewrite app_nil_r.
    do 2 f_equal. lia.
  - cbn [nco_si32_batches].
    assert (Hnext : _mm256_add_epi32 (lane_phases b step) (_mm256_set1_epi32 (8 * step))
                    = lane_phases (b + 8 * step) step).
    { unfold _mm256_add_epi32, lanewise, lane_phases, _mm256_set1_epi32.
      cbn [map repeat combine fst snd]. rewrite !lane_advance. reflexivity. }
    assert (Hout : _mm256_i32gather_epi32 lut (_mm256_srli_epi32 (lane_phases b step) 24)
                   = map (fun i => nco_sample lut b step (Z.of_nat i)) (seq 0 8)).
    { unfold _mm256_i32gather_epi32, _mm256_srli_epi32, lane_phases.
      cbn [map seq]. rewrite !lane_sample. reflexivity. }
    rewrite Hnext, Hout, IH, <- app_assoc.
    f_equal.
    + f_equal. lia.
    + f_equal. replace (8 * S n)%nat with (8 + 8 * n)%nat by lia.
      rewrite seq_app, map_app. f_equal.
      change (0 + 8)%nat with (8 + 0)%nat.
      rewrite (seq_from 8 (8 * n) 0), map_map. apply map_ext. intros i.
      unfold nco_sample.
      replace (b + 8 * step + Z.of_nat i * step)
        with (b + Z.of_nat (8 + i) * step) by lia.
      reflexivity.
Qed.

Lemma initial_phases base step :
  _mm256_add_epi32 (_mm256_set1_epi32 base)
    (_mm256_set_epi32 (7 * step) (6 * step) (5 * step) (4 * step)
                      (3 * step) (2 * step) (1 * step) (0 * step))
  = lane_phases base step.
Proof.
  unfold _mm256_add_epi32, lanewise, _mm256_set1_epi32, _mm256_set_epi32, lane_phases.
  cbn [map repeat combine fst snd].
  rewrite !to_uint32_add_l, !to_uint32_add_r. reflexivity.
Qed.

(** The batched generator on fixed-point arguments: whole registers give
    the samples of the per-sample generator, the leftover samples are
    those seven places further on. *)
Lemma avx2_nco_si32_fixed_closed lut blk_size base step :
  0 <= blk_size < 2 ^ 31 ->
  avx2_nco_si32_fixed lut blk_size base step
  = map (fun i => nco_sample lut base step (Z.of_nat i))
      (seq 0 (8 * Z.to_nat (blk_size / 8)))
    ++ map (fun i => nco_sample lut base step (Z.of_nat i + 7))
         (seq (8 * Z.to_nat (blk_size / 8)) (Z.to_nat (blk_size mod 8))).
Proof.
  intros Hn.
  pose proof (Z.div_mod blk_size 8 ltac:(lia)) as Hdm.
  pose proof (Z.mod_pos_bound blk_size 8 ltac:(lia)) as Hmod.
  assert (Hq : 0 <= blk_size / 8) by (apply Z.div_pos; lia).
  unfold avx2_nco_si32_fixed.
  rewrite Z.quot_div_nonneg by lia.
  rewrite (to_uint32_small (blk_size / 8)) by lia.
  rewrite initial_phases, nco_si32_batches_closed.
  rewrite Z2Nat.id by lia.
  rewrite to_int32_id by (unfold Int.is_int32; lia).
  replace (blk_size - blk_size / 8 * 8) with (blk_size mod 8) by lia.
  rewrite nco_si32_rest_is_loop, nom_nco_si32_loop_closed.
  cbn [app]. f_equal.
  unfold _mm256_extract_epi32, lane_phases. cbn [map nth].
  rewrite to_uint32_to_int32, to_uint32_idem.
  set (q := Z.to_nat (blk_size / 8)).
  rewrite <- (Nat.add_0_r (8 * q)) at 1.
  rewrite seq_from, map_map. apply map_ext. intros i.
  replace (base + 8 * (blk_size / 8) * step + 7 * step)
    with (base + (8 * (blk_size / 8) + 7) * step) by ring.
  rewrite nco_sample_shift. f_equal. unfold q. lia.
Qed.

Lemma nco_sample_in lut base step i :
  length lut = 256%nat -> In (nco_sample lut base step i) lut.
Proof.
  intros Hlen. unfold nco_sample. apply nth_In.
  pose proof (phase_index_range (base + i * step)). lia.
Qed.

(** [avx2_nom_nco_si32], for every table, block size and [double]
    arguments: sample [i] is the table entry selected by the top eight
    bits of [base + i * step] reduced modulo [2^32]; a block size that is
    not positive gives no sample. *)
Theorem nom_nco_si32_samples :
  forall (lut : list Z) (blk_size : Z) (rem_carr_phase carr_freq samp_freq : spec_float),
    avx2_nom_nco_si32 lut blk_size rem_carr_phase carr_freq samp_freq
    = map (fun i => nco_sample lut (nco_phase_base rem_carr_phase)
                      (nco_step carr_freq samp_freq) (Z.of_nat i))
        (seq 0 (Z.to_nat blk_size)).
Proof.
  intros. unfold avx2_nom_nco_si32, avx2_nom_nco_si32_fixed.
  apply nom_nco_si32_loop_closed.
Qed.

(** [avx2_nco_si32], for a block size that fits an [int]: the samples
    written from whole registers, the first [8 * (blk_size / 8)], are
    those of the phases [base + i * step]; each of the [blk_size mod 8]
    leftover samples is that of the phase [base + (i + 7) * step]. *)
Theorem nco_si32_samples :
  forall (lut : list Z) (blk_size : Z) (rem_carr_phase carr_freq samp_freq : spec_float),
    0 <= blk_size < 2 ^ 31 ->
    avx2_nco_si32 lut blk_size rem_carr_phase carr_freq samp_freq
    = map (fun i => nco_sample lut (nco_phase_base rem_carr_phase)
                      (nco_step carr_freq samp_freq) (Z.of_nat i))
        (seq 0 (8 * Z.to_nat (blk_size / 8)))
      ++ map (fun i => nco_sample lut (nco_phase_base rem_carr_phase)
                         (nco_step carr_freq samp_freq) (Z.of_nat i + 7))
           (seq (8 * Z.to_nat (blk_size / 8)) (Z.to_nat (blk_size mod 8))).
Proof.
  intros. unfold avx2_nco_si32. now apply avx2_nco_si32_fixed_closed.
Qed.

Lemma nco_si32_samples_witness :
  0 <= 9 < 2 ^ 31 /\
  avx2_nco_si32 ramp_lut 9 Double.zero Double.one (Double.of_Z 256)
  = map (fun i => nco_sample ramp_lut (nco_phase_base Double.zero)
                    (nco_step Double.one (Double.of_Z 256)) (Z.of_nat i))
      (seq 0 (8 * Z.to_nat (9 / 8)))
    ++ map (fun i => nco_sample ramp_lut (nco_phase_base Double.zero)
                       (nco_step Double.one (Double.of_Z 256)) (Z.of_nat i + 7))
         (seq (8 * Z.to_nat (9 / 8)) (Z.to_nat (9 mod 8))).
Proof.
  split; [lia|].
  apply (nco_si32_samples ramp_lut 9 Double.zero Double.one (Double.of_Z 256)). lia.
Defined.

(** On a block of whole registers, a multiple of eight samples, the
    batched and the per-sample generator write the same samples, whatever
    the table and the [double] arguments. *)
Theorem nco_si32_whole_registers :
  forall (lut : list Z) (blk_size : Z) (rem_carr_phase carr_freq samp_freq : spec_float),
    0 <= blk_size < 2 ^ 31 -> blk_size mod 8 = 0 ->
    avx2_nco_si32 lut blk_size rem_carr_phase carr_freq samp_freq
    = avx2_nom_nco_si32 lut blk_size rem_carr_phase carr_freq samp_freq.
Proof.
  intros lut blk_size r c s Hn Hm.
  unfold avx2_nco_si32, avx2_nom_nco_si32, avx2_nom_nco_si32_fixed.
  rewrite avx2_nco_si32_fixed_closed, nom_nco_si32_loop_closed by exact Hn.
  rewrite Hm. cbn [Z.to_nat seq map app]. rewrite app_nil_r.
  do 2 f_equal.
  pose proof (Z.div_mod blk_size 8 ltac:(lia)). lia.
Qed.

Lemma nco_si32_whole_registers_witness :
  0 <= 16 < 2 ^ 31 /\ 16 mod 8 = 0 /\
  avx2_nco_si32 ramp_lut 16 Double.zero Double.one (Double.of_Z 256)
  = avx2_nom_nco_si32 ramp_lut 16 Double.zero Double.one (Double.of_Z 256).
Proof.
  split; [lia|]. split; [reflexivity|].
  apply (nco_si32_whole_registers ramp_lut 16 Double.zero Double.one (Double.of_Z 256));
    [lia|reflexivity].
Defined.

(** With a table of 256 entries both generators write [blk_size] samples
    and every sample is an entry of the table: the index, the top eight
    bits of a 32-bit phase, never leaves the table. *)
Theorem nco_si32_within_table :
  forall (lut : list Z) (blk_size : Z) (rem_carr_phase carr_freq samp_freq : spec_float),
    length lut = 256%nat -> 0 <= blk_size < 2 ^ 31 ->
    let batched := avx2_nco_si32 lut blk_size rem_carr_phase carr_freq samp_freq in
    let nominal := avx2_nom_nco_si32 lut blk_size rem_carr_phase carr_freq samp_freq in
    length batched = Z.to_nat blk_size /\ length nominal = Z.to_nat blk_size /\
    Forall (fun v => In v lut) batched /\ Forall (fun v => In v lut) nominal.
Proof.
  intros lut blk_size r c s Hlen Hn batched nominal.
  subst batched nominal.
  rewrite nco_si32_samples, nom_nco_si32_samples by exact Hn.
  pose proof (Z.div_mod blk_size 8 ltac:(lia)) as Hdm.
  pose proof (Z.mod_pos_bound blk_size 8 ltac:(lia)) as Hmod.
  assert (Hq : 0 <= blk_size / 8) by (apply Z.div_pos; lia).
  repeat split.
  - rewrite length_app, !length_map, !length_seq. lia.
  - rewrite length_map, length_seq. reflexivity.
  - apply Forall_app. split; apply Forall_map, Forall_forall; intros i _;
      now apply nco_sample_in.
  - apply Forall_map, Forall_forall. intros i _. now apply nco_sample_in.
Qed.

Lemma nco_si32_within_table_witness :
  length ramp_lut = 256%nat /\ 0 <= 19 < 2 ^ 31 /\
  length (avx2_nco_si32 ramp_lut 19 Double.zero Double.one (Double.of_Z 256))
  = Z.to_nat 19 /\
  Forall (fun v => In v ramp_lut)
    (avx2_nco_si32 ramp_lut 19 Double.zero Double.one (Double.of_Z 256)).
Proof.
  split; [reflexivity|]. split; [lia|].
  destruct (nco_si32_within_table ramp_lut 19 Double.zero Double.one (Double.of_Z 256)
              ltac:(reflexivity) ltac:(lia)) as (H1 & _ & H3 & _).
  split; [exact H1|exact H3].
Defined.

(* ================================================================== *)
(** ** The carrier oscillator on tables of [float] *)

Lemma nco_index_shift base step d i :
  nco_index (Int.to_uint32 (base + d * step)) step i = nco_index base step (d + i).
Proof.
  unfold nco_index, Int.to_uint32.
  rewrite Z.add_mod_idemp_l by lia.
  replace (base + d * step + i * step) with (base + (d + i) * step) by ring.
  reflexivity.
Qed.

Lemma nco_fl32_loop_closed n : forall lut base step sig_nco,
  nco_fl32_loop n lut base step sig_nco
  = sig_nco
    ++ map (fun i => nth (Z.to_nat (nco_index base step (Z.of_nat i))) lut Single.zero)
         (seq 0 n).
Proof.
  induction n as [|n IH]; intros lut base step sig_nco.
  - simpl. now rewrite app_nil_r.
  - cbn [nco_fl32_loop]. rewrite IH, <- app_assoc. f_equal.
    cbn [seq map app]. f_equal.
    + rewrite phase_index. unfold nco_index.
      replace (base + Z.of_nat 0 * step) with base by (cbn; ring). reflexivity.
    + rewrite <- seq_shift, map_map. apply map_ext. intros i.
      replace (base + step) with (base + 1 * step) by ring.
      rewrite nco_index_shift. do 3 f_equal. lia.
Qed.

Lemma lane_sample_fl32 (lut : list spec_float) b step k :
  nth (Z.to_nat (Int.to_int32
                   (Z.land (Z.shiftr (Int.to_uint32 (b + k * step)) 24)
                           (Int.to_uint32 255)))) lut Single.zero
  = nth (Z.to_nat (nco_index b step k)) lut Single.zero.
Proof.
  change (Int.to_uint32 255) with 255.
  rewrite phase_index. unfold nco_index, Int.to_uint32.
  rewrite Z.mod_mod by lia.
  rewrite to_int32_id; [reflexivity|].
  pose proof (phase_index_range (b + k * step)). unfold Int.is_int32. lia.
Qed.

Lemma nco_fl32_batches_closed n : forall lut b step sig_nco,
  nco_fl32_batches n lut (lane_phases b step) (_mm256_set1_epi32 (8 * step))
    (_mm256_set_epi32 255 255 255 255 255 255 255 255) sig_nco
  = (lane_phases (b + 8 * Z.of_nat n * step) step,
     sig_nco
     ++ map (fun i => nth (Z.to_nat (nco_index b step (Z.of_nat i))) lut Single.zero)
          (seq 0 (8 * n))).
Proof.
  induction n as [|n IH]; intros lut b step sig_nco.
  - cbn [nco_fl32_batches Nat.mul seq map]. rewrite app_nil_r.
    do 2 f_equal. lia.
  - cbn [nco_fl32_batches].
    assert (Hnext : _mm256_add_epi32 (lane_phases b step) (_mm256_set1_epi32 (8 * step))
                    = lane_phases (b + 8 * step) step).
    { unfold _mm256_add_epi32, lanewise, lane_phases, _mm256_set1_epi32.
      cbn [map repeat combine fst snd]. rewrite !lane_advance. reflexivity. }
    assert (Hout : _mm256_i32gather_ps lut
                     (_mm256_and_si256 (_mm256_srli_epi32 (lane_phases b step) 24)
                        (_mm256_set_epi32 255 255 255 255 255 255 255 255))
                   = map (fun i => nth (Z.to_nat (nco_index b step (Z.of_nat i)))
                                     lut Single.zero) (seq 0 8)).
    { unfold _mm256_i32gather_ps, _mm256_and_si256, _mm256_srli_epi32, lane_phases,
        _mm256_set_epi32, lanewise.
      cbn [map seq combine fst snd]. rewrite !lane_sample_fl32. reflexivity. }
    rewrite Hnext, Hout, IH, <- app_assoc.
    f_equal.
    + f_equal. lia.
    + f_equal. replace (8 * S n)%nat with (8 + 8 * n)%nat by lia.
      rewrite seq_app, map_app. f_equal.
      change (0 + 8)%nat with (8 + 0)%nat.
      rewrite (seq_from 8 (8 * n) 0), map_map. apply map_ext. intros i.
      unfold nco_index.
      replace (b + 8 * step + Z.of_nat i * step)
        with (b + Z.of_nat (8 + i) * step) by lia.
      reflexivity.
Qed.

(** The generators on a table of [float] read the table at the places
    where those on a table of [int] do: [avx2_nom_nco_fl32] at the index
    of the phase [base + i * step] for sample [i]; [avx2_nco_fl32] there
    too for the samples of whole registers, and seven steps further on
    for each leftover sample. *)
Theorem nco_fl32_samples :
  forall (lut : list spec_float) (blk_size : Z)
         (rem_carr_phase carr_freq samp_freq : spec_float),
    0 <= blk_size < 2 ^ 31 ->
    let base := nco_phase_base rem_carr_phase in
    let step := nco_step carr_freq samp_freq in
    let entry i := nth (Z.to_nat (nco_index base step i)) lut Single.zero in
    avx2_nom_nco_fl32 lut blk_size rem_carr_phase carr_freq samp_freq
    = map (fun i => entry (Z.of_nat i)) (seq 0 (Z.to_nat blk_size)) /\
    avx2_nco_fl32 lut blk_size rem_carr_phase carr_freq samp_freq
    = map (fun i => entry (Z.of_nat i)) (seq 0 (8 * Z.to_nat (blk_size / 8)))
      ++ map (fun i => entry (Z.of_nat i + 7))
           (seq (8 * Z.to_nat (blk_size / 8)) (Z.to_nat (blk_size mod 8))).
Proof.
  intros lut blk_size r c s Hn base step entry.
  split.
  - unfold avx2_nom_nco_fl32. apply nco_fl32_loop_closed.
  - pose proof (Z.div_mod blk_size 8 ltac:(lia)) as Hdm.
    pose proof (Z.mod_pos_bound blk_size 8 ltac:(lia)) as Hmod.
    assert (Hq : 0 <= blk_size / 8) by (apply Z.div_pos; lia).
    unfold avx2_nco_fl32. fold base. fold step.
    rewrite Z.quot_div_nonneg by lia.
    rewrite (to_uint32_small (blk_size / 8)) by lia.
    rewrite initial_phases, nco_fl32_batches_closed.
    rewrite Z2Nat.id by lia.
    rewrite to_int32_id by (unfold Int.is_int32; lia).
    replace (blk_size - blk_size / 8 * 8) with (blk_size mod 8) by lia.
    rewrite nco_fl32_loop_closed.
    cbn [app]. f_equal.
    unfold _mm256_extract_epi32, lane_phases. cbn [map nth].
    rewrite to_uint32_to_int32, to_uint32_idem.
    set (q := Z.to_nat (blk_size / 8)).
    rewrite <- (Nat.add_0_r (8 * q)) at 1.
    rewrite seq_from, map_map. apply map_ext. intros i.
    replace (base + 8 * (blk_size / 8) * step + 7 * step)
      with (base + (8 * (blk_size / 8) + 7) * step) by ring.
    rewrite nco_index_shift. unfold entry. do 3 f_equal. unfold q. lia.
Qed.

Lemma nco_fl32_samples_witness :
  0 <= 9 < 2 ^ 31 /\
  avx2_nom_nco_fl32 (map Single.of_Z ramp_lut) 9 Double.zero Double.one (Double.of_Z 256)
  = map (fun i => nth (Z.to_nat (nco_index (nco_phase_base Double.zero)
                                   (nco_step Double.one (Double.of_Z 256))
                                   (Z.of_nat i)))
                    (map Single.of_Z ramp_lut) Single.zero)
      (seq 0 (Z.to_nat 9)).
Proof.
  split; [lia|].
  apply (nco_fl32_samples (map Single.of_Z ramp_lut) 9 Double.zero Double.one
           (Double.of_Z 256)).
  lia.
Defined.

(* ================================================================== *)
(** ** Element by element products *)

Lemma firstn_add {A} n m (l : list A) :
  firstn (n + m) l = firstn n l ++ firstn m (skipn n l).
Proof.
  revert l. induction n as [|n IH]; intros l; [reflexivity|].
  destruct l as [|x l]; [now rewrite skipn_nil, !firstn_nil|].
  cbn [Nat.add firstn skipn app]. now rewrite IH.
Qed.

Lemma lanewise_skipn {A B C} (f : A -> B -> C) n a b :
  lanewise f (skipn n a) (skipn n b) = skipn n (lanewise f a b).
Proof. unfold lanewise. now rewrite combine_skipn, skipn_map. Qed.

Lemma lanewise_firstn {A B C} (f : A -> B -> C) n a b :
  lanewise f (firstn n a) (firstn n b) = firstn n (lanewise f a b).
Proof. unfold lanewise. now rewrite <- combine_firstn, firstn_map. Qed.

Lemma lanewise_loadu {A B} (f : A -> A -> B) d n a b :
  (n <= length a)%nat -> (n <= length b)%nat ->
  lanewise f (loadu d n a) (loadu d n b) = firstn n (lanewise f a b).
Proof.
  intros Ha Hb. rewrite !loadu_firstn by assumption. apply lanewise_firstn.
Qed.

Lemma lanewise_cons {A B C} (f : A -> B -> C) x a y b :
  lanewise f (x :: a) (y :: b) = f x y :: lanewise f a b.
Proof. reflexivity. Qed.

Lemma to_int16_to_int32 z : Int.to_int16 (Int.to_int32 z) = Int.to_int16 z.
Proof.
  unfold Int.to_int16, Int.to_int32. f_equal.
  replace (((z + 2 ^ 31) mod 2 ^ 32 - 2 ^ 31 + 2 ^ 15))
    with ((z + 2 ^ 15) + - (2 ^ 16 * (2 ^ 16 * ((z + 2 ^ 31) / 2 ^ 32)))).
  - rewrite <- Z.mul_opp_r, Z.mul_comm, Z.mod_add by lia. reflexivity.
  - pose proof (Z.div_mod (z + 2 ^ 31) (2 ^ 32) ltac:(lia)). lia.
Qed.

Lemma to_int32_to_uint32 z : Int.to_int32 (Int.to_uint32 z) = Int.to_int32 z.
Proof.
  unfold Int.to_int32, Int.to_uint32.
  rewrite Z.add_mod_idemp_l by lia. reflexivity.
Qed.

Lemma storeu_mullo_epi32 a b :
  storeu_int (_mm256_mullo_epi32 a b) = products Int.to_int32 a b.
Proof.
  unfold storeu_int, _mm256_mullo_epi32, products, lanewise.
  rewrite map_map. apply map_ext. intros p. apply to_int32_to_uint32.
Qed.

Lemma skipn_skipn' {A} n m (l : list A) : skipn n (skipn m l) = skipn (m + n) l.
Proof.
  revert l. induction m as [|m IH]; intros l; [reflexivity|].
  destruct l as [|x l]; [now rewrite !skipn_nil|]. apply IH.
Qed.

Lemma length_skipn_le {A} n m (l : list A) :
  (n + m <= length l)%nat -> (m <= length (skipn n l))%nat.
Proof. rewrite length_skipn. lia. Qed.

Lemma mul_short_batches_closed n : forall aPtr bPtr cOut,
  (16 * n <= length aPtr)%nat -> (16 * n <= length bPtr)%nat ->
  mul_short_batches n aPtr bPtr cOut
  = (skipn (16 * n) aPtr, skipn (16 * n) bPtr,
     cOut ++ firstn (16 * n) (products Int.to_int16 aPtr bPtr)).
Proof.
  induction n as [|n IH]; intros aPtr bPtr cOut Ha Hb.
  - cbn [mul_short_batches Nat.mul skipn firstn]. now rewrite app_nil_r.
  - cbn [mul_short_batches].
    rewrite IH by (apply length_skipn_le; lia).
    rewrite !skipn_skipn'.
    replace (16 + 16 * n)%nat with (16 * S n)%nat by lia.
    f_equal. rewrite <- app_assoc. f_equal.
    unfold _mm256_mullo_epi16, _mm256_loadu_si256.
    rewrite lanewise_loadu by lia.
    unfold products. rewrite lanewise_skipn.
    replace (16 * S n)%nat with (16 + 16 * n)%nat by lia.
    now rewrite firstn_add.
Qed.

Lemma mul_short_rest_closed n : forall aPtr bPtr cOut,
  (n <= length aPtr)%nat -> (n <= length bPtr)%nat ->
  mul_short_rest n aPtr bPtr cOut
  = cOut ++ firstn n (products Int.to_int16 aPtr bPtr).
Proof.
  induction n as [|n IH]; intros aPtr bPtr cOut Ha Hb.
  - cbn [mul_short_rest firstn]. now rewrite app_nil_r.
  - destruct aPtr as [|x aPtr]; [simpl in Ha; lia|].
    destruct bPtr as [|y bPtr]; [simpl in Hb; lia|].
    cbn [mul_short_rest hd tl]. rewrite IH by (simpl in Ha, Hb; lia).
    rewrite <- app_assoc. f_equal.
    unfold products. rewrite lanewise_cons. cbn [firstn app].
    f_equal. unfold Int.mul. apply to_int16_to_int32.
Qed.

Lemma si32_x2_mul_batches_closed n : forall aPtr bPtr cOut,
  (8 * n <= length aPtr)%nat -> (8 * n <= length bPtr)%nat ->
  si32_x2_mul_batches n aPtr bPtr cOut
  = (skipn (8 * n) aPtr, skipn (8 * n) bPtr,
     cOut ++ firstn (8 * n) (products Int.to_int32 aPtr bPtr)).
Proof.
  induction n as [|n IH]; intros aPtr bPtr cOut Ha Hb.
  - cbn [si32_x2_mul_batches Nat.mul skipn firstn]. now rewrite app_nil_r.
  - cbn [si32_x2_mul_batches].
    rewrite IH by (apply length_skipn_le; lia).
    rewrite !skipn_skipn'.
    replace (8 + 8 * n)%nat with (8 * S n)%nat by lia.
    f_equal. rewrite <- app_assoc. f_equal.
    rewrite storeu_mullo_epi32. unfold _mm256_loadu_si256, products.
    rewrite lanewise_loadu by lia.
    rewrite lanewise_skipn.
    replace (8 * S n)%nat with (8 + 8 * n)%nat by lia.
    now rewrite firstn_add.
Qed.

Lemma si32_x2_mul_rest_closed n : forall aPtr bPtr cOut,
  (n <= length aPtr)%nat -> (n <= length bPtr)%nat ->
  si32_x2_mul_rest n aPtr bPtr cOut
  = cOut ++ firstn n (products Int.to_int32 aPtr bPtr).
Proof.
  induction n as [|n IH]; intros aPtr bPtr cOut Ha Hb.
  - cbn [si32_x2_mul_rest firstn]. now rewrite app_nil_r.
  - destruct aPtr as [|x aPtr]; [simpl in Ha; lia|].
    destruct bPtr as [|y bPtr]; [simpl in Hb; lia|].
    cbn [si32_x2_mul_rest hd tl]. rewrite IH by (simpl in Ha, Hb; lia).
    rewrite <- app_assoc. reflexivity.
Qed.

Lemma fl32_x2_mul_batches_closed n : forall aPtr bPtr cOut,
  (8 * n <= length aPtr)%nat -> (8 * n <= length bPtr)%nat ->
  fl32_x2_mul_batches n aPtr bPtr cOut
  = cOut ++ firstn (8 * n) (lanewise Single.mul aPtr bPtr).
Proof.
  induction n as [|n IH]; intros aPtr bPtr cOut Ha Hb.
  - cbn [fl32_x2_mul_batches Nat.mul firstn]. now rewrite app_nil_r.
  - cbn [fl32_x2_mul_batches].
    rewrite IH by (apply length_skipn_le; lia).
    rewrite <- app_assoc. f_equal.
    unfold _mm256_mul_ps, _mm256_loadu_ps.
    rewrite lanewise_loadu by lia.
    rewrite lanewise_skipn.
    replace (8 * S n)%nat with (8 + 8 * n)%nat by lia.
    now rewrite firstn_add.
Qed.

(** What a count splits into: whole registers of [L] lanes and a rest. *)
Lemma split_count L N :
  0 < L -> 0 <= N ->
  (Z.to_nat L * Z.to_nat (N / L) + Z.to_nat (N - N / L * L))%nat = Z.to_nat N.
Proof.
  intros HL HN.
  pose proof (Z.div_mod N L ltac:(lia)) as Hdm.
  pose proof (Z.mod_pos_bound N L ltac:(lia)) as Hmod.
  assert (0 <= N / L) by (apply Z.div_pos; lia).
  nia.
Qed.

Lemma written_length {A B} (f : A -> A -> B) N a b :
  (N <= length a)%nat -> (N <= length b)%nat ->
  length (firstn N (lanewise f a b)) = N.
Proof.
  intros Ha Hb. rewrite length_firstn, lanewise_length. lia.
Qed.

(** [avx2_mul_short], for vectors that hold [num_points] elements: the
    first [num_points] elements of the output are the products reduced to
    16 bits, whether a register or the leftover loop wrote them, and the
    elements behind them are left as they were. *)
Theorem mul_short_products :
  forall (cVector aVector bVector : list Z) (num_points : Z),
    0 <= num_points ->
    (Z.to_nat num_points <= length aVector)%nat ->
    (Z.to_nat num_points <= length bVector)%nat ->
    avx2_mul_short cVector aVector bVector num_points
    = firstn (Z.to_nat num_points) (products Int.to_int16 aVector bVector)
      ++ skipn (Z.to_nat num_points) cVector.
Proof.
  intros c a b N HN Ha Hb.
  pose proof (split_count 16 N ltac:(lia) HN) as Hs.
  change (Z.to_nat 16) with 16%nat in Hs.
  unfold avx2_mul_short.
  rewrite mul_short_batches_closed by lia.
  rewrite mul_short_rest_closed by (apply length_skipn_le; lia).
  cbn [app]. unfold products at 2. rewrite lanewise_skipn.
  fold (products Int.to_int16 a b).
  rewrite <- firstn_add, Hs.
  unfold write_front. unfold products. now rewrite written_length.
Qed.

Lemma mul_short_products_witness :
  0 <= 17 /\
  avx2_mul_short (repeat 5 20) (repeat 300 17) (repeat 300 17) 17
  = firstn (Z.to_nat 17) (products Int.to_int16 (repeat 300 17) (repeat 300 17))
    ++ skipn (Z.to_nat 17) (repeat 5 20).
Proof.
  split; [lia|].
  apply (mul_short_products (repeat 5 20) (repeat 300 17) (repeat 300 17) 17);
    [lia | vm_compute; lia | vm_compute; lia].
Defined.

Lemma mul_short_store_int_batches_same n : forall aPtr bPtr cOut,
  mul_short_store_int_batches n aPtr bPtr cOut = mul_short_batches n aPtr bPtr cOut.
Proof.
  induction n as [|n IH]; intros aPtr bPtr cOut;
    cbn [mul_short_store_int_batches mul_short_batches]; [reflexivity|apply IH].
Qed.

Lemma mul_short_store_int_rest_same n : forall aPtr bPtr cOut,
  mul_short_store_int_rest n aPtr bPtr cOut = mul_short_rest n aPtr bPtr cOut.
Proof.
  induction n as [|n IH]; intros aPtr bPtr cOut;
    cbn [mul_short_store_int_rest mul_short_rest]; [reflexivity|apply IH].
Qed.

(** [avx2_mul_short_store_int] stores no [int]: on every input it
    writes what [avx2_mul_short] writes, products reduced to 16 bits. *)
Theorem mul_short_store_int_is_mul_short :
  forall (cVector aVector bVector : list Z) (num_points : Z),
    avx2_mul_short_store_int cVector aVector bVector num_points
    = avx2_mul_short cVector aVector bVector num_points.
Proof.
  intros c a b N. unfold avx2_mul_short_store_int, avx2_mul_short.
  rewrite mul_short_store_int_batches_same.
  destruct (mul_short_batches _ _ _ _) as [[aPtr bPtr] cOut].
  now rewrite mul_short_store_int_rest_same.
Qed.

(** [avx2_si32_x2_mul_si32], for vectors that hold [num_points]
    elements: the first [num_points] elements of the output are the
    products reduced to 32 bits, and the elements behind them are left as
    they were. *)
Theorem si32_x2_mul_products :
  forall (cVector aVector bVector : list Z) (num_points : Z),
    0 <= num_points ->
    (Z.to_nat num_points <= length aVector)%nat ->
    (Z.to_nat num_points <= length bVector)%nat ->
    avx2_si32_x2_mul_si32 cVector aVector bVector num_points
    = firstn (Z.to_nat num_points) (products Int.to_int32 aVector bVector)
      ++ skipn (Z.to_nat num_points) cVector.
Proof.
  intros c a b N HN Ha Hb.
  pose proof (split_count 8 N ltac:(lia) HN) as Hs.
  change (Z.to_nat 8) with 8%nat in Hs.
  unfold avx2_si32_x2_mul_si32.
  rewrite si32_x2_mul_batches_closed by lia.
  rewrite si32_x2_mul_rest_closed by (apply length_skipn_le; lia).
  cbn [app]. unfold products at 2. rewrite lanewise_skipn.
  fold (products Int.to_int32 a b).
  rewrite <- firstn_add, Hs.
  unfold write_front. unfold products. now rewrite written_length.
Qed.

Lemma si32_x2_mul_products_witness :
  0 <= 9 /\
  avx2_si32_x2_mul_si32 (repeat 5 12) (repeat 70000 9) (repeat 70000 9) 9
  = firstn (Z.to_nat 9) (products Int.to_int32 (repeat 70000 9) (repeat 70000 9))
    ++ skipn (Z.to_nat 9) (repeat 5 12).
Proof.
  split; [lia|].
  apply (si32_x2_mul_products (repeat 5 12) (repeat 70000 9) (repeat 70000 9) 9);
    [lia | vm_compute; lia | vm_compute; lia].
Defined.

(** [avx2_fl32_x2_mul_fl32] has no leftover loop: it writes the products
    of whole registers only, the first [8 * (num_points / 8)], and every
    element of the output from there on, the last [num_points mod 8]
    among them, is left as it was. *)
Theorem fl32_x2_mul_whole_registers_only :
  forall (cVector aVector bVector : list spec_float) (num_points : Z),
    0 <= num_points ->
    (Z.to_nat num_points <= length aVector)%nat ->
    (Z.to_nat num_points <= length bVector)%nat ->
    avx2_fl32_x2_mul_fl32 cVector aVector bVector num_points
    = firstn (8 * Z.to_nat (num_points / 8)) (lanewise Single.mul aVector bVector)
      ++ skipn (8 * Z.to_nat (num_points / 8)) cVector.
Proof.
  intros c a b N HN Ha Hb.
  pose proof (split_count 8 N ltac:(lia) HN) as Hs.
  change (Z.to_nat 8) with 8%nat in Hs.
  unfold avx2_fl32_x2_mul_fl32.
  rewrite fl32_x2_mul_batches_closed by lia.
  cbn [app]. unfold write_front. rewrite written_length by lia. reflexivity.
Qed.

Lemma fl32_x2_mul_whole_registers_only_witness :
  0 <= 9 /\
  avx2_fl32_x2_mul_fl32 (repeat Single.zero 9) (repeat (Single.of_Z 3) 9)
    (repeat (Single.of_Z 5) 9) 9
  = firstn (8 * Z.to_nat (9 / 8))
      (lanewise Single.mul (repeat (Single.of_Z 3) 9) (repeat (Single.of_Z 5) 9))
    ++ skipn (8 * Z.to_nat (9 / 8)) (repeat Single.zero 9).
Proof.
  split; [lia|].
  apply (fl32_x2_mul_whole_registers_only (repeat Single.zero 9)
           (repeat (Single.of_Z 3) 9) (repeat (Single.of_Z 5) 9) 9);
    [lia | vm_compute; lia | vm_compute; lia].
Defined.

(* ================================================================== *)
(** ** Sums that wrap around *)

Lemma to_int32_add_l x y : Int.to_int32 (Int.to_int32 x + y) = Int.to_int32 (x + y).
Proof.
  unfold Int.to_int32. f_equal.
  replace ((x + 2 ^ 31) mod 2 ^ 32 - 2 ^ 31 + y + 2 ^ 31)
    with ((x + 2 ^ 31) mod 2 ^ 32 + y) by ring.
  rewrite Z.add_mod_idemp_l by lia. f_equal. ring.
Qed.

Lemma to_int32_add_r x y : Int.to_int32 (x + Int.to_int32 y) = Int.to_int32 (x + y).
Proof. rewrite Z.add_comm, to_int32_add_l. f_equal. ring. Qed.

Lemma int_add_wrap x y : Int.add (Int.to_int32 x) (Int.to_int32 y) = Int.to_int32 (x + y).
Proof. unfold Int.add. now rewrite to_int32_add_l, to_int32_add_r. Qed.

Lemma to_int32_uint32_add_l x y :
  Int.to_int32 (Int.to_uint32 x + y) = Int.to_int32 (x + y).
Proof.
  rewrite <- to_int32_add_l, to_int32_to_uint32, to_int32_add_l. reflexivity.
Qed.

Lemma to_int32_sum_congr x y y' :
  Int.to_int32 y = Int.to_int32 y' -> Int.to_int32 (x + y) = Int.to_int32 (x + y').
Proof.
  intros H. rewrite <- (to_int32_add_r x y), H. apply to_int32_add_r.
Qed.

(** Lanes that wrap add up, modulo [2^32], to what exact lanes add up
    to. *)
Lemma sum_lanewise_wrap (g : Z -> Z -> Z) : forall a b,
  Int.to_int32 (sum_list (lanewise (fun x y => Int.to_uint32 (g x y)) a b))
  = Int.to_int32 (sum_list (lanewise g a b)).
Proof.
  induction a as [|x a IH]; intros [|y b]; try reflexivity.
  rewrite !lanewise_cons. cbn [sum_list fold_right].
  fold (sum_list (lanewise (fun x y => Int.to_uint32 (g x y)) a b)).
  fold (sum_list (lanewise g a b)).
  rewrite to_int32_uint32_add_l. apply to_int32_sum_congr, IH.
Qed.

Lemma sum_list_app l1 l2 : sum_list (l1 ++ l2) = sum_list l1 + sum_list l2.
Proof.
  induction l1 as [|x l1 IH]; [reflexivity|].
  cbn [app sum_list fold_right] in *. fold (sum_list (l1 ++ l2)).
  fold (sum_list l1). lia.
Qed.

Lemma sum_list_split n l :
  sum_list l = sum_list (firstn n l) + sum_list (skipn n l).
Proof. now rewrite <- sum_list_app, firstn_skipn. Qed.

Lemma hsum8_wrap acc :
  length acc = 8%nat -> hsum8 (storeu_int acc) = Int.to_int32 (sum_list acc).
Proof.
  intros Hl.
  do 8 (destruct acc as [|? acc]; [discriminate Hl|]).
  destruct acc; [|discriminate Hl].
  unfold hsum8, storeu_int. cbn [map nth].
  rewrite !int_add_wrap. f_equal.
  cbn [sum_list fold_right]. ring.
Qed.

Lemma dot_firstn_split n m a b :
  (n <= length a)%nat -> (n <= length b)%nat ->
  dot (firstn (n + m) a) (firstn (n + m) b)
  = dot (firstn n a) (firstn n b)
    + dot (firstn m (skipn n a)) (firstn m (skipn n b)).
Proof.
  intros Ha Hb. rewrite !firstn_add.
  apply dot_app. rewrite !length_firstn. lia.
Qed.

Lemma mul_and_acc_si32_batches_wrap n : forall aPtr bPtr accumulator,
  length accumulator = 8%nat ->
  (8 * n <= length aPtr)%nat -> (8 * n <= length bPtr)%nat ->
  exists accumulator',
    mul_and_acc_si32_batches n aPtr bPtr accumulator
    = (skipn (8 * n) aPtr, skipn (8 * n) bPtr, accumulator') /\
    length accumulator' = 8%nat /\
    Int.to_int32 (sum_list accumulator')
    = Int.to_int32 (sum_list accumulator
                    + dot (firstn (8 * n) aPtr) (firstn (8 * n) bPtr)).
Proof.
  induction n as [|n IH]; intros aPtr bPtr accumulator Hlen Ha Hb.
  - exists accumulator. rewrite Nat.mul_0_r.
    cbn [mul_and_acc_si32_batches skipn firstn dot].
    repeat split; [assumption|]. f_equal. lia.
  - cbn [mul_and_acc_si32_batches]. unfold _mm256_loadu_si256.
    rewrite !loadu_firstn by lia.
    set (cVal := _mm256_mullo_epi32 (firstn 8 aPtr) (firstn 8 bPtr)).
    assert (Lc : length cVal = 8%nat).
    { unfold cVal, _mm256_mullo_epi32.
      rewrite lanewise_length, !length_firstn. lia. }
    destruct (IH (skipn 8 aPtr) (skipn 8 bPtr) (_mm256_add_epi32 accumulator cVal))
      as (acc' & Eq & Hl & Hs).
    + unfold _mm256_add_epi32. rewrite lanewise_length. lia.
    + apply length_skipn_le; lia.
    + apply length_skipn_le; lia.
    + exists acc'. rewrite Eq, !skipn_skipn'.
      replace (8 + 8 * n)%nat with (8 * S n)%nat by lia.
      repeat split; [exact Hl|].
      rewrite Hs. unfold _mm256_add_epi32.
      rewrite <- to_int32_add_l, sum_lanewise_wrap, to_int32_add_l.
      rewrite sum_lanewise_add by lia.
      replace (8 * S n)%nat with (8 + 8 * n)%nat by lia.
      rewrite dot_firstn_split by lia.
      rewrite <- !Z.add_assoc. apply to_int32_sum_congr.
      rewrite <- to_int32_add_l.
      unfold cVal, _mm256_mullo_epi32.
      rewrite (sum_lanewise_wrap Z.mul), to_int32_add_l, sum_lanewise_mul.
      reflexivity.
Qed.

Lemma mul_and_acc_si32_rest_wrap n : forall aPtr bPtr r,
  (n <= length aPtr)%nat -> (n <= length bPtr)%nat ->
  mul_and_acc_si32_rest n aPtr bPtr (Int.to_int32 r)
  = Int.to_int32 (r + dot (firstn n aPtr) (firstn n bPtr)).
Proof.
  induction n as [|n IH]; intros aPtr bPtr r Ha Hb.
  - cbn [mul_and_acc_si32_rest firstn dot]. f_equal. lia.
  - destruct aPtr as [|x aPtr]; [simpl in Ha; lia|].
    destruct bPtr as [|y bPtr]; [simpl in Hb; lia|].
    cbn [mul_and_acc_si32_rest hd tl firstn dot].
    unfold Int.mul. rewrite int_add_wrap, IH by (simpl in Ha, Hb; lia).
    f_equal. ring.
Qed.

Lemma accumulate_int_batches_wrap n : forall aPtr accumulator,
  length accumulator = 8%nat -> (8 * n <= length aPtr)%nat ->
  exists accumulator',
    accumulate_int_batches n aPtr accumulator = (skipn (8 * n) aPtr, accumulator') /\
    length accumulator' = 8%nat /\
    Int.to_int32 (sum_list accumulator')
    = Int.to_int32 (sum_list accumulator + sum_list (firstn (8 * n) aPtr)).
Proof.
  induction n as [|n IH]; intros aPtr accumulator Hlen Ha.
  - exists accumulator. rewrite Nat.mul_0_r.
    cbn [accumulate_int_batches skipn firstn sum_list fold_right].
    repeat split; [assumption|]. f_equal. lia.
  - cbn [accumulate_int_batches]. unfold _mm256_loadu_si256.
    rewrite !loadu_firstn by lia.
    destruct (IH (skipn 8 aPtr) (_mm256_add_epi32 accumulator (firstn 8 aPtr)))
      as (acc' & Eq & Hl & Hs).
    + unfold _mm256_add_epi32. rewrite lanewise_length, length_firstn. lia.
    + apply length_skipn_le; lia.
    + exists acc'. rewrite Eq, !skipn_skipn'.
      replace (8 + 8 * n)%nat with (8 * S n)%nat by lia.
      repeat split; [exact Hl|].
      rewrite Hs. unfold _mm256_add_epi32.
      rewrite <- to_int32_add_l, sum_lanewise_wrap, to_int32_add_l.
      rewrite sum_lanewise_add by (rewrite length_firstn; lia).
      replace (8 * S n)%nat with (8 + 8 * n)%nat by lia.
      rewrite (firstn_add 8 (8 * n)), sum_list_app. f_equal. ring.
Qed.

Lemma accumulate_int_rest_wrap n : forall aPtr r,
  (n <= length aPtr)%nat ->
  accumulate_int_rest n aPtr (Int.to_int32 r)
  = Int.to_int32 (r + sum_list (firstn n aPtr)).
Proof.
  induction n as [|n IH]; intros aPtr r Ha.
  - cbn [accumulate_int_rest firstn]. f_equal. cbn. lia.
  - destruct aPtr as [|x aPtr]; [simpl in Ha; lia|].
    cbn [accumulate_int_rest hd tl firstn].
    unfold Int.add. rewrite to_int32_add_l, IH by (simpl in Ha; lia).
    f_equal. cbn [sum_list fold_right]. fold (sum_list (firstn n aPtr)). ring.
Qed.

(** [avx2_mul_and_acc_si32], for vectors that hold [num_points]
    elements: the value returned is the sum of the products reduced to 32
    bits in two's complement.  How the products are spread over the eight
    lanes and the leftover loop does not change it, and when the sum of
    the products fits an [int] it is returned as it is, whatever
    happened to the partial sums. *)
Theorem mul_and_acc_si32_wraps :
  forall (aVector bVector : list Z) (num_points : Z),
    0 <= num_points ->
    (Z.to_nat num_points <= length aVector)%nat ->
    (Z.to_nat num_points <= length bVector)%nat ->
    let exact := dot (firstn (Z.to_nat num_points) aVector)
                     (firstn (Z.to_nat num_points) bVector) in
    avx2_mul_and_acc_si32 aVector bVector num_points = Int.to_int32 exact /\
    (Int.is_int32 exact -> avx2_mul_and_acc_si32 aVector bVector num_points = exact).
Proof.
  intros a b N HN Ha Hb exact.
  assert (E : avx2_mul_and_acc_si32 a b N = Int.to_int32 exact).
  { pose proof (split_count 8 N ltac:(lia) HN) as Hs.
    change (Z.to_nat 8) with 8%nat in Hs.
    unfold avx2_mul_and_acc_si32.
    destruct (mul_and_acc_si32_batches_wrap (Z.to_nat (N / 8)) a b
                (_mm256_setzero_si256 8) eq_refl) as (acc & Eq & Hl & Hsum);
      [lia|lia|].
    rewrite Eq, hsum8_wrap, Hsum by exact Hl.
    rewrite mul_and_acc_si32_rest_wrap by (apply length_skipn_le; lia).
    change (sum_list (_mm256_setzero_si256 8)) with 0.
    unfold exact. rewrite <- Hs, dot_firstn_split by lia.
    f_equal. }
  split; [exact E|].
  intros Hfit. rewrite E. now apply to_int32_id.
Qed.

Lemma mul_and_acc_si32_wraps_witness :
  0 <= 9 /\
  avx2_mul_and_acc_si32 (repeat 70000 9) (repeat 70000 9) 9
  = Int.to_int32 (dot (firstn (Z.to_nat 9) (repeat 70000 9))
                      (firstn (Z.to_nat 9) (repeat 70000 9))).
Proof.
  split; [lia|].
  apply (mul_and_acc_si32_wraps (repeat 70000 9) (repeat 70000 9) 9);
    [lia | vm_compute; lia | vm_compute; lia].
Defined.

(** [avx_accumulate_int], for a vector that holds [num_points] elements:
    the value returned is the sum of the elements reduced to 32 bits in
    two's complement, and the sum itself when that fits an [int]. *)
Theorem accumulate_int_wraps :
  forall (inputBuffer : list Z) (num_points : Z),
    0 <= num_points ->
    (Z.to_nat num_points <= length inputBuffer)%nat ->
    let exact := sum_list (firstn (Z.to_nat num_points) inputBuffer) in
    avx_accumulate_int inputBuffer num_points = Int.to_int32 exact /\
    (Int.is_int32 exact -> avx_accumulate_int inputBuffer num_points = exact).
Proof.
  intros a N HN Ha exact.
  assert (E : avx_accumulate_int a N = Int.to_int32 exact).
  { pose proof (split_count 8 N ltac:(lia) HN) as Hs.
    change (Z.to_nat 8) with 8%nat in Hs.
    unfold avx_accumulate_int.
    destruct (accumulate_int_batches_wrap (Z.to_nat (N / 8)) a
                (_mm256_setzero_si256 8) eq_refl) as (acc & Eq & Hl & Hsum);
      [lia|].
    rewrite Eq, hsum8_wrap, Hsum by exact Hl.
    rewrite accumulate_int_rest_wrap by (apply length_skipn_le; lia).
    change (sum_list (_mm256_setzero_si256 8)) with 0.
    unfold exact. rewrite <- Hs, firstn_add, sum_list_app.
    f_equal. }
  split; [exact E|].
  intros Hfit. rewrite E. now apply to_int32_id.
Qed.

Lemma accumulate_int_wraps_witness :
  0 <= 9 /\
  avx_accumulate_int (repeat 2000000000 9) 9
  = Int.to_int32 (sum_list (firstn (Z.to_nat 9) (repeat 2000000000 9))).
Proof.
  split; [lia|].
  apply (accumulate_int_wraps (repeat 2000000000 9) 9);
    [lia | vm_compute; lia].
Defined.

(* ================================================================== *)
(** ** The 16-bit accumulation while no lane saturates *)

Lemma accumulate_short_batches_exact M : forall n aPtr accumulator B,
  0 <= M -> 0 <= B -> B + Z.of_nat n * M <= 32767 ->
  length accumulator = 16%nat -> (16 * n <= length aPtr)%nat ->
  elements_within M aPtr ->
  Forall (fun z => Z.abs z <= B) accumulator ->
  exists accumulator',
    accumulate_short_batches n aPtr accumulator = (skipn (16 * n) aPtr, accumulator') /\
    length accumulator' = 16%nat /\
    Forall (fun z => Z.abs z <= B + Z.of_nat n * M) accumulator' /\
    sum_list accumulator' = sum_list accumulator + sum_list (firstn (16 * n) aPtr).
Proof.
  induction n as [|n IH]; intros aPtr accumulator B HM HB Hfit Hlen Ha Hin Hacc.
  - exists accumulator. rewrite Nat.mul_0_r.
    cbn [accumulate_short_batches skipn firstn sum_list fold_right].
    repeat split; try assumption.
    + eapply Forall_impl; [|exact Hacc]. simpl. intros; lia.
    + lia.
  - rewrite Nat2Z.inj_succ in Hfit.
    assert (Hn : 0 <= Z.of_nat n) by lia.
    cbn [accumulate_short_batches]. unfold _mm256_loadu_si256.
    rewrite loadu_firstn by lia.
    destruct (adds_exact B M accumulator (firstn 16 aPtr) Hacc
                (Forall_firstn _ 16 _ Hin) ltac:(nia)) as [E F].
    rewrite E.
    destruct (IH (skipn 16 aPtr) (lanewise Z.add accumulator (firstn 16 aPtr)) (B + M))
      as (acc' & Eq & Hl & Hf & Hs).
    + lia.
    + lia.
    + lia.
    + rewrite lanewise_length, length_firstn. lia.
    + apply length_skipn_le; lia.
    + now apply Forall_skipn.
    + exact F.
    + exists acc'. rewrite Eq, skipn_skipn'.
      replace (16 + 16 * n)%nat with (16 * S n)%nat by lia.
      repeat split.
      * exact Hl.
      * rewrite Nat2Z.inj_succ.
        eapply Forall_impl; [|exact Hf]. simpl. intros; lia.
      * rewrite Hs, sum_lanewise_add by (rewrite length_firstn; lia).
        replace (16 * S n)%nat with (16 + 16 * n)%nat by lia.
        rewrite (firstn_add 16 (16 * n)), sum_list_app. lia.
Qed.

Lemma accumulate_short_rest_exact : forall n aPtr r,
  elements_within 32767 aPtr -> (n <= length aPtr)%nat ->
  Z.abs r + Z.of_nat n * 32767 < 2 ^ 31 ->
  accumulate_short_rest n aPtr r = r + sum_list (firstn n aPtr).
Proof.
  induction n as [|n IH]; intros aPtr r Hin Ha Hr.
  - cbn [accumulate_short_rest firstn sum_list fold_right]. lia.
  - destruct aPtr as [|x aPtr]; [simpl in Ha; lia|].
    inversion Hin as [|? ? Hx Hin']; subst.
    rewrite Nat2Z.inj_succ in Hr.
    cbn [accumulate_short_rest hd tl firstn].
    rewrite int_add_exact by (unfold Int.is_int32; lia).
    rewrite IH; [|exact Hin'|simpl in Ha; lia|lia].
    cbn [sum_list fold_right]. fold (sum_list (firstn n aPtr)). lia.
Qed.

(** [avx_accumulate_short] returns the sum of its first [num_points]
    elements when no lane can saturate: when the elements are at most
    [M] in size and [M] times the number of whole registers still fits a
    [short]. *)
Theorem accumulate_short_exact :
  forall (inputBuffer : list Z) (num_points M : Z),
    0 <= num_points ->
    (Z.to_nat num_points <= length inputBuffer)%nat ->
    0 <= M <= 32767 -> M * (num_points / 16) <= 32767 ->
    elements_within M inputBuffer ->
    avx_accumulate_short inputBuffer num_points
    = sum_list (firstn (Z.to_nat num_points) inputBuffer).
Proof.
  intros a N M HN Ha HM Hfit Hin.
  pose proof (split_count 16 N ltac:(lia) HN) as Hs.
  change (Z.to_nat 16) with 16%nat in Hs.
  pose proof (Z.div_pos N 16 HN ltac:(lia)) as Hq.
  pose proof (Z.mod_pos_bound N 16 ltac:(lia)) as Hmod.
  pose proof (Z.div_mod N 16 ltac:(lia)) as Hdm.
  unfold avx_accumulate_short.
  destruct (accumulate_short_batches_exact M (Z.to_nat (N / 16)) a
              (_mm256_setzero_si256 16) 0) as (acc & E & Hl & Hf & Hsum).
  - lia.
  - lia.
  - rewrite Z2Nat.id by lia. lia.
  - reflexivity.
  - lia.
  - exact Hin.
  - apply repeat_zero_within.
  - rewrite E.
    rewrite Z2Nat.id in Hf by lia.
    destruct (hsum16_exact acc Hl) as [Hh Hbound].
    { eapply Forall_impl; [|exact Hf]. simpl. intros; lia. }
    rewrite Hh, accumulate_short_rest_exact.
    + rewrite Hsum. change (sum_list (_mm256_setzero_si256 16)) with 0.
      rewrite <- Hs, firstn_add, sum_list_app. lia.
    + apply Forall_skipn. eapply Forall_impl; [|exact Hin]. simpl. intros; lia.
    + apply length_skipn_le; lia.
    + lia.
Qed.

Lemma accumulate_short_exact_witness :
  0 <= 35 /\ 0 <= 1000 <= 32767 /\ 1000 * (35 / 16) <= 32767 /\
  avx_accumulate_short (repeat (-1000) 35) 35
  = sum_list (firstn (Z.to_nat 35) (repeat (-1000) 35)).
Proof.
  split; [lia|]. split; [lia|]. split; [change (35 / 16) with 2; lia|].
  apply (accumulate_short_exact (repeat (-1000) 35) 35 1000);
    [lia | vm_compute; lia | lia | change (35 / 16) with 2; lia |].
  apply Forall_forall. intros z Hz. apply repeat_spec in Hz. subst z. simpl. lia.
Defined.

(* ================================================================== *)
(** ** The schedule of the carrier-to-noise estimator *)

Lemma store_nat_app {A} (l1 : list A) x l2 i v :
  length l1 = i -> store_nat (l1 ++ x :: l2) i v = l1 ++ v :: l2.
Proof.
  intros <-. induction l1 as [|y l1 IH]; [reflexivity|].
  cbn [app length store_nat]. now rewrite IH.
Qed.

Lemma vsm_step_schedule log10 cfg lc I_P Q_P v (L : nat) :
  0 < vsmInterval cfg -> 0 <= lc < 2 ^ 31 - 1 ->
  vsmCount v = lc mod vsmInterval cfg ->
  VSMIndex v
  = map (fun j => Double.of_Z ((Z.of_nat j + 1) * vsmInterval cfg))
      (seq 0 (Z.to_nat (lc / vsmInterval cfg)))
    ++ repeat Double.zero (L - Z.to_nat (lc / vsmInterval cfg)) ->
  (Z.to_nat ((lc + 1) / vsmInterval cfg) <= L)%nat ->
  vsmCount (vsm_step log10 cfg lc I_P Q_P v) = (lc + 1) mod vsmInterval cfg /\
  VSMIndex (vsm_step log10 cfg lc I_P Q_P v)
  = map (fun j => Double.of_Z ((Z.of_nat j + 1) * vsmInterval cfg))
      (seq 0 (Z.to_nat ((lc + 1) / vsmInterval cfg)))
    ++ repeat Double.zero (L - Z.to_nat ((lc + 1) / vsmInterval cfg)).
Proof.
  set (V := vsmInterval cfg). intros HV Hlc Hc Hi HL.
  pose proof (Z.div_mod lc V ltac:(lia)) as Hdm.
  pose proof (Z.mod_pos_bound lc V HV) as Hmod.
  assert (Hq : 0 <= lc / V) by (apply Z.div_pos; lia).
  unfold vsm_step. cbv zeta. fold V. rewrite Hc.
  rewrite int_add_exact by (unfold Int.is_int32; lia).
  destruct (Z.eqb_spec (lc mod V + 1) V) as [E|E]; cbn [vsmCount VSMIndex].
  - assert (Hd : (lc + 1) / V = lc / V + 1)
      by (symmetry; apply Z.div_unique with (r := 0); lia).
    assert (Hm : (lc + 1) mod V = 0)
      by (symmetry; apply Z.mod_unique with (q := lc / V + 1); lia).
    rewrite Hm, Hd in *. split; [reflexivity|].
    rewrite Hi, Z.quot_div_nonneg by lia.
    unfold store. destruct (Z.ltb_spec (lc / V) 0) as [?|_]; [lia|].
    rewrite Z2Nat.inj_add in * by lia. change (Z.to_nat 1) with 1%nat in *.
    set (k := Z.to_nat (lc / V)) in *.
    replace (L - k)%nat with (S (L - (k + 1)))%nat by lia.
    cbn [repeat]. rewrite store_nat_app by now rewrite length_map, length_seq.
    rewrite Nat.add_1_r, seq_S, map_app, <- app_assoc. cbn [Nat.add map app].
    rewrite (int_add_exact lc 1) by (unfold Int.is_int32; lia).
    replace ((Z.of_nat k + 1) * V) with (lc + 1) by (unfold k; lia).
    reflexivity.
  - assert (Hd : (lc + 1) / V = lc / V)
      by (symmetry; apply Z.div_unique with (r := lc mod V + 1); lia).
    assert (Hm : (lc + 1) mod V = lc mod V + 1)
      by (symmetry; apply Z.mod_unique with (q := lc / V); lia).
    rewrite Hm, Hd. split; [reflexivity|exact Hi].
Qed.

Section Schedule.

Variable atan : spec_float -> spec_float.
Variable log10 : spec_float -> spec_float.
Variable avx512_mul_and_acc_16i : list Z -> list Z -> Z -> spec_float.
Variable cfg : Config.

Local Abbreviation epochs' := (epochs atan log10 avx512_mul_and_acc_16i cfg).
Local Abbreviation epoch'' := (epoch atan log10 avx512_mul_and_acc_16i cfg).

Lemma epochs_snoc n : forall loopcount st,
  epochs' (S n) loopcount st = epoch'' (loopcount + Z.of_nat n) (epochs' n loopcount st).
Proof.
  induction n as [|n IH]; intros loopcount st.
  - cbn [epochs Z.of_nat]. now rewrite Z.add_0_r.
  - change (epochs' (S (S n)) loopcount st)
      with (epochs' (S n) (loopcount + 1) (epoch'' loopcount st)).
    rewrite IH. cbn [epochs]. f_equal. lia.
Qed.

Lemma vsm_schedule_invariant file n :
  0 < vsmInterval cfg -> 0 <= codePeriods cfg < 2 ^ 31 ->
  (n <= Z.to_nat (codePeriods cfg))%nat ->
  let v := vsm (epochs' n 0 (initial_state cfg file)) in
  vsmCount v = Z.of_nat n mod vsmInterval cfg /\
  VSMIndex v
  = map (fun j => Double.of_Z ((Z.of_nat j + 1) * vsmInterval cfg))
      (seq 0 (Z.to_nat (Z.of_nat n / vsmInterval cfg)))
    ++ repeat Double.zero
         (Z.to_nat (codePeriods cfg / vsmInterval cfg)
          - Z.to_nat (Z.of_nat n / vsmInterval cfg)).
Proof.
  intros HV HN. induction n as [|n IH]; intros Hn v; subst v.
  - cbn [epochs initial_state vsm vsmCount VSMIndex Z.of_nat].
    rewrite Z.mod_0_l, Z.div_0_l, Z.quot_div_nonneg by lia.
    cbn [Z.to_nat seq map app]. now rewrite Nat.sub_0_r.
  - rewrite epochs_snoc, Z.add_0_l, epoch_vsm.
    destruct IH as [Hc Hi]; [lia|].
    rewrite Nat2Z.inj_succ, <- Z.add_1_r.
    apply vsm_step_schedule; try assumption; try lia.
    apply Z2Nat.inj_le.
    + apply Z.div_pos; lia.
    + apply Z.div_pos; lia.
    + apply Z.div_le_mono; lia.
Qed.

End Schedule.

(** Over a run of [codePeriods] epochs with a window of [vsmInterval]
    epochs, the estimator fills every entry of [VSMIndex]: entry [j]
    holds [(j + 1) * vsmInterval], the count of epochs at the end of
    window [j].  The counter is left at the length of the last, unfinished
    window, which writes nothing. *)
Theorem vsm_schedule :
  forall atan log10 kernel cfg file,
    0 < vsmInterval cfg -> 0 <= codePeriods cfg < 2 ^ 31 ->
    let v := vsm (run atan log10 kernel cfg file) in
    vsmCount v = codePeriods cfg mod vsmInterval cfg /\
    VSMIndex v
    = map (fun j => Double.of_Z ((Z.of_nat j + 1) * vsmInterval cfg))
        (seq 0 (Z.to_nat (codePeriods cfg / vsmInterval cfg))).
Proof.
  intros atan log10 kernel cfg file HV HN v. subst v. unfold run.
  destruct (vsm_schedule_invariant atan log10 kernel cfg file
              (Z.to_nat (codePeriods cfg)) HV HN (Nat.le_refl _)) as [Hc Hi].
  rewrite Z2Nat.id in * by lia.
  split; [exact Hc|].
  rewrite Hi, Nat.sub_diag. apply app_nil_r.
Qed.

Lemma vsm_schedule_witness :
  0 < vsmInterval small_cfg /\ 0 <= codePeriods small_cfg < 2 ^ 31 /\
  VSMIndex (vsm (run atan_F log10_F mul_and_acc_avx2 small_cfg short_file))
  = map (fun j => Double.of_Z ((Z.of_nat j + 1) * vsmInterval small_cfg))
      (seq 0 (Z.to_nat (codePeriods small_cfg / vsmInterval small_cfg))).
Proof.
  assert (HV : 0 < vsmInterval small_cfg) by reflexivity.
  assert (HN : 0 <= codePeriods small_cfg < 2 ^ 31)
    by (change (codePeriods small_cfg) with 3; lia).
  split; [exact HV|]. split; [exact HN|].
  apply (vsm_schedule atan_F log10_F mul_and_acc_avx2 small_cfg short_file HV HN).
Defined.

(* ================================================================== *)
(** ** Filter time constants at zero *)

Lemma add_nonfinite_l x y :
  IEEE.is_finite x = false -> IEEE.is_finite (x + y)%D = false.
Proof.
  destruct x as [sx|sx| |sx mx ex]; try discriminate; intros _;
    destruct y as [sy|sy| |sy my ey]; try destruct sx; try destruct sy; reflexivity.
Qed.

Lemma sub_nonfinite_r x y :
  IEEE.is_finite y = false -> IEEE.is_finite (x - y)%D = false.
Proof.
  destruct y as [sy|sy| |sy my ey]; try discriminate; intros _;
    destruct x as [sx|sx| |sx mx ex]; try destruct sx; try destruct sy; reflexivity.
Qed.

Lemma carrier_filter_zero_tau cfg old err oldErr :
  IEEE.is_zero (tau1carr cfg) = true ->
  IEEE.is_finite (carrier_filter cfg old err oldErr) = false.
Proof.
  intros H. unfold carrier_filter.
  apply add_nonfinite_l, add_nonfinite_r, mul_nonfinite_l, div_by_zero, H.
Qed.

Lemma code_filter_zero_tau cfg old err oldErr :
  IEEE.is_zero (tau1code cfg) = true ->
  IEEE.is_finite (code_filter cfg old err oldErr) = false.
Proof.
  intros H. unfold code_filter.
  apply add_nonfinite_l, add_nonfinite_r, mul_nonfinite_l, div_by_zero, H.
Qed.

Lemma epoch_frequencies atan log10 kernel cfg loopcount st :
  let r := stored atan log10 kernel cfg st loopcount in
  carrFreq_output r = (carrFreqBasis cfg + carrNco_output r)%D /\
  codeFreq_output r = (codeFreqBasis - codeNco_output r)%D /\
  carrFreq (epoch atan log10 kernel cfg loopcount st) = carrFreq_output r /\
  codeFreq (epoch atan log10 kernel cfg loopcount st) = codeFreq_output r.
Proof.
  unfold stored, epoch.
  destruct (fread _ _ _) as [[i raw] fp]; cbn [outputs].
  rewrite nth_middle.
  cbn [carrFreq_output codeFreq_output carrNco_output codeNco_output
       carrFreq codeFreq].
  repeat split; reflexivity.
Qed.

(** The settings are used as they are read.  With [tau1carr] at zero the
    carrier NCO command and the carrier frequency that an epoch stores
    and hands on are not finite, whatever the samples and the state. *)
Theorem zero_tau1carr_never_finite :
  forall atan log10 kernel cfg loopcount st,
    IEEE.is_zero (tau1carr cfg) = true ->
    let st' := epoch atan log10 kernel cfg loopcount st in
    let r := stored atan log10 kernel cfg st loopcount in
    IEEE.is_finite (carrNco_output r) = false /\
    IEEE.is_finite (carrFreq_output r) = false /\
    IEEE.is_finite (carrFreq st') = false.
Proof.
  intros atan log10 kernel cfg loopcount st Hz st' r.
  destruct (epoch_frequencies atan log10 kernel cfg loopcount st)
    as (Hcarr & _ & Hcarr' & _).
  destruct (epoch_loop_state atan log10 kernel cfg loopcount st)
    as (_ & _ & Hnco & _).
  fold r in Hcarr, Hcarr', Hnco. fold st' in Hcarr'.
  assert (H : IEEE.is_finite (carrNco_output r) = false)
    by (rewrite Hnco; now apply carrier_filter_zero_tau).
  rewrite Hcarr', Hcarr. repeat split; try exact H; now apply add_nonfinite_r.
Qed.

Lemma zero_tau1carr_never_finite_witness :
  IEEE.is_zero (tau1carr zero_tau_cfg) = true /\
  IEEE.is_finite
    (carrNco_output (stored atan_F log10_F mul_and_acc_avx2 zero_tau_cfg
                       (initial_state zero_tau_cfg short_file) 0)) = false.
Proof.
  assert (Hz : IEEE.is_zero (tau1carr zero_tau_cfg) = true) by reflexivity.
  split; [exact Hz|].
  apply (zero_tau1carr_never_finite atan_F log10_F mul_and_acc_avx2 zero_tau_cfg 0
           (initial_state zero_tau_cfg short_file) Hz).
Defined.

(** With [tau1code] at zero the code NCO command and the code frequency
    that an epoch stores and hands on are not finite. *)
Theorem zero_tau1code_never_finite :
  forall atan log10 kernel cfg loopcount st,
    IEEE.is_zero (tau1code cfg) = true ->
    let st' := epoch atan log10 kernel cfg loopcount st in
    let r := stored atan log10 kernel cfg st loopcount in
    IEEE.is_finite (codeNco_output r) = false /\
    IEEE.is_finite (codeFreq_output r) = false /\
    IEEE.is_finite (codeFreq st') = false.
Proof.
  intros atan log10 kernel cfg loopcount st Hz st' r.
  destruct (epoch_frequencies atan log10 kernel cfg loopcount st)
    as (_ & Hcode & _ & Hcode').
  destruct (epoch_loop_state atan log10 kernel cfg loopcount st)
    as (_ & _ & _ & Hnco & _).
  fold r in Hcode, Hcode', Hnco. fold st' in Hcode'.
  assert (H : IEEE.is_finite (codeNco_output r) = false)
    by (rewrite Hnco; now apply code_filter_zero_tau).
  rewrite Hcode', Hcode. repeat split; try exact H; now apply sub_nonfinite_r.
Qed.

Lemma zero_tau1code_never_finite_witness :
  IEEE.is_zero (tau1code zero_tau_cfg) = true /\
  IEEE.is_finite
    (codeNco_output (stored atan_F log10_F mul_and_acc_avx2 zero_tau_cfg
                       (initial_state zero_tau_cfg short_file) 0)) = false.
Proof.
  assert (Hz : IEEE.is_zero (tau1code zero_tau_cfg) = true) by reflexivity.
  split; [exact Hz|].
  apply (zero_tau1code_never_finite atan_F log10_F mul_and_acc_avx2 zero_tau_cfg 0
           (initial_state zero_tau_cfg short_file) Hz).
Defined.

(* ================================================================== *)
(** ** The carrier replica *)

Lemma gps_sin_values x : gps_sin x = 1 \/ gps_sin x = -1.
Proof. unfold gps_sin. destruct (_ || _); auto. Qed.

Lemma gps_cos_values x : gps_cos x = 1 \/ gps_cos x = -1.
Proof. unfold gps_cos. destruct (_ || _); auto. Qed.

(** The angle handed to [gps_sin] and [gps_cos], the remainder of a
    division by 62832, always lies within one cycle either way, and for a
    raw sample that is a [char] the two mixed samples are that sample
    times plus or minus eight, without loss in the conversion to
    [short]. *)
Theorem carrier_sample_mixes :
  forall cfg carrFreq remCarrPhase rawSignal i,
    -128 <= nth (Z.to_nat i) rawSignal 0 <= 127 ->
    let angle := carrier_angle cfg carrFreq remCarrPhase i in
    -62832 < angle < 62832 /\
    carrier_sample cfg carrFreq remCarrPhase rawSignal i
    = (8 * gps_sin angle * nth (Z.to_nat i) rawSignal 0,
       8 * gps_cos angle * nth (Z.to_nat i) rawSignal 0).
Proof.
  intros cfg carrFreq remCarrPhase rawSignal i Hraw angle.
  subst angle. unfold carrier_sample, carrier_angle. cbv zeta.
  set (a := Z.rem _ 62832).
  split.
  - pose proof (Z.rem_bound_abs
                  (IEEE.to_int32
                     ((Double.of_Z 2 * pi * carrFreq
                       * (Double.of_Z i / samplingFreq cfg) + remCarrPhase)
                      * Double.of_Z 10000)%D) 62832 ltac:(lia)) as H.
    fold a in H. lia.
  - destruct (gps_sin_values a) as [Hs|Hs], (gps_cos_values a) as [Hc|Hc];
      rewrite Hs, Hc;
      change (Int.to_int16 (8 * 1)) with 8;
      change (Int.to_int16 (8 * -1)) with (-8);
      rewrite !to_int16_id by (unfold Int.is_int16; lia);
      f_equal; lia.
Qed.

Lemma carrier_sample_mixes_witness :
  -128 <= nth (Z.to_nat 2) [5; -7; 100] 0 <= 127 /\
  -62832 < carrier_angle small_cfg Double.one Double.zero 2 < 62832.
Proof.
  assert (H : -128 <= nth (Z.to_nat 2) [5; -7; 100] 0 <= 127) by (simpl; lia).
  split; [exact H|].
  apply (carrier_sample_mixes small_cfg Double.one Double.zero [5; -7; 100] 2 H).
Defined.

Lemma gps_sin_negative x : gps_sin x = -1 <-> x > 31416 \/ -31416 < x < 0.
Proof.
  unfold gps_sin. rewrite !Z.gtb_ltb.
  destruct (Z.ltb_spec 31416 x), (Z.ltb_spec x 0), (Z.ltb_spec (-31416) x);
    cbn [orb andb]; split; intros; try lia; try discriminate.
Qed.

Lemma gps_cos_negative x :
  gps_cos x = -1 <-> 15708 < x < 47124 \/ -47124 < x < -15708.
Proof.
  unfold gps_cos. rewrite !Z.gtb_ltb.
  destruct (Z.ltb_spec 15708 x), (Z.ltb_spec x 47124),
    (Z.ltb_spec x (-15708)), (Z.ltb_spec (-47124) x);
    cbn [orb andb]; split; intros; try lia; try discriminate.
Qed.

(** [gps_cos] is even.  [gps_sin] is odd but at the three angles 0,
    31416 and -31416, where it is 1 on both sides. *)
Theorem gps_sin_cos_symmetry :
  forall x : Z,
    gps_cos (- x) = gps_cos x /\
    gps_sin (- x)
    = (if (x =? 0) || (Z.abs x =? 31416) then gps_sin x else - gps_sin x) /\
    ((x =? 0) || (Z.abs x =? 31416) = true -> gps_sin x = 1).
Proof.
  intros x.
  pose proof (gps_sin_negative x) as Sx. pose proof (gps_sin_negative (- x)) as Sn.
  pose proof (gps_cos_negative x) as Cx. pose proof (gps_cos_negative (- x)) as Cn.
  destruct (gps_sin_values x) as [Es|Es], (gps_sin_values (- x)) as [En|En],
    (gps_cos_values x) as [Ec|Ec], (gps_cos_values (- x)) as [Ed|Ed];
    rewrite Es, En, Ec, Ed in *;
    destruct (Z.eqb_spec x 0), (Z.eqb_spec (Z.abs x) 31416);
    cbn [orb]; repeat split; intros; try reflexivity; try discriminate;
    exfalso; lia.
Qed.

(* ================================================================== *)
(** ** The code indices of the driver and of the kernel *)

(** The driver rounds the code phase through a cast to [short] where
    [avx2_nom_code_si32] casts to [int32_t].  With the early-late spacing
    of one half that the kernel fixes, the driver computes the kernel's
    three indices for every sample whose three phases, truncated, fit a
    [short]. *)
Theorem code_sample_is_kernel_index :
  forall cfg codePhaseStep remCodePhase i,
    earlyLateSpc cfg = Double.half ->
    Int.is_int16 (IEEE.to_int32 (Double.of_Z i * codePhaseStep + remCodePhase)%D) ->
    Int.is_int16
      (IEEE.to_int32 (Double.of_Z i * codePhaseStep + remCodePhase - Double.half)%D) ->
    Int.is_int16
      (IEEE.to_int32 (Double.of_Z i * codePhaseStep + remCodePhase + Double.half)%D) ->
    code_sample cfg codePhaseStep remCodePhase i
    = (snd (fst (nom_code_indices i codePhaseStep remCodePhase)),
       fst (fst (nom_code_indices i codePhaseStep remCodePhase)),
       snd (nom_code_indices i codePhaseStep remCodePhase)).
Proof.
  intros cfg step rem i Hspc Hp He Hl.
  unfold code_sample, nom_code_indices, IEEE.to_int16. cbv zeta.
  rewrite Hspc. cbn [fst snd].
  set (h := Double.half) in *. clearbody h.
  set (one := Double.one). clearbody one.
  rewrite (to_int16_id _ Hp), (to_int16_id _ He), (to_int16_id _ Hl).
  reflexivity.
Qed.

Lemma code_sample_is_kernel_index_witness :
  earlyLateSpc small_cfg = Double.half /\
  code_sample small_cfg Double.one Double.zero 3
  = (snd (fst (nom_code_indices 3 Double.one Double.zero)),
     fst (fst (nom_code_indices 3 Double.one Double.zero)),
     snd (nom_code_indices 3 Double.one Double.zero)).
Proof.
  split; [reflexivity|].
  apply (code_sample_is_kernel_index small_cfg Double.one Double.zero 3);
    [reflexivity | vm_compute; split; discriminate
     | vm_compute; split; discriminate | vm_compute; split; discriminate].
Defined.

(* ================================================================== *)
(** ** Degenerate discriminators and the run *)








(* ================================================================== *)
(** ** The two multiply-and-accumulate kernels, lane by lane *)

Lemma loadu_skipn {A} (d : A) n m p :
  loadu d n (skipn m p) = map (fun k => nth (m + k) p d) (seq 0 n).
Proof. unfold loadu. apply map_ext. intros k. apply nth_skipn. Qed.

Lemma lanewise_maps {A B C D} (f : A -> B -> C) (g1 : D -> A) (g2 : D -> B) l :
  lanewise f (map g1 l) (map g2 l) = map (fun k => f (g1 k) (g2 k)) l.
Proof.
  induction l as [|x l IH]; [reflexivity|].
  cbn [map]. rewrite lanewise_cons. now rewrite IH.
Qed.

Lemma sat_sum_snoc l p : sat_sum (l ++ [p]) = Int.sat_int16 (sat_sum l + p).
Proof. unfold sat_sum. now rewrite fold_left_app. Qed.

Lemma sat_int16_range x : Int.is_int16 (Int.sat_int16 x).
Proof.
  unfold Int.is_int16, Int.sat_int16.
  destruct (Z.ltb_spec x (-32768)); [lia|].
  destruct (Z.ltb_spec 32767 x); lia.
Qed.

Lemma sat_sum_range l : Int.is_int16 (sat_sum l).
Proof.
  destruct l as [|p l] using rev_ind.
  - unfold Int.is_int16, sat_sum. cbn. lia.
  - rewrite sat_sum_snoc. apply sat_int16_range.
Qed.

Lemma lane_sums_step a b j :
  _mm256_adds_epi16 (lane_sums a b j)
    (_mm256_mullo_epi16 (_mm256_loadu_si256 16 (skipn (16 * j) a))
                        (_mm256_loadu_si256 16 (skipn (16 * j) b)))
  = lane_sums a b (S j).
Proof.
  unfold _mm256_adds_epi16, _mm256_mullo_epi16, _mm256_loadu_si256, lane_sums.
  rewrite !loadu_skipn, !lanewise_maps.
  apply map_ext. intros k.
  unfold lane_products. rewrite seq_S, map_app. cbn [map Nat.add].
  now rewrite sat_sum_snoc.
Qed.

Lemma mul_and_acc_short_batches_lanes a b n : forall j,
  mul_and_acc_short_batches n (skipn (16 * j) a) (skipn (16 * j) b) (lane_sums a b j)
  = (skipn (16 * (j + n)) a, skipn (16 * (j + n)) b, lane_sums a b (j + n)).
Proof.
  induction n as [|n IH]; intros j.
  - cbn [mul_and_acc_short_batches]. now rewrite Nat.add_0_r.
  - cbn [mul_and_acc_short_batches].
    rewrite lane_sums_step, !skipn_skipn'.
    replace (16 * j + 16)%nat with (16 * S j)%nat by lia.
    rewrite IH. replace (S j + n)%nat with (j + S n)%nat by lia. reflexivity.
Qed.

Lemma int_add_wrap_l x y : Int.add (Int.to_int32 x) y = Int.to_int32 (x + y).
Proof. unfold Int.add. apply to_int32_add_l. Qed.

Lemma hsum16_wrap acc :
  length acc = 16%nat -> hsum16 acc = Int.to_int32 (sum_list acc).
Proof.
  intros Hl.
  do 16 (destruct acc as [|? acc]; [discriminate Hl|]).
  destruct acc; [|discriminate Hl].
  unfold hsum16. cbn [nth].
  change (Int.add z z0) with (Int.to_int32 (z + z0)).
  rewrite !int_add_wrap_l. f_equal.
  cbn [sum_list fold_right]. rewrite Z.add_0_r, !Z.add_assoc. reflexivity.
Qed.

Lemma mul_and_acc_short_rest_wrap n : forall aPtr bPtr r,
  (n <= length aPtr)%nat -> (n <= length bPtr)%nat ->
  mul_and_acc_short_rest n aPtr bPtr (Int.to_int32 r)
  = Int.to_int32 (r + dot (firstn n aPtr) (firstn n bPtr)).
Proof.
  induction n as [|n IH]; intros aPtr bPtr r Ha Hb.
  - cbn [mul_and_acc_short_rest firstn dot]. f_equal. lia.
  - destruct aPtr as [|x aPtr]; [simpl in Ha; lia|].
    destruct bPtr as [|y bPtr]; [simpl in Hb; lia|].
    cbn [mul_and_acc_short_rest hd tl firstn dot].
    unfold Int.mul. rewrite int_add_wrap, IH by (simpl in Ha, Hb; lia).
    f_equal. ring.
Qed.

(** The 16-bit kernel on every input: the sixteen clamped lane sums and
    the products of the leftover elements, added in [int]. *)
Lemma mul_and_acc_short_lanes (a b : list Z) (N : Z) :
  0 <= N -> (Z.to_nat N <= length a)%nat -> (Z.to_nat N <= length b)%nat ->
  avx2_mul_and_acc_short a b N
  = Int.to_int32
      (sum_list (lane_sums a b (Z.to_nat (N / 16)))
       + dot (firstn (Z.to_nat (N mod 16)) (skipn (16 * Z.to_nat (N / 16)) a))
             (firstn (Z.to_nat (N mod 16)) (skipn (16 * Z.to_nat (N / 16)) b))).
Proof.
  intros HN Ha Hb.
  pose proof (split_count 16 N ltac:(lia) HN) as Hs.
  change (Z.to_nat 16) with 16%nat in Hs.
  pose proof (Z.div_mod N 16 ltac:(lia)) as Hdm.
  unfold avx2_mul_and_acc_short.
  change (_mm256_setzero_si256 16) with (lane_sums a b 0).
  pose proof (mul_and_acc_short_batches_lanes a b (Z.to_nat (N / 16)) 0) as E.
  change (16 * 0)%nat with 0%nat in E. cbn [skipn Nat.add] in E.
  rewrite E.
  rewrite hsum16_wrap by (unfold lane_sums; now rewrite length_map, length_seq).
  replace (N - N / 16 * 16) with (N mod 16) by lia.
  apply mul_and_acc_short_rest_wrap; apply length_skipn_le; lia.
Qed.

Lemma lane_sums_fl32_step a b j :
  _mm256_add_ps (lane_sums_fl32 a b j)
    (_mm256_mul_ps (_mm256_loadu_ps (skipn (8 * j) a))
                   (_mm256_loadu_ps (skipn (8 * j) b)))
  = lane_sums_fl32 a b (S j).
Proof.
  unfold _mm256_add_ps, _mm256_mul_ps, _mm256_loadu_ps, lane_sums_fl32.
  rewrite !loadu_skipn, !lanewise_maps.
  apply map_ext. intros k.
  unfold lane_products_fl32. rewrite seq_S, map_app, fold_left_app.
  reflexivity.
Qed.

Lemma mul_and_acc_fl32_batches_lanes a b n : forall j,
  mul_and_acc_fl32_batches n (skipn (8 * j) a) (skipn (8 * j) b) (lane_sums_fl32 a b j)
  = (skipn (8 * (j + n)) a, skipn (8 * (j + n)) b, lane_sums_fl32 a b (j + n)).
Proof.
  induction n as [|n IH]; intros j.
  - cbn [mul_and_acc_fl32_batches]. now rewrite Nat.add_0_r.
  - cbn [mul_and_acc_fl32_batches].
    rewrite lane_sums_fl32_step, !skipn_skipn'.
    replace (8 * j + 8)%nat with (8 * S j)%nat by lia.
    rewrite IH. replace (S j + n)%nat with (j + S n)%nat by lia. reflexivity.
Qed.

Lemma lane_sums_fl32_zero a b : lane_sums_fl32 a b 0 = _mm256_setzero_ps.
Proof. reflexivity. Qed.

(** The floating-point kernel on every input: eight running sums, one a
    lane, added in lane order, and then the products of the leftover
    elements in their order. *)
Lemma mul_and_acc_fl32_lanes (a b : list spec_float) (N : Z) :
  0 <= N -> (Z.to_nat N <= length a)%nat -> (Z.to_nat N <= length b)%nat ->
  avx2_mul_and_acc_fl32 a b N
  = fold_left (fun s p => (s + fst p * snd p)%F)
      (combine (firstn (Z.to_nat (N mod 8)) (skipn (8 * Z.to_nat (N / 8)) a))
               (firstn (Z.to_nat (N mod 8)) (skipn (8 * Z.to_nat (N / 8)) b)))
      (hsum8_ps (lane_sums_fl32 a b (Z.to_nat (N / 8)))).
Proof.
  intros HN Ha Hb.
  pose proof (split_count 8 N ltac:(lia) HN) as Hs.
  change (Z.to_nat 8) with 8%nat in Hs.
  pose proof (Z.div_mod N 8 ltac:(lia)) as Hdm.
  pose proof (Z.mod_pos_bound N 8 ltac:(lia)) as Hmod.
  unfold avx2_mul_and_acc_fl32.
  rewrite <- (lane_sums_fl32_zero a b).
  pose proof (mul_and_acc_fl32_batches_lanes a b (Z.to_nat (N / 8)) 0) as E.
  change (8 * 0)%nat with 0%nat in E. cbn [skipn Nat.add] in E.
  rewrite E.
  replace (N - N / 8 * 8) with (N mod 8) by lia.
  set (r := Z.to_nat (N mod 8)).
  set (q := Z.to_nat (N / 8)) in *.
  generalize (hsum8_ps (lane_sums_fl32 a b q)) as s0.
  assert (Hra : (r <= length (skipn (8 * q) a))%nat)
    by (apply length_skipn_le; unfold r; lia).
  assert (Hrb : (r <= length (skipn (8 * q) b))%nat)
    by (apply length_skipn_le; unfold r; lia).
  revert Hra Hrb.
  generalize (skipn (8 * q) a) as aPtr. generalize (skipn (8 * q) b) as bPtr.
  clear. induction r as [|r IH]; intros bPtr aPtr Hra Hrb s0.
  - reflexivity.
  - destruct aPtr as [|x aPtr]; [simpl in Hra; lia|].
    destruct bPtr as [|y bPtr]; [simpl in Hrb; lia|].
    cbn [mul_and_acc_fl32_rest hd tl firstn combine fold_left fst snd].
    apply IH; simpl in Hra, Hrb; lia.
Qed.

(** C2, as the code has it.  On empty vectors both kernels return zero.
    On vectors that hold [N] elements the 16-bit kernel returns, reduced
    to an [int], the sum of sixteen lane sums and of the products of the
    last [N mod 16] elements; lane [k] is a 16-bit sum, clamped after
    every addition, of the low 16 bits of the products of the elements
    [k], [16 + k], [32 + k], ...  It is the sum of the products as long
    as every product is at most [M] in size with [M] at most 32767 and
    [M] times the number of whole registers at most 32767.  The
    floating-point kernel returns eight [float] running sums, one for
    each lane, added in lane order, to which the products of the last
    [N mod 8] elements are added in their order; below sixteen elements
    that is what the scalar loop returns, bit for bit. *)
Theorem mul_and_acc_kernels :
  (forall a b, avx2_mul_and_acc_short a b 0 = 0) /\
  (forall a b, avx2_mul_and_acc_fl32 a b 0 = S754_zero false) /\
  (forall (a b : list Z) (N : Z),
     0 <= N -> (Z.to_nat N <= length a)%nat -> (Z.to_nat N <= length b)%nat ->
     let q := Z.to_nat (N / 16) in
     let r := Z.to_nat (N mod 16) in
     Forall Int.is_int16 (lane_sums a b q) /\
     avx2_mul_and_acc_short a b N
     = Int.to_int32
         (sum_list (lane_sums a b q)
          + dot (firstn r (skipn (16 * q) a)) (firstn r (skipn (16 * q) b)))) /\
  (forall (a b : list Z) (N M : Z),
     Z.of_nat (length a) = N -> Z.of_nat (length b) = N ->
     0 <= M <= 32767 -> M * (N / 16) <= 32767 ->
     products_within M a b ->
     avx2_mul_and_acc_short a b N = dot a b) /\
  (forall (a b : list spec_float) (N : Z),
     0 <= N -> (Z.to_nat N <= length a)%nat -> (Z.to_nat N <= length b)%nat ->
     let q := Z.to_nat (N / 8) in
     let r := Z.to_nat (N mod 8) in
     avx2_mul_and_acc_fl32 a b N
     = fold_left (fun s p => (s + fst p * snd p)%F)
         (combine (firstn r (skipn (8 * q) a)) (firstn r (skipn (8 * q) b)))
         (hsum8_ps (lane_sums_fl32 a b q))) /\
  (forall (a b : list spec_float) (N : Z),
     Z.of_nat (length a) = N -> Z.of_nat (length b) = N -> N < 16 ->
     avx2_mul_and_acc_fl32 a b N = dot_fl32 a b).
Proof.
  split; [reflexivity|]. split; [reflexivity|].
  split; [|split; [|split]].
  - intros a b N HN Ha Hb q r. split.
    + unfold lane_sums. apply Forall_map, Forall_forall.
      intros k _. apply sat_sum_range.
    + now apply mul_and_acc_short_lanes.
  - intros a b N M. apply mul_and_acc_short_exact.
  - intros a b N HN Ha Hb q r. now apply mul_and_acc_fl32_lanes.
  - intros a b N. apply mul_and_acc_fl32_short_vectors.
Qed.

Lemma mul_and_acc_kernels_witness :
  avx2_mul_and_acc_short loud_a loud_b 32 = 524272 /\
  dot loud_a loud_b = 640000 /\
  avx2_mul_and_acc_short (repeat 100 37) (repeat (-3) 37) 37 = -11100 /\
  avx2_mul_and_acc_fl32 (repeat (Single.of_Z 3) 11) (repeat (Single.of_Z 5) 11) 11
  = Single.of_Z 165.
Proof.
  destruct mul_and_acc_kernels as (_ & _ & Hl & Hs & _ & Hf).
  split; [|split; [|split]].
  - destruct (Hl loud_a loud_b 32) as [_ E].
    + lia.
    + vm_compute. lia.
    + vm_compute. lia.
    + rewrite E. vm_compute. reflexivity.
  - vm_compute. reflexivity.
  - rewrite (Hs (repeat 100 37) (repeat (-3) 37) 37 300).
    + reflexivity.
    + reflexivity.
    + reflexivity.
    + lia.
    + change (37 / 16) with 2. lia.
    + unfold products_within. apply Forall_forall. intros [x y] Hp.
      apply in_combine_l in Hp as Hl'. apply in_combine_r in Hp as Hr.
      apply repeat_spec in Hl'. apply repeat_spec in Hr.
      rewrite Hl', Hr. simpl. lia.
  - rewrite (Hf _ _ 11); [vm_compute; reflexivity|reflexivity|reflexivity|lia].
Defined.
